(** * ABAP scanner for SAP Note 2198647: a shallow embedding of [app/app.py]

    The development follows the layout of the source file:
    - the pattern catalog ([SQL_TABLES], [SQL_FIELDS], [DECL_FIELDS],
      [DECL_FIELDS_OBS]) as finite maps and sets;
    - the three compiled patterns and the part of Python's [re] module they
      rely on: a backtracking matcher for literals, character classes,
      [\b], [$], greedy and lazy repetition of a class, alternation, groups
      and look-ahead, with [search] and [finditer];
    - the comment helpers, the two scanners and the [assess] endpoint, whose
      loops are written as folds over explicit accumulators and whose
      dictionary look-ups may raise.

    After the embedding come the notions used to state the properties, the
    lemmas about the matcher and about the scanners, and the properties
    themselves.

    Texts are sequences of characters with code points below 256. The
    character classes and case mappings are those Python applies to a [str]
    on that range. Two characters of the range have an upper-case form
    outside it and keep their own form here; the program only ever compares
    an upper-cased identifier with the catalog keys, which are ASCII.

    Every statement about texts is a statement about texts of that range.
    Beyond it the patterns accept more than the statements say: when letter
    case is ignored, Python lets the code points 304 and 305 stand for the
    letter I, 383 for S and 8490 for K, so that a keyword JOIN or LIKE may be
    written with a dotted capital I or a dotless small i. *)

From Stdlib Require Import Ascii String Arith Lia.
From stdpp Require Import base option list gmap strings.

Local Open Scope string_scope.
Local Open Scope list_scope.
Local Open Scope nat_scope.

(** ** Characters *)

Module Char.

Definition ord (c : ascii) : nat := nat_of_ascii c.

Definition between (lo hi : nat) (c : ascii) : bool :=
  (lo <=? ord c)%nat && (ord c <=? hi)%nat.

(** The letters that have a lower-case, respectively upper-case, partner 32
    places away: A-Z and a-z, and in the upper half all of 192..222 but the
    multiplication sign and all of 224..254 but the division sign. *)
Definition is_upper (c : ascii) : bool :=
  between 65 90 c || between 192 214 c || between 216 222 c.
Definition is_lower (c : ascii) : bool :=
  between 97 122 c || between 224 246 c || between 248 254 c.

(** [\w] of a [str] pattern: the alphanumeric characters and the underscore.
    Below 256 these are the digits, the ASCII letters, the underscore, the
    two ordinal indicators, the superscript digits, the micro sign, the
    three vulgar fractions and the accented letters. *)
Definition is_word (c : ascii) : bool :=
  between 48 57 c || between 65 90 c || (ord c =? 95)%nat || between 97 122 c
  || (ord c =? 170)%nat || between 178 179 c || (ord c =? 181)%nat
  || between 185 186 c || between 188 190 c
  || between 192 214 c || between 216 246 c || between 248 255 c.

(** [\s] of a [str] pattern: tab, newline, vertical tab, form feed, carriage
    return, the separators 28..31, the space, the next-line control 133 and
    the no-break space 160. *)
Definition is_space (c : ascii) : bool :=
  between 9 13 c || between 28 32 c || (ord c =? 133)%nat || (ord c =? 160)%nat.

(** Simple case mapping, one character to one character. The micro sign and
    y with diaeresis have their upper-case forms beyond 255, and the sharp s
    has none of one character: the three are left as they are. *)
Definition upper (c : ascii) : ascii :=
  if is_lower c then ascii_of_nat (ord c - 32) else c.

Definition lower (c : ascii) : ascii :=
  if is_upper c then ascii_of_nat (ord c + 32) else c.

(** The upper-case form as [str.upper] writes it: sharp s becomes SS. *)
Definition upper_str (c : ascii) : list ascii :=
  if (ord c =? 223)%nat then ["S"; "S"]%char else [upper c].

Definition eqb (a b : ascii) : bool := (ord a =? ord b)%nat.

End Char.

(** [str.upper()] *)
Definition upper (s : string) : string :=
  string_of_list_ascii (list_ascii_of_string s ≫= Char.upper_str).

(** ** The fragment of [re] used by the scanner *)

Module Re.

(** One-character items of a pattern. *)
Inductive atom : Type :=
| Lit (c : ascii)                       (* a literal character *)
| Dot                                   (* [.] *)
| WordC                                 (* [\w] *)
| SpaceC                                (* [\s] *)
| Range (items : list (ascii * ascii)). (* [[a-bc-d...]] *)

Inductive re : Type :=
| Eps
| One (a : atom)
| Rep (a : atom) (min : nat) (greedy : bool)  (* a*, a+, a*?, a+? *)
| Bnd                                         (* [\b] *)
| Eos                                         (* [$] *)
| Seq (r1 r2 : re)
| Alt (r1 r2 : re)
| Grp (name : string) (r : re)                (* a capturing group *)
| Ahead (r : re).                             (* [(?=...)] *)

Record flags := { IGNORECASE : bool; DOTALL : bool }.

Record pattern := { p_flags : flags; p_re : re }.

(** A position in the subject string: the characters already passed, most
    recent first, and the characters still ahead. *)
Record cursor := Cursor { before : list ascii; after : list ascii }.

Definition pos (c : cursor) : nat := length (before c).

Abbreviation groups := (gmap string (nat * nat)).

Record mstate := MState { cur : cursor; caps : groups }.

Definition in_ranges (items : list (ascii * ascii)) (c : ascii) : bool :=
  existsb (fun '(lo, hi) => Char.between (Char.ord lo) (Char.ord hi) c) items.

(** Does the character satisfy the item? For characters below 256; see the
    note on the range of texts at the head of the file. *)
Definition atom_ok (fl : flags) (a : atom) (c : ascii) : bool :=
  match a with
  | Lit x =>
      if IGNORECASE fl then Char.eqb (Char.lower x) (Char.lower c)
      else Char.eqb x c
  | Dot => DOTALL fl || negb (Char.eqb c "010")
  | WordC => Char.is_word c
  | SpaceC => Char.is_space c
  | Range items =>
      in_ranges items c
      || (IGNORECASE fl
          && (in_ranges items (Char.lower c) || in_ranges items (Char.upper c)))
  end.

Arguments atom_ok : simpl never.

Definition word_at (o : option ascii) : bool :=
  match o with Some c => Char.is_word c | None => false end.

(** [\b]: exactly one of the two neighbours is a word character; outside the
    string counts as a non-word character. *)
Definition at_boundary (c : cursor) : bool :=
  xorb (word_at (head (before c))) (word_at (head (after c))).

(** [$] without MULTILINE: at the end, or just before a final newline. *)
Definition at_end (c : cursor) : bool :=
  match after c with
  | [] => true
  | [x] => Char.eqb x "010"
  | _ => false
  end.

(** All the cursors reached by consuming zero, one, two, ... characters that
    satisfy [a], shortest first. *)
Fixpoint run (fl : flags) (a : atom) (bef aft : list ascii) : list cursor :=
  Cursor bef aft ::
  match aft with
  | x :: xs => if atom_ok fl a x then run fl a (x :: bef) xs else []
  | [] => []
  end.

(** The ways [r] matches at a state, in the order in which the backtracking
    matcher tries them; the head is the match it reports. *)
Fixpoint matches (fl : flags) (r : re) (st : mstate) : list mstate :=
  match r with
  | Eps => [st]
  | One a =>
      match after (cur st) with
      | x :: xs =>
          if atom_ok fl a x
          then [MState (Cursor (x :: before (cur st)) xs) (caps st)]
          else []
      | [] => []
      end
  | Rep a min greedy =>
      let cs := drop min (run fl a (before (cur st)) (after (cur st))) in
      (fun c => MState c (caps st)) <$> (if greedy then reverse cs else cs)
  | Bnd => if at_boundary (cur st) then [st] else []
  | Eos => if at_end (cur st) then [st] else []
  | Seq r1 r2 => matches fl r1 st ≫= matches fl r2
  | Alt r1 r2 => matches fl r1 st ++ matches fl r2 st
  | Grp name r1 =>
      (fun st' =>
         MState (cur st') (<[name := (pos (cur st), pos (cur st'))]> (caps st')))
      <$> matches fl r1 st
  | Ahead r1 =>
      match matches fl r1 st with
      | st' :: _ => [MState (cur st) (caps st')]
      | [] => []
      end
  end.

(** A match object: the subject string, the span and the group spans. *)
Record Match := {
  m_string : list ascii;
  m_start : nat;
  m_end : nat;
  m_groups : groups
}.

Definition slice (s : list ascii) (i j : nat) : list ascii :=
  take (j - i) (drop i s).

Definition span (m : Match) : nat * nat := (m_start m, m_end m).

(** [m.group(0)] *)
Definition group0 (m : Match) : string :=
  string_of_list_ascii (slice (m_string m) (m_start m) (m_end m)).

(** [m.group(name)]; [None] when the group took no part in the match. *)
Definition group (m : Match) (name : string) : option string :=
  (fun '(i, j) => string_of_list_ascii (slice (m_string m) i j))
  <$> m_groups m !! name.

(** One attempt at a fixed start. With [must_advance] an empty match is
    refused and the matcher backtracks to the next alternative. *)
Definition match_at (p : pattern) (c : cursor) (must_advance : bool)
  : option mstate :=
  head (List.filter
          (fun st => negb must_advance || negb (pos (cur st) =? pos c)%nat)
          (matches (p_flags p) (p_re p) (MState c ∅))).

Definition mk_match (text : list ascii) (c : cursor) (st : mstate) : Match :=
  {| m_string := text; m_start := pos c; m_end := pos (cur st);
     m_groups := caps st |}.

(** [p.search(s)] from a given position onwards. *)
Fixpoint search_from (p : pattern) (text bef aft : list ascii)
  : option Match :=
  match match_at p (Cursor bef aft) false with
  | Some st => Some (mk_match text (Cursor bef aft) st)
  | None =>
      match aft with
      | x :: xs => search_from p text (x :: bef) xs
      | [] => None
      end
  end.

Definition search (p : pattern) (s : string) : option Match :=
  let text := list_ascii_of_string s in search_from p text [] text.

(** The matches [finditer] yields at one start position: the first match
    and, when that one is empty, the first non-empty one at the same place. *)
Definition matches_here (p : pattern) (text : list ascii) (c : cursor)
  : list Match :=
  match match_at p c false with
  | None => []
  | Some st =>
      let m := mk_match text c st in
      if (m_end m =? m_start m)%nat then
        m :: match match_at p c true with
             | Some st' => [mk_match text c st']
             | None => []
             end
      else [m]
  end.

(** Characters to pass over before the next attempt, after the attempt at
    the current position produced [ms]. *)
Definition to_skip (ms : list Match) : nat :=
  match last ms with
  | Some m => pred (m_end m - m_start m)
  | None => 0
  end.

Fixpoint finditer_from (p : pattern) (text : list ascii) (skip : nat)
    (bef aft : list ascii) : list Match :=
  match skip with
  | S k =>
      match aft with
      | x :: xs => finditer_from p text k (x :: bef) xs
      | [] => []
      end
  | O =>
      let ms := matches_here p text (Cursor bef aft) in
      ms ++ match aft with
            | x :: xs => finditer_from p text (to_skip ms) (x :: bef) xs
            | [] => []
            end
  end.

(** [p.finditer(s)] *)
Definition finditer (p : pattern) (s : string) : list Match :=
  let text := list_ascii_of_string s in finditer_from p text 0 [] text.

(** A literal word, character by character. *)
Fixpoint lits (s : string) : re :=
  match s with
  | EmptyString => Eps
  | String c EmptyString => One (Lit c)
  | String c s' => Seq (One (Lit c)) (lits s')
  end.

End Re.

Import Re.

Declare Scope re_scope.
Delimit Scope re_scope with re.
Infix ">>" := Seq (at level 60, right associativity) : re_scope.

(** ** Definitions of the source file *)

Definition SQL_TABLES : gmap string string :=
  {[ "VBUK" := "VBAK"; "VBUP" := "VBAP" ]}.
Definition SQL_FIELDS : gset string := {[ "VBTYP_EXT" ]}.
Definition DECL_FIELDS : gmap string string := {[ "VBTYP" := "VBTYPL" ]}.
Definition DECL_FIELDS_OBS : gset string := {[ "VBTYP_EXT" ]}.

Definition ICASE_DOTALL : flags := {| IGNORECASE := true; DOTALL := true |}.
Definition ICASE : flags := {| IGNORECASE := true; DOTALL := false |}.

(** [\bSELECT\b(?P<select>.+?)\bFROM\b\s+(?P<table>\w+)(?P<rest>.*?)(?=(\bSELECT\b|$))]
    with IGNORECASE and DOTALL; the unnamed fourth group is called ["4"]. *)
Definition SQL_SELECT_BLOCK_RE : pattern :=
  {| p_flags := ICASE_DOTALL;
     p_re := (Bnd >> lits "SELECT" >> Bnd >>
              Grp "select" (Rep Dot 1 false) >>
              Bnd >> lits "FROM" >> Bnd >>
              Rep SpaceC 1 true >>
              Grp "table" (Rep WordC 1 true) >>
              Grp "rest" (Rep Dot 0 false) >>
              Ahead (Grp "4" (Alt (Bnd >> lits "SELECT" >> Bnd) Eos)))%re |}.

(** [\bJOIN\s+(?P<table>\w+)] with IGNORECASE. *)
Definition JOIN_RE : pattern :=
  {| p_flags := ICASE;
     p_re := (Bnd >> lits "JOIN" >> Rep SpaceC 1 true >>
              Grp "table" (Rep WordC 1 true))%re |}.

(** [\b(?:TYPE|LIKE)\b\s+(?P<field>[A-Z0-9_]+)] with IGNORECASE. *)
Definition DECLARATION_RE : pattern :=
  {| p_flags := ICASE;
     p_re := (Bnd >> Alt (lits "TYPE") (lits "LIKE") >> Bnd >>
              Rep SpaceC 1 true >>
              Grp "field"
                (Rep (Range [("A", "Z"); ("0", "9"); ("_", "_")]%char) 1 true))%re |}.

(** [\bVBTYP_EXT\b] with IGNORECASE, the pattern of the [re.search] call. *)
Definition VBTYP_EXT_RE : pattern :=
  {| p_flags := ICASE; p_re := (Bnd >> lits "VBTYP_EXT" >> Bnd)%re |}.

(** ** Exceptions *)

Inductive exn : Type :=
| KeyError (key : string)   (* [d[key]] on a missing key *)
| NoneTypeError.            (* a string operation applied to [None] *)

Inductive result (A : Type) : Type :=
| Ok (a : A)
| Raise (e : exn).
Arguments Ok {A} a.
Arguments Raise {A} e.

#[export] Instance result_ret : MRet result := fun A a => Ok a.
#[export] Instance result_bind : MBind result := fun A B f m =>
  match m with
  | Ok a => f a
  | Raise e => Raise e
  end.

(** A [for] loop whose body may raise, over an accumulator. *)
Fixpoint for_each {A B : Type} (f : B -> A -> result B) (l : list A) (b : B)
  : result B :=
  match l with
  | [] => Ok b
  | a :: l' => b' ← f b a; for_each f l' b'
  end.

(** [d[key]] *)
Definition getitem (d : gmap string string) (key : string) : result string :=
  match d !! key with
  | Some v => Ok v
  | None => Raise (KeyError key)
  end.

(** [key in d] for a dict, [key in s] for a set *)
Definition in_dict (key : string) (d : gmap string string) : bool :=
  bool_decide (is_Some (d !! key)).
Definition in_set (key : string) (s : gset string) : bool :=
  bool_decide (key ∈ s).

(** A group that must hold a string. *)
Definition group_str (m : Match) (name : string) : result string :=
  match group m name with
  | Some s => Ok s
  | None => Raise NoneTypeError
  end.

(** ** Data model *)

Record Unit := {
  pgm_name : string;
  inc_name : string;
  type : string;
  name : option string;
  code : option string
}.

Inductive target_kind : Type := TABLE | SQL_FIELD | DECLARATION.

#[export] Instance target_kind_eq_dec : EqDecision target_kind.
Proof. solve_decision. Defined.

#[export] Instance target_kind_countable : Countable target_kind.
Proof.
  refine (inj_countable'
            (fun k => match k with TABLE => 0 | SQL_FIELD => 1 | DECLARATION => 2 end)
            (fun n => match n with 0 => TABLE | 1 => SQL_FIELD | _ => DECLARATION end)
            _).
  intros []; reflexivity.
Defined.

(** The dictionaries the scanners append to [results]. *)
Record RawHit := {
  hit_target_type : target_kind;
  hit_target_name : string;
  hit_field : option string;
  hit_span : nat * nat;
  hit_used_fields : list string;
  hit_suggested_fields : option (list string);
  hit_suggested_statement : string
}.

(** The dictionaries of the ["selects"] list. *)
Record Finding := {
  table : option string;
  field : option string;
  target_type : target_kind;
  target_name : string;
  start_char_in_unit : nat;
  end_char_in_unit : nat;
  used_fields : list string;
  ambiguous : bool;
  suggested_fields : option (list string);
  suggested_statement : string
}.

(** One element of the response: the unit's own fields and ["selects"]. *)
Record UnitRecord := {
  unit : Unit;
  selects : list Finding
}.

(** ** Comment helpers *)

Definition comment_table (tbl : string) : result string :=
  repl ← getitem SQL_TABLES tbl;
  Ok ("* TODO: Table " +:+ upper tbl
      +:+ " obsolete in S/4HANA (Note 2198647). Replace with " +:+ repl +:+ ".").

Definition comment_decl_field (field : string) : result string :=
  let f := upper field in
  if in_set f DECL_FIELDS_OBS then
    Ok ("* TODO: Field " +:+ f +:+ " obsolete (Note 2198647). Remove usage.")
  else if in_dict f DECL_FIELDS then
    repl ← getitem DECL_FIELDS f;
    Ok ("* TODO: Data element " +:+ f
        +:+ " was lengthened (Note 2198647). Use " +:+ repl +:+ ".")
  else Ok "".

Definition comment_sql_field (f : string) : string :=
  "* TODO: Field " +:+ f +:+ " obsolete (Note 2198647). Remove usage.".

(** ** SQL scanner *)

(** The body of the inner loop over [JOIN_RE.finditer(rest_text)]. *)
Definition scan_join (results : list RawHit) (jm : Match)
  : result (list RawHit) :=
  g ← group_str jm "table";
  let jtable := upper g in
  if in_dict jtable SQL_TABLES then
    repl ← getitem SQL_TABLES jtable;
    cmt ← comment_table jtable;
    Ok (results ++ [{| hit_target_type := TABLE;
                       hit_target_name := jtable;
                       hit_field := None;
                       hit_span := span jm;
                       hit_used_fields := [jtable];
                       hit_suggested_fields := Some [repl];
                       hit_suggested_statement := cmt |}])
  else Ok results.

(** The body of the loop over [SQL_SELECT_BLOCK_RE.finditer(code)]. *)
Definition scan_block (results : list RawHit) (stmt : Match)
  : result (list RawHit) :=
  g ← group_str stmt "table";
  let table := upper g in
  rest_text ← group_str stmt "rest";
  let span_ := span stmt in
  (* check main FROM table *)
  results ←
    (if in_dict table SQL_TABLES then
       repl ← getitem SQL_TABLES table;
       cmt ← comment_table table;
       Ok (results ++ [{| hit_target_type := TABLE;
                          hit_target_name := table;
                          hit_field := None;
                          hit_span := span stmt;
                          hit_used_fields := [table];
                          hit_suggested_fields := Some [repl];
                          hit_suggested_statement := cmt |}])
     else Ok results);
  (* also check JOIN tables *)
  results ← for_each scan_join (finditer JOIN_RE rest_text) results;
  (* check SQL field VBTYP_EXT (only once per SELECT block) *)
  if bool_decide (is_Some (search VBTYP_EXT_RE (group0 stmt))) then
    Ok (results ++ [{| hit_target_type := SQL_FIELD;
                       hit_target_name := "VBTYP_EXT";
                       hit_field := Some "VBTYP_EXT";
                       hit_span := span_;
                       hit_used_fields := ["VBTYP_EXT"];
                       hit_suggested_fields := None;
                       hit_suggested_statement := comment_sql_field "VBTYP_EXT" |}])
  else Ok results.

Definition scan_sql (code : string) : result (list RawHit) :=
  for_each scan_block (finditer SQL_SELECT_BLOCK_RE code) [].

(** ** Declaration scanner *)

Definition scan_decl (results : list RawHit) (m : Match)
  : result (list RawHit) :=
  g ← group_str m "field";
  let fld := upper g in
  if in_dict fld DECL_FIELDS || in_set fld DECL_FIELDS_OBS then
    sugg ← (if in_dict fld DECL_FIELDS
            then repl ← getitem DECL_FIELDS fld; Ok (Some [repl])
            else Ok None);
    cmt ← comment_decl_field fld;
    Ok (results ++ [{| hit_target_type := DECLARATION;
                       hit_target_name := fld;
                       hit_field := Some fld;
                       hit_span := span m;
                       hit_used_fields := [fld];
                       hit_suggested_fields := sugg;
                       hit_suggested_statement := cmt |}])
  else Ok results.

Definition scan_declarations (code : string) : result (list RawHit) :=
  for_each scan_decl (finditer DECLARATION_RE code) [].

(** ** The endpoint *)

Abbreviation hit_key := (target_kind * string * (nat * nat))%type.

Definition key_of (hit : RawHit) : hit_key :=
  (hit_target_type hit, hit_target_name hit, hit_span hit).

Definition to_finding (hit : RawHit) : Finding :=
  {| table := match hit_target_type hit with
              | TABLE => Some (hit_target_name hit)
              | _ => None
              end;
     field := hit_field hit;
     target_type := hit_target_type hit;
     target_name := hit_target_name hit;
     start_char_in_unit := fst (hit_span hit);
     end_char_in_unit := snd (hit_span hit);
     used_fields := hit_used_fields hit;
     ambiguous := false;
     suggested_fields := hit_suggested_fields hit;
     suggested_statement := hit_suggested_statement hit |}.

(** The body of the loop over the hits: the state is [findings] and [seen]. *)
Definition collect (acc : list Finding * gset hit_key) (hit : RawHit)
  : list Finding * gset hit_key :=
  let '(findings, seen) := acc in
  let key := key_of hit in
  if bool_decide (key ∈ seen) then (findings, seen)
  else (findings ++ [to_finding hit], seen ∪ {[ key ]}).

(** [u.code or ""] *)
Definition src_of (u : Unit) : string :=
  match code u with
  | Some s => if String.eqb s "" then "" else s
  | None => ""
  end.

(** The part of the loop body that builds [findings] from [src]. *)
Definition unit_findings (src : string) : result (list Finding) :=
  sql_hits ← scan_sql src;
  decl_hits ← scan_declarations src;
  Ok (fst (foldl collect ([], ∅) (sql_hits ++ decl_hits))).

(** The body of the loop over [units]. *)
Definition assess_unit (results : list UnitRecord) (u : Unit)
  : result (list UnitRecord) :=
  let src := src_of u in
  findings ← unit_findings src;
  Ok (results ++ [{| unit := u; selects := findings |}]).

Definition assess (units : list Unit) : result (list UnitRecord) :=
  for_each assess_unit units [].

(** * Vocabulary of the statements *)

(** ** About matches *)

Module ReSpec.

(** [c'] lies further right than [c] in the same string. *)
Definition moves (c c' : cursor) : Prop :=
  ∃ mid, after c = mid ++ after c' ∧ before c' = reverse mid ++ before c.

(** [c'] is reached from [c] by passing over exactly [mid]. *)
Definition moves_by (mid : list ascii) (c c' : cursor) : Prop :=
  after c = mid ++ after c' ∧ before c' = reverse mid ++ before c.

(** A lower bound on the number of characters a pattern consumes. *)
Fixpoint min_len (r : re) : nat :=
  match r with
  | Eps | Bnd | Eos | Ahead _ => 0
  | One _ => 1
  | Rep _ min _ => min
  | Seq r1 r2 => min_len r1 + min_len r2
  | Alt r1 r2 => min_len r1 `min` min_len r2
  | Grp _ r1 => min_len r1
  end.

(** Groups that every successful match of the pattern sets. *)
Fixpoint binds (name : string) (r : re) : bool :=
  match r with
  | Eps | One _ | Rep _ _ _ | Bnd | Eos => false
  | Seq r1 r2 => binds name r1 || binds name r2
  | Alt r1 r2 => binds name r1 && binds name r2
  | Grp n r1 => String.eqb n name || binds name r1
  | Ahead r1 => binds name r1
  end.

(** Successive matches lie side by side, from [lo] rightwards. *)
Fixpoint ordered (lo : nat) (ms : list Match) : Prop :=
  match ms with
  | [] => True
  | m :: ms' => lo ≤ m_start m ∧ m_start m ≤ m_end m ∧ ordered (m_end m) ms'
  end.

(** [m] is one of the ways the pattern matches somewhere in [text]. *)
Definition arises (p : pattern) (text : list ascii) (m : Match) : Prop :=
  ∃ bef aft st,
    reverse bef ++ aft = text ∧
    st ∈ matches (p_flags p) (p_re p) (MState (Cursor bef aft) ∅) ∧
    m = mk_match text (Cursor bef aft) st.

(** Consuming the literal word [w], character by character. *)
Fixpoint eat (fl : flags) (w bef aft : list ascii) : option cursor :=
  match w with
  | [] => Some (Cursor bef aft)
  | x :: w' =>
      match aft with
      | y :: ys => if atom_ok fl (Lit x) y then eat fl w' (y :: bef) ys else None
      | [] => None
      end
  end.

(** Every character, for facts checked by enumeration. *)
Definition all_ascii : list ascii := ascii_of_nat <$> seq 0 256.

End ReSpec.

Import ReSpec.

(** ** About hits and findings *)

(** The three kinds of hit, as the scanners build them. *)
Definition table_hit (t r : string) (sp : nat * nat) : RawHit :=
  {| hit_target_type := TABLE;
     hit_target_name := t;
     hit_field := None;
     hit_span := sp;
     hit_used_fields := [t];
     hit_suggested_fields := Some [r];
     hit_suggested_statement :=
       "* TODO: Table " +:+ t
       +:+ " obsolete in S/4HANA (Note 2198647). Replace with " +:+ r +:+ "." |}.

Definition sql_field_hit (sp : nat * nat) : RawHit :=
  {| hit_target_type := SQL_FIELD;
     hit_target_name := "VBTYP_EXT";
     hit_field := Some "VBTYP_EXT";
     hit_span := sp;
     hit_used_fields := ["VBTYP_EXT"];
     hit_suggested_fields := None;
     hit_suggested_statement :=
       "* TODO: Field VBTYP_EXT obsolete (Note 2198647). Remove usage." |}.

Definition decl_hit (f : string) (sugg : option (list string)) (cmt : string)
    (sp : nat * nat) : RawHit :=
  {| hit_target_type := DECLARATION;
     hit_target_name := f;
     hit_field := Some f;
     hit_span := sp;
     hit_used_fields := [f];
     hit_suggested_fields := sugg;
     hit_suggested_statement := cmt |}.

(** The hit for a table written [g] in the text, if the catalog has it. *)
Definition table_hits (g : string) (sp : nat * nat) : list RawHit :=
  match SQL_TABLES !! upper g with
  | Some r => [table_hit (upper g) r sp]
  | None => []
  end.

(** What the body of each loop appends to [results]: for a JOIN match, for
    the SQL field of a block, for a whole block and for a declaration match. *)
Definition join_hits (jm : Match) : list RawHit :=
  match group jm "table" with
  | Some g => table_hits g (span jm)
  | None => []
  end.

Definition field_hits (stmt : Match) : list RawHit :=
  if bool_decide (is_Some (search VBTYP_EXT_RE (group0 stmt)))
  then [sql_field_hit (span stmt)] else [].

Definition block_hits (stmt : Match) : list RawHit :=
  match group stmt "table", group stmt "rest" with
  | Some g, Some rest_text =>
      table_hits g (span stmt)
      ++ (finditer JOIN_RE rest_text ≫= join_hits)
      ++ field_hits stmt
  | _, _ => []
  end.

Definition decl_hits (m : Match) : list RawHit :=
  match group m "field" with
  | Some g =>
      if decide (upper g = "VBTYP") then
        [decl_hit "VBTYP" (Some ["VBTYPL"])
           "* TODO: Data element VBTYP was lengthened (Note 2198647). Use VBTYPL."
           (span m)]
      else if decide (upper g = "VBTYP_EXT") then
        [decl_hit "VBTYP_EXT" None
           "* TODO: Field VBTYP_EXT obsolete (Note 2198647). Remove usage."
           (span m)]
      else []
  | None => []
  end.

(** The hits of the two scanners on a source text. *)
Definition sql_hits_of (src : string) : list RawHit :=
  finditer SQL_SELECT_BLOCK_RE src ≫= block_hits.

Definition decl_hits_of (src : string) : list RawHit :=
  finditer DECLARATION_RE src ≫= decl_hits.

(** The loop over the hits, started with the keys in [seen]. *)
Fixpoint keep (seen : gset hit_key) (hits : list RawHit) : list RawHit :=
  match hits with
  | [] => []
  | h :: t =>
      if bool_decide (key_of h ∈ seen) then keep seen t
      else h :: keep (seen ∪ {[ key_of h ]}) t
  end.

(** The deduplication as the specification words it: a hit survives unless
    an earlier hit of the list has the same key. *)
Definition survives (hits : list RawHit) (i : nat) (h : RawHit)
  : option RawHit :=
  if bool_decide (key_of h ∈ key_of <$> take i hits) then None else Some h.

Definition first_occurrences (hits : list RawHit) : list RawHit :=
  omap id (imap (survives hits) hits).

(** The findings of a source text and the record of a unit. *)
Definition findings_of (src : string) : list Finding :=
  to_finding <$> first_occurrences (sql_hits_of src ++ decl_hits_of src).

Definition record_of (u : Unit) : UnitRecord :=
  {| unit := u; selects := findings_of (src_of u) |}.

(** What every finding satisfies. *)
Definition finding_ok (f : Finding) : Prop :=
  match target_type f with
  | TABLE =>
      field f = None ∧ table f = Some (target_name f)
      ∧ ∃ r, suggested_fields f = Some [r]
  | SQL_FIELD | DECLARATION => field f = Some (target_name f)
  end
  ∧ ambiguous f = false
  ∧ upper (target_name f) = target_name f.

(** The token [w] occurs in [s] as a whole word, in any letter case: some
    stretch of [s] reads [w] once upper-cased, and neither the character
    before it nor the one after it is a word character. *)
Definition token_occurs (w s : string) : Prop :=
  ∃ pre mid post,
    list_ascii_of_string s = pre ++ mid ++ post ∧
    Char.upper <$> mid = list_ascii_of_string w ∧
    word_at (last pre) = false ∧ word_at (head post) = false.

(** Is the hit an SQL_FIELD hit? *)
Definition is_sql_field (h : RawHit) : bool :=
  match hit_target_type h with SQL_FIELD => true | _ => false end.


(** Does [s] contain [w] in any letter case? *)
Fixpoint starts_with_ci (w s : list ascii) : bool :=
  match w, s with
  | [], _ => true
  | x :: w', y :: s' => Ascii.eqb (Char.upper y) x && starts_with_ci w' s'
  | _ :: _, [] => false
  end.

Fixpoint contains_ci (w s : list ascii) : bool :=
  starts_with_ci w s
  || match s with
     | [] => false
     | _ :: s' => contains_ci w s'
     end.

(** Spans that follow one another from [lo] rightwards without overlap. *)
Fixpoint ascending (lo : nat) (sps : list (nat * nat)) : Prop :=
  match sps with
  | [] => True
  | (a, b) :: sps' => lo ≤ a ∧ a < b ∧ ascending b sps'
  end.

(** A unit with the given source text, and the two findings of the
    declaration examples. *)
Definition unit_with (src : string) : Unit :=
  {| pgm_name := "P1"; inc_name := "I1"; type := "FORM"; name := None;
     code := Some src |}.

Definition vbtyp_finding (start : nat) : Finding :=
  {| table := None;
     field := Some "VBTYP";
     target_type := DECLARATION;
     target_name := "VBTYP";
     start_char_in_unit := start;
     end_char_in_unit := start + 10;
     used_fields := ["VBTYP"];
     ambiguous := false;
     suggested_fields := Some ["VBTYPL"];
     suggested_statement :=
       "* TODO: Data element VBTYP was lengthened (Note 2198647). Use VBTYPL." |}.

Definition vbtyp_ext_finding (start : nat) : Finding :=
  {| table := None;
     field := Some "VBTYP_EXT";
     target_type := DECLARATION;
     target_name := "VBTYP_EXT";
     start_char_in_unit := start;
     end_char_in_unit := start + 14;
     used_fields := ["VBTYP_EXT"];
     ambiguous := false;
     suggested_fields := None;
     suggested_statement :=
       "* TODO: Field VBTYP_EXT obsolete (Note 2198647). Remove usage." |}.

(** ** For the further properties *)

(** Does the pattern hold a group called [name]? *)
Fixpoint mentions (name : string) (r : re) : bool :=
  match r with
  | Eps | One _ | Rep _ _ _ | Bnd | Eos => false
  | Seq r1 r2 | Alt r1 r2 => mentions name r1 || mentions name r2
  | Grp n r1 => String.eqb n name || mentions name r1
  | Ahead r1 => mentions name r1
  end.

(** [m] is the match the pattern reports at some start in [text]: the first
    of the ways it matches there. *)
Definition reported (p : pattern) (text : list ascii) (m : Match) : Prop :=
  ∃ bef aft st,
    reverse bef ++ aft = text ∧
    head (matches (p_flags p) (p_re p) (MState (Cursor bef aft) ∅)) = Some st ∧
    m = mk_match text (Cursor bef aft) st.

(** The position [k] of [text]. *)
Definition cursor_at (text : list ascii) (k : nat) : cursor :=
  Cursor (reverse (take k text)) (drop k text).

(** The keyword [w] stands right at the position, in any letter case and as
    a whole word. *)
Definition keyword_ahead (w : string) (c : cursor) : Prop :=
  ∃ mid post,
    after c = mid ++ post ∧
    Char.upper <$> mid = list_ascii_of_string w ∧
    word_at (head (before c)) = false ∧ word_at (head post) = false.

(** A place where the look-ahead of the block pattern holds. *)
Definition block_may_end (c : cursor) : Prop :=
  keyword_ahead "SELECT" c ∨ at_end c = true.

(** The key of the hit a finding was made from. *)
Definition finding_key (f : Finding) : hit_key :=
  (target_type f, target_name f, (start_char_in_unit f, end_char_in_unit f)).

(** [s] is a stretch of [t]. *)
Definition stretch_of (s t : list ascii) : Prop := ∃ a b, t = a ++ s ++ b.

(** The characters of the identifier class of the declaration pattern, as
    the pattern takes them when letter case is ignored. *)
Definition ident_char (c : ascii) : bool :=
  Char.between 48 57 c || Char.between 65 90 c || Char.between 97 122 c
  || (Char.ord c =? 95).

(** The first place from [j] onwards where a block may end is [e]. *)
Definition first_end (text : list ascii) (j e : nat) : Prop :=
  block_may_end (cursor_at text e)
  ∧ ∀ k, j ≤ k → k < e → ¬ block_may_end (cursor_at text k).

(** Two characters that differ at most in letter case, two texts that do so
    character by character, and what corresponds in the matcher. *)
Definition same_letter (a b : ascii) : Prop := Char.lower a = Char.lower b.

Definition same_text (s t : list ascii) : Prop := Forall2 same_letter s t.

Definition same_letters (s t : string) : Prop :=
  same_text (list_ascii_of_string s) (list_ascii_of_string t).

Definition same_cursor (c c' : cursor) : Prop :=
  same_text (before c) (before c') ∧ same_text (after c) (after c').

Definition same_state (st st' : mstate) : Prop :=
  same_cursor (cur st) (cur st') ∧ caps st = caps st'.

Definition same_match (m m' : Match) : Prop :=
  same_text (m_string m) (m_string m') ∧ m_start m = m_start m'
  ∧ m_end m = m_end m' ∧ m_groups m = m_groups m'.

(** ** About blocks and the order of hits *)














(** * Properties of the matcher *)

Module ReFacts.

Lemma moves_refl c : moves c c.
Proof. by exists []. Qed.

Lemma moves_trans c1 c2 c3 : moves c1 c2 → moves c2 c3 → moves c1 c3.
Proof.
  intros (m1 & Ha1 & Hb1) (m2 & Ha2 & Hb2). exists (m1 ++ m2). split.
  - by rewrite Ha1, Ha2, (assoc_L (++)).
  - by rewrite Hb2, Hb1, reverse_app, (assoc_L (++)).
Qed.

Lemma moves_step x bef aft : moves (Cursor bef (x :: aft)) (Cursor (x :: bef) aft).
Proof. by exists [x]. Qed.

Lemma moves_pos c c' : moves c c' → pos c ≤ pos c'.
Proof.
  intros (mid & _ & Hb). unfold pos. rewrite Hb, length_app. lia.
Qed.

Lemma moves_end c c' : moves c c' → pos c' + length (after c') = pos c + length (after c).
Proof.
  intros (mid & Ha & Hb). unfold pos.
  rewrite Hb, Ha, !length_app, length_reverse. lia.
Qed.

Section matcher.
Context (fl : flags).

Lemma run_lookup a aft : ∀ bef k c,
  run fl a bef aft !! k = Some c →
  moves (Cursor bef aft) c ∧ pos c = length bef + k.
Proof.
  induction aft as [|x xs IH]; intros bef k c; simpl.
  - destruct k as [|k]; simpl; [|done].
    intros [= <-]. split; [apply moves_refl | unfold pos; simpl; lia].
  - destruct k as [|k]; simpl.
    + intros [= <-]. split; [apply moves_refl | unfold pos; simpl; lia].
    + destruct (atom_ok fl a x); [|done].
      intros H. apply IH in H as [Hm Hp]. split.
      * eapply moves_trans; [apply moves_step | done].
      * rewrite Hp. simpl. lia.
Qed.

Lemma elem_of_rep a min greedy st st' :
  st' ∈ matches fl (Rep a min greedy) st →
  ∃ k, min ≤ k ∧ caps st' = caps st ∧
       run fl a (before (cur st)) (after (cur st)) !! k = Some (cur st').
Proof.
  simpl. intros H. apply list_elem_of_fmap in H as (c & -> & Hc). simpl.
  assert (c ∈ drop min (run fl a (before (cur st)) (after (cur st)))) as Hd.
  { destruct greedy; [by apply elem_of_reverse|done]. }
  apply list_elem_of_lookup in Hd as [i Hi]. rewrite lookup_drop in Hi.
  exists (min + i). split; [lia|done].
Qed.

Lemma matches_moves r : ∀ st st',
  st' ∈ matches fl r st → moves (cur st) (cur st').
Proof.
  induction r as [|a|a min greedy| | |r1 IH1 r2 IH2|r1 IH1 r2 IH2|n r IH|r IH];
    intros st st' H.
  - apply list_elem_of_singleton in H as ->. apply moves_refl.
  - simpl in H. destruct st as [[bef [|x xs]] g]; simpl in H; [by apply elem_of_nil in H|].
    destruct (atom_ok fl a x); [|by apply elem_of_nil in H].
    apply list_elem_of_singleton in H as ->. apply moves_step.
  - apply elem_of_rep in H as (k & _ & _ & Hk).
    apply run_lookup in Hk as [Hm _]. by destruct st as [[? ?] ?].
  - simpl in H. destruct (at_boundary (cur st)); [|by apply elem_of_nil in H].
    apply list_elem_of_singleton in H as ->. apply moves_refl.
  - simpl in H. destruct (at_end (cur st)); [|by apply elem_of_nil in H].
    apply list_elem_of_singleton in H as ->. apply moves_refl.
  - simpl in H. apply list_elem_of_bind in H as (st1 & H2 & H1).
    eapply moves_trans; eauto.
  - simpl in H. apply elem_of_app in H as [H|H]; eauto.
  - simpl in H. apply list_elem_of_fmap in H as (st1 & -> & H). simpl. eauto.
  - simpl in H. destruct (matches fl r st) as [|st1 l]; [by apply elem_of_nil in H|].
    apply list_elem_of_singleton in H as ->. apply moves_refl.
Qed.

Lemma matches_min_len r : ∀ st st',
  st' ∈ matches fl r st → pos (cur st) + min_len r ≤ pos (cur st').
Proof.
  induction r as [|a|a min greedy| | |r1 IH1 r2 IH2|r1 IH1 r2 IH2|n r IH|r IH];
    intros st st' H;
    try (apply matches_moves, moves_pos in H; simpl; lia).
  - simpl in H. destruct st as [[bef [|x xs]] g]; simpl in H; [by apply elem_of_nil in H|].
    destruct (atom_ok fl a x); [|by apply elem_of_nil in H].
    apply list_elem_of_singleton in H as ->. unfold pos. simpl. lia.
  - apply elem_of_rep in H as (k & Hk & _ & Hl).
    apply run_lookup in Hl as [_ Hp]. unfold pos at 1. simpl. lia.
  - simpl in H. apply list_elem_of_bind in H as (st1 & H2 & H1).
    apply IH1 in H1. apply IH2 in H2. simpl. lia.
  - simpl in H. apply elem_of_app in H as [H|H]; [apply IH1 in H|apply IH2 in H];
      simpl; lia.
  - simpl in H. apply list_elem_of_fmap in H as (st1 & -> & H). simpl.
    by apply IH.
Qed.

Lemma matches_keeps name r : ∀ st st',
  st' ∈ matches fl r st → is_Some (caps st !! name) → is_Some (caps st' !! name).
Proof.
  induction r as [|a|a min greedy| | |r1 IH1 r2 IH2|r1 IH1 r2 IH2|n r IH|r IH];
    intros st st' H Hs.
  - by apply list_elem_of_singleton in H as ->.
  - simpl in H. destruct (after (cur st)) as [|x xs]; [by apply elem_of_nil in H|].
    destruct (atom_ok fl a x); [|by apply elem_of_nil in H].
    by apply list_elem_of_singleton in H as ->.
  - apply elem_of_rep in H as (k & _ & -> & _). done.
  - simpl in H. destruct (at_boundary (cur st)); [|by apply elem_of_nil in H].
    by apply list_elem_of_singleton in H as ->.
  - simpl in H. destruct (at_end (cur st)); [|by apply elem_of_nil in H].
    by apply list_elem_of_singleton in H as ->.
  - simpl in H. apply list_elem_of_bind in H as (st1 & H2 & H1). eauto.
  - simpl in H. apply elem_of_app in H as [H|H]; eauto.
  - simpl in H. apply list_elem_of_fmap in H as (st1 & -> & H). simpl.
    destruct (decide (n = name)) as [->|Hne].
    + rewrite lookup_insert_eq. eauto.
    + rewrite lookup_insert_ne by done. eauto.
  - simpl in H. destruct (matches fl r st) as [|st1 l] eqn:E; [by apply elem_of_nil in H|].
    apply list_elem_of_singleton in H as ->. simpl.
    apply (IH st st1); [rewrite E; left | done].
Qed.

Lemma matches_binds name r : ∀ st st',
  st' ∈ matches fl r st → binds name r = true → is_Some (caps st' !! name).
Proof.
  induction r as [|a|a min greedy| | |r1 IH1 r2 IH2|r1 IH1 r2 IH2|n r IH|r IH];
    intros st st' H Hb; simpl in Hb; try done.
  - simpl in H. apply list_elem_of_bind in H as (st1 & H2 & H1).
    apply orb_true_iff in Hb as [Hb|Hb]; [|eauto].
    eapply matches_keeps; eauto.
  - apply andb_true_iff in Hb as [Hb1 Hb2].
    simpl in H. apply elem_of_app in H as [H|H]; eauto.
  - simpl in H. apply list_elem_of_fmap in H as (st1 & -> & H). simpl.
    apply orb_true_iff in Hb as [Hb|Hb].
    + apply String.eqb_eq in Hb as ->. rewrite lookup_insert_eq. eauto.
    + destruct (decide (n = name)) as [->|Hne].
      * rewrite lookup_insert_eq. eauto.
      * rewrite lookup_insert_ne by done. eauto.
  - simpl in H. destruct (matches fl r st) as [|st1 l] eqn:E; [by apply elem_of_nil in H|].
    apply list_elem_of_singleton in H as ->. simpl.
    apply (IH st st1); [rewrite E; left | done].
Qed.

End matcher.

(** ** [search] and [finditer] *)

Lemma ordered_weaken lo lo' ms : lo' ≤ lo → ordered lo ms → ordered lo' ms.
Proof. destruct ms; simpl; [done|]. intros ? (? & ? & ?). repeat split; [lia|done..]. Qed.

Section iteration.
Context (p : pattern).

Lemma head_bfilter_Some {A} (f : A → bool) l x :
  head (List.filter f l) = Some x → x ∈ l ∧ f x = true.
Proof.
  induction l as [|y l IH]; simpl; [done|].
  destruct (f y) eqn:E; simpl.
  - intros [= <-]. split; [left|done].
  - intros H. apply IH in H as [? ?]. split; [by right|done].
Qed.

Lemma match_at_Some c b st :
  match_at p c b = Some st →
  st ∈ matches (p_flags p) (p_re p) (MState c ∅) ∧
  pos c ≤ pos (cur st) ∧ (b = true → pos (cur st) ≠ pos c).
Proof.
  unfold match_at. intros H. apply head_bfilter_Some in H as [Hin Hf].
  split; [done|]. split.
  - by apply matches_moves, moves_pos in Hin.
  - intros ->. simpl in Hf. by apply negb_true_iff, Nat.eqb_neq in Hf.
Qed.

Lemma match_at_false c :
  match_at p c false = head (matches (p_flags p) (p_re p) (MState c ∅)).
Proof.
  unfold match_at. f_equal.
  induction (matches (p_flags p) (p_re p) (MState c ∅)) as [|x l IH]; [done|].
  cbn [List.filter negb orb]. by f_equal.
Qed.

Lemma matches_here_arises text bef aft m :
  reverse bef ++ aft = text →
  m ∈ matches_here p text (Cursor bef aft) → arises p text m.
Proof.
  intros Ht. unfold matches_here.
  destruct (match_at p (Cursor bef aft) false) as [st|] eqn:E1;
    [|by intros ?%elem_of_nil].
  apply match_at_Some in E1 as (H1 & _ & _).
  assert (arises p text (mk_match text (Cursor bef aft) st)) as A1
    by (by exists bef, aft, st).
  destruct (_ =? _).
  - destruct (match_at p (Cursor bef aft) true) as [st'|] eqn:E2.
    + apply match_at_Some in E2 as (H2 & _ & _).
      intros [->|[->|?%elem_of_nil]%elem_of_cons]%elem_of_cons; [done| |done].
      by exists bef, aft, st'.
    + by intros [->|?%elem_of_nil]%elem_of_cons.
  - by intros [->|?%elem_of_nil]%elem_of_cons.
Qed.

Lemma matches_here_ordered text c rest :
  ordered (S (pos c + to_skip (matches_here p text c))) rest →
  ordered (pos c) (matches_here p text c ++ rest).
Proof.
  unfold matches_here.
  destruct (match_at p c false) as [st|] eqn:E1; simpl.
  - apply match_at_Some in E1 as (_ & Hle & _).
    destruct (pos (cur st) =? pos c) eqn:Eq.
    + apply Nat.eqb_eq in Eq.
      destruct (match_at p c true) as [st'|] eqn:E2; simpl.
      * apply match_at_Some in E2 as (_ & Hle' & Hne). specialize (Hne eq_refl).
        unfold to_skip. simpl. intros Ho.
        repeat split; try lia.
        eapply ordered_weaken; [|exact Ho]. lia.
      * unfold to_skip. simpl. intros Ho.
        repeat split; try lia.
        eapply ordered_weaken; [|exact Ho]. lia.
    + apply Nat.eqb_neq in Eq. unfold to_skip. simpl. intros Ho.
      repeat split; try lia.
      eapply ordered_weaken; [|exact Ho]. lia.
  - apply ordered_weaken. unfold to_skip. simpl. lia.
Qed.

Lemma finditer_from_arises text aft : ∀ skip bef m,
  reverse bef ++ aft = text →
  m ∈ finditer_from p text skip bef aft → arises p text m.
Proof.
  induction aft as [|x xs IH]; intros skip bef m Ht; destruct skip as [|k]; simpl.
  - rewrite app_nil_r. by apply matches_here_arises.
  - by intros ?%elem_of_nil.
  - intros [H|H]%elem_of_app.
    + by eapply matches_here_arises.
    + eapply IH; [|exact H]. by rewrite reverse_cons, <-(assoc_L (++)).
  - apply IH. by rewrite reverse_cons, <-(assoc_L (++)).
Qed.

Lemma finditer_from_ordered text aft : ∀ skip bef,
  ordered (length bef + skip) (finditer_from p text skip bef aft).
Proof.
  induction aft as [|x xs IH]; intros skip bef; destruct skip as [|k]; simpl.
  - rewrite Nat.add_0_r. by apply (matches_here_ordered text (Cursor bef [])).
  - done.
  - rewrite Nat.add_0_r. apply (matches_here_ordered text (Cursor bef (x :: xs))).
    apply (IH _ (x :: bef)).
  - replace (length bef + S k) with (length (x :: bef) + k) by (simpl; lia).
    apply IH.
Qed.

Lemma finditer_arises s m :
  m ∈ finditer p s → arises p (list_ascii_of_string s) m.
Proof. by apply finditer_from_arises. Qed.

Lemma finditer_ordered s : ordered 0 (finditer p s).
Proof. apply (finditer_from_ordered _ _ 0 []). Qed.

Lemma arises_bounds text m :
  arises p text m →
  m_string m = text ∧ m_start m ≤ m_end m ∧ m_end m ≤ length text ∧
  m_start m + min_len (p_re p) ≤ m_end m.
Proof.
  intros (bef & aft & st & Ht & Hin & ->). simpl.
  pose proof (matches_moves _ _ _ _ Hin) as Hm.
  pose proof (matches_min_len _ _ _ _ Hin) as Hl.
  pose proof (moves_pos _ _ Hm) as Hp.
  pose proof (moves_end _ _ Hm) as He. simpl in *.
  repeat split; try done.
  rewrite <-Ht, length_app, length_reverse. unfold pos in *. simpl in *. lia.
Qed.

Lemma arises_group text m name :
  arises p text m → binds name (p_re p) = true → is_Some (group m name).
Proof.
  intros (bef & aft & st & Ht & Hin & ->) Hb.
  eapply matches_binds in Hin as [[i j] Hij]; [|done].
  unfold group. simpl. rewrite Hij. eauto.
Qed.

End iteration.

(** ** Literal words *)

Lemma matches_lits fl w : ∀ bef aft g,
  matches fl (lits w) (MState (Cursor bef aft) g)
  = match eat fl (list_ascii_of_string w) bef aft with
    | Some c => [MState c g]
    | None => []
    end.
Proof.
  induction w as [|x w IH]; intros bef aft g; [done|].
  destruct w as [|x' w'].
  - cbn [matches lits list_ascii_of_string eat cur after before caps].
    destruct aft as [|y ys]; [done|]. by destruct (atom_ok fl (Lit x) y).
  - change (lits (String x (String x' w')))
      with (Seq (One (Lit x)) (lits (String x' w'))).
    cbn [matches list_ascii_of_string eat cur after before caps].
    destruct aft as [|y ys]; [done|].
    destruct (atom_ok fl (Lit x) y); [|done].
    rewrite bind_singleton. apply IH.
Qed.

Lemma eat_Some fl w : ∀ bef aft c,
  eat fl w bef aft = Some c ↔
  ∃ mid, aft = mid ++ after c ∧ before c = reverse mid ++ bef ∧
         Forall2 (fun x y => atom_ok fl (Lit x) y = true) w mid.
Proof.
  induction w as [|x w IH]; intros bef aft c; simpl.
  - split.
    + intros [= <-]. by exists [].
    + intros (mid & Ha & Hb & ->%Forall2_nil_inv_l). simpl in *.
      destruct c. simpl in *. by subst.
  - destruct aft as [|y ys].
    + split; [done|]. intros (mid & Ha & _ & H2).
      apply Forall2_cons_inv_l in H2 as (? & ? & _ & _ & ->). done.
    + destruct (atom_ok fl (Lit x) y) eqn:E.
      * rewrite IH. split.
        -- intros (mid & Ha & Hb & H2). exists (y :: mid).
           rewrite reverse_cons, <-(assoc_L (++)). simpl. subst. eauto.
        -- intros (mid & Ha & Hb & H2).
           apply Forall2_cons_inv_l in H2 as (y' & mid' & Hy & H2 & ->).
           simpl in Ha. injection Ha as -> ->. exists mid'.
           rewrite reverse_cons, <-(assoc_L (++)) in Hb. eauto.
      * split; [done|]. intros (mid & Ha & _ & H2).
        apply Forall2_cons_inv_l in H2 as (y' & mid' & Hy & H2 & ->).
        simpl in Ha. injection Ha as -> ->. congruence.
Qed.

(** ** Facts about single characters, checked on all of them *)

Lemma all_ascii_complete c : c ∈ all_ascii.
Proof.
  unfold all_ascii. rewrite <-(ascii_nat_embedding c).
  apply list_elem_of_fmap_2, elem_of_seq.
  pose proof (nat_ascii_bounded c). lia.
Qed.

Lemma ascii_forall (P : ascii → bool) :
  forallb P all_ascii = true → ∀ c, P c = true.
Proof.
  intros H c. rewrite forallb_forall in H. apply H, list_elem_of_In, all_ascii_complete.
Qed.

Lemma ascii_forall2 (P : ascii → ascii → bool) :
  forallb (fun x => forallb (P x) all_ascii) all_ascii = true →
  ∀ x y, P x y = true.
Proof.
  intros H x y. apply ascii_forall. by apply (ascii_forall _ H x).
Qed.

(** Under IGNORECASE a literal that is not a lower-case letter matches the
    characters whose upper-case form it is. *)
Lemma lit_icase fl x y :
  IGNORECASE fl = true → Char.is_lower x = false →
  atom_ok fl (Lit x) y = true ↔ Char.upper y = x.
Proof.
  intros Hfl Hx. unfold atom_ok. rewrite Hfl.
  pose proof (ascii_forall2
    (fun x y => Char.is_lower x
                || Bool.eqb (Char.eqb (Char.lower x) (Char.lower y))
                            (Ascii.eqb (Char.upper y) x))) as H.
  specialize (H ltac:(vm_compute; reflexivity) x y). cbv beta in H.
  rewrite Hx in H. simpl in H. apply Bool.eqb_prop in H. rewrite H.
  apply Ascii.eqb_eq.
Qed.

Lemma is_word_upper c : Char.is_word (Char.upper c) = Char.is_word c.
Proof.
  pose proof (ascii_forall
    (fun c => Bool.eqb (Char.is_word (Char.upper c)) (Char.is_word c))) as H.
  apply Bool.eqb_prop, H. vm_compute. reflexivity.
Qed.

Lemma is_space_not_word c : Char.is_space c = true → Char.is_word c = false.
Proof.
  pose proof (ascii_forall
    (fun c => negb (Char.is_space c) || negb (Char.is_word c))) as H.
  specialize (H ltac:(vm_compute; reflexivity) c). cbv beta in H.
  intros Hs. rewrite Hs in H. simpl in H. by apply negb_true_iff in H.
Qed.

Lemma literal_word fl w mid :
  IGNORECASE fl = true → Forall (fun x => Char.is_lower x = false) w →
  Forall2 (fun x y => atom_ok fl (Lit x) y = true) w mid ↔ Char.upper <$> mid = w.
Proof.
  intros Hfl Hw. revert mid. induction Hw as [|x w Hx Hw IH]; intros mid.
  - split.
    + by intros ->%Forall2_nil_inv_l.
    + intros ->%fmap_nil_inv. constructor.
  - split.
    + intros (y & mid' & Hy & H2 & ->)%Forall2_cons_inv_l.
      apply lit_icase in Hy; [|done..]. apply IH in H2. simpl. by f_equal.
    + destruct mid as [|y mid']; [done|]. simpl. intros [= Hy Hm].
      constructor; [by apply lit_icase|by apply IH].
Qed.

(** ** [search] *)

Lemma search_from_is_Some p text aft : ∀ bef,
  is_Some (search_from p text bef aft) ↔
  ∃ a1 a2, aft = a1 ++ a2 ∧
    matches (p_flags p) (p_re p) (MState (Cursor (reverse a1 ++ bef) a2) ∅) ≠ [].
Proof.
  induction aft as [|x xs IH]; intros bef; simpl; rewrite match_at_false.
  - destruct (matches _ _ (MState (Cursor bef []) ∅)) as [|st l] eqn:E; simpl.
    + split; [by intros [? ?]|].
      intros (a1 & a2 & Ha & Hne). symmetry in Ha.
      apply app_eq_nil in Ha as [-> ->]. simpl in Hne. congruence.
    + split; [|eauto]. intros _. exists [], []. simpl. by rewrite E.
  - destruct (matches _ _ (MState (Cursor bef (x :: xs)) ∅)) as [|st l] eqn:E; simpl.
    + rewrite IH. split.
      * intros (a1 & a2 & -> & Hne). exists (x :: a1), a2.
        by rewrite reverse_cons, <-(assoc_L (++)).
      * intros (a1 & a2 & Ha & Hne). destruct a1 as [|y a1].
        -- simpl in *. subst a2. congruence.
        -- simpl in Ha. injection Ha as <- ->. exists a1, a2.
           by rewrite reverse_cons, <-(assoc_L (++)) in Hne.
    + split; [|eauto]. intros _. exists [], (x :: xs). simpl. by rewrite E.
Qed.

(** ** Inversion of the pattern constructors *)

Lemma elem_of_seq fl r1 r2 st st' :
  st' ∈ matches fl (Seq r1 r2) st ↔
  ∃ st1, st1 ∈ matches fl r1 st ∧ st' ∈ matches fl r2 st1.
Proof.
  cbn [matches]. rewrite list_elem_of_bind.
  split; intros (st1 & ? & ?); eauto.
Qed.

Lemma elem_of_bnd fl st st' :
  st' ∈ matches fl Bnd st ↔ st' = st ∧ at_boundary (cur st) = true.
Proof.
  cbn [matches]. destruct (at_boundary (cur st)).
  - rewrite list_elem_of_singleton. split; [done|by intros [? _]].
  - split; [by intros ?%elem_of_nil|by intros [_ ?]].
Qed.

Lemma elem_of_grp fl n r st st' :
  st' ∈ matches fl (Grp n r) st ↔
  ∃ s, s ∈ matches fl r st
       ∧ st' = MState (cur s) (<[n := (pos (cur st), pos (cur s))]> (caps s)).
Proof.
  cbn [matches]. rewrite list_elem_of_fmap.
  split; intros (s & ? & ?); eauto.
Qed.

Lemma moves_by_trans m1 m2 c1 c2 c3 :
  moves_by m1 c1 c2 → moves_by m2 c2 c3 → moves_by (m1 ++ m2) c1 c3.
Proof.
  intros [Ha1 Hb1] [Ha2 Hb2]. split.
  - by rewrite Ha1, Ha2, (assoc_L (++)).
  - by rewrite Hb2, Hb1, reverse_app, (assoc_L (++)).
Qed.

Lemma moves_by_length mid c c' : moves_by mid c c' → pos c' = pos c + length mid.
Proof.
  intros [_ Hb]. unfold pos. rewrite Hb, length_app, length_reverse. lia.
Qed.

Lemma run_lookup_by fl a aft : ∀ bef k c,
  run fl a bef aft !! k = Some c →
  ∃ mid, moves_by mid (Cursor bef aft) c ∧ length mid = k
         ∧ Forall (fun x => atom_ok fl a x = true) mid.
Proof.
  induction aft as [|x xs IH]; intros bef k c; simpl.
  - destruct k as [|k]; simpl; [|done]. intros [= <-]. by exists [].
  - destruct k as [|k]; simpl.
    + intros [= <-]. by exists [].
    + destruct (atom_ok fl a x) eqn:E; [|done].
      intros (mid & [Ha Hb] & Hl & Hf)%IH. exists (x :: mid).
      split; [|split; [simpl; by rewrite Hl|by constructor]].
      split; simpl in *; [by rewrite Ha|].
      by rewrite Hb, reverse_cons, <-(assoc_L (++)).
Qed.

Lemma elem_of_rep_by fl a min greedy st st' :
  st' ∈ matches fl (Rep a min greedy) st →
  ∃ mid, moves_by mid (cur st) (cur st') ∧ min ≤ length mid
         ∧ Forall (fun x => atom_ok fl a x = true) mid.
Proof.
  intros (k & Hk & _ & Hl)%elem_of_rep.
  apply run_lookup_by in Hl as (mid & Hm & Hlen & Hf).
  exists mid. destruct st as [[? ?] ?]. split; [done|]. split; [lia|done].
Qed.

Lemma elem_of_lits fl w st st' :
  IGNORECASE fl = true →
  Forall (fun x => Char.is_lower x = false) (list_ascii_of_string w) →
  st' ∈ matches fl (lits w) st →
  ∃ mid, moves_by mid (cur st) (cur st')
         ∧ Char.upper <$> mid = list_ascii_of_string w.
Proof.
  intros Hfl Hw. destruct st as [[bef aft] g]. rewrite matches_lits.
  destruct (eat _ _ _ _) as [c|] eqn:E; [|by intros ?%elem_of_nil].
  intros ->%list_elem_of_singleton.
  apply eat_Some in E as (mid & Ha & Hb & H2). exists mid.
  split; [done|]. by apply literal_word in H2.
Qed.

(** ** Slices *)

Lemma slice_moves_by text bef aft mid c' :
  reverse bef ++ aft = text → moves_by mid (Cursor bef aft) c' →
  slice text (length bef) (pos c') = mid.
Proof.
  intros <- Hm. rewrite (moves_by_length _ _ _ Hm).
  destruct Hm as [Ha _]. simpl in Ha. unfold slice, pos. simpl.
  replace (length bef + length mid - length bef) with (length mid) by lia.
  rewrite drop_app_length' by (by rewrite length_reverse).
  by rewrite Ha, take_app_length.
Qed.

Lemma slice_lookup (text : list ascii) s e k :
  k < e - s → slice text s e !! k = text !! (s + k).
Proof. intros Hk. unfold slice. by rewrite lookup_take_lt, lookup_drop by done. Qed.

Lemma slice_middle (a b c : list ascii) i j :
  i = length a → j = i + length b → slice (a ++ b ++ c) i j = b.
Proof.
  intros -> ->. unfold slice.
  replace (length a + length b - length a) with (length b) by lia.
  by rewrite drop_app_length, take_app_length.
Qed.

Lemma slice_decompose (text : list ascii) i j :
  text = take i text ++ slice text i j ++ drop (j - i) (drop i text).
Proof. unfold slice. by rewrite take_drop, take_drop. Qed.

Lemma length_chars s : length (list_ascii_of_string s) = String.length s.
Proof. induction s as [|c s IH]; simpl; [done|]. by rewrite IH. Qed.

Lemma chars_app a b :
  list_ascii_of_string (a +:+ b) = list_ascii_of_string a ++ list_ascii_of_string b.
Proof. induction a as [|c a IH]; simpl; [done|]. by rewrite IH. Qed.

(** ** [finditer] reaches every position that no earlier match crosses *)

Lemma matches_here_start p text c m :
  m ∈ matches_here p text c → m_start m = pos c.
Proof.
  unfold matches_here. destruct (match_at p c false) as [st|]; [|by intros ?%elem_of_nil].
  destruct (_ =? _).
  - destruct (match_at p c true) as [st'|].
    + by intros [->|[->|?%elem_of_nil]%elem_of_cons]%elem_of_cons.
    + by intros [->|?%elem_of_nil]%elem_of_cons.
  - by intros [->|?%elem_of_nil]%elem_of_cons.
Qed.

Lemma matches_here_head p text c st :
  match_at p c false = Some st →
  head (matches_here p text c) = Some (mk_match text c st).
Proof. intros H. unfold matches_here. rewrite H. by destruct (_ =? _). Qed.

Lemma finditer_from_complete p text a1 : ∀ bef skip a2 m,
  (∀ m', arises p text m' →
         m_start m' < length bef + length a1 →
         m_end m' ≤ length bef + length a1) →
  reverse bef ++ a1 ++ a2 = text →
  skip ≤ length a1 →
  head (matches_here p text (Cursor (reverse a1 ++ bef) a2)) = Some m →
  m ∈ finditer_from p text skip bef (a1 ++ a2).
Proof.
  induction a1 as [|x a1 IH]; intros bef skip a2 m Hfree Ht Hskip Hm.
  - simpl in *. assert (skip = 0) as -> by lia.
    apply head_Some_elem_of in Hm.
    destruct a2; simpl; apply elem_of_app; by left.
  - assert (reverse (x :: bef) ++ a1 ++ a2 = text) as Ht'.
    { by rewrite reverse_cons, <-(assoc_L (++)). }
    assert (reverse a1 ++ x :: bef = reverse (x :: a1) ++ bef) as Hc.
    { by rewrite reverse_cons, <-(assoc_L (++)). }
    assert (∀ m', arises p text m' →
              m_start m' < length (x :: bef) + length a1 →
              m_end m' ≤ length (x :: bef) + length a1) as Hfree'.
    { intros m' ? ?. simpl in *. rewrite Nat.add_succ_r in Hfree.
      by apply Hfree. }
    destruct skip as [|k]; simpl.
    + apply elem_of_app. right. apply IH; [done..| |by rewrite Hc].
      unfold to_skip.
      destruct (last (matches_here p text (Cursor bef (x :: a1 ++ a2))))
        as [m'|] eqn:El; [|lia].
      apply last_Some_elem_of in El.
      pose proof (matches_here_start _ _ _ _ El) as Hs.
      eapply matches_here_arises in El; [|by rewrite <-Ht].
      apply Hfree in El; unfold pos in Hs; simpl in *; lia.
    + apply IH; [done..| |by rewrite Hc]. simpl in Hskip. lia.
Qed.

Lemma finditer_complete p pre suf m :
  (∀ m', arises p (pre ++ suf) m' →
         m_start m' < length pre → m_end m' ≤ length pre) →
  head (matches_here p (pre ++ suf) (Cursor (reverse pre) suf)) = Some m →
  m ∈ finditer p (string_of_list_ascii (pre ++ suf)).
Proof.
  intros Hfree Hm. unfold finditer. rewrite list_ascii_of_string_of_list_ascii.
  apply finditer_from_complete; [done..|simpl; lia|by rewrite app_nil_r].
Qed.

(** ** Whole words *)

Lemma matches_word fl w bef aft g :
  matches fl (Seq Bnd (Seq (lits w) Bnd)) (MState (Cursor bef aft) g)
  = if at_boundary (Cursor bef aft) then
      match eat fl (list_ascii_of_string w) bef aft with
      | Some c => if at_boundary c then [MState c g] else []
      | None => []
      end
    else [].
Proof.
  cbn [matches cur]. destruct (at_boundary (Cursor bef aft)); [|done].
  rewrite bind_singleton. cbn [mbind]. rewrite matches_lits.
  destruct (eat fl (list_ascii_of_string w) bef aft) as [c|]; [|done].
  rewrite bind_singleton. cbn [matches cur]. by destruct (at_boundary c).
Qed.

Lemma head_fmap {A B} (f : A → B) (l : list A) : head (f <$> l) = f <$> head l.
Proof. by destruct l. Qed.

Lemma head_app_l {A} (l1 l2 : list A) : l1 ≠ [] → head (l1 ++ l2) = head l1.
Proof. by destruct l1. Qed.

Lemma word_at_upper (o : option ascii) : word_at (Char.upper <$> o) = word_at o.
Proof. destruct o; simpl; [apply is_word_upper|done]. Qed.

Section word_pattern.
Context (w : string).
Hypothesis w_not_lower :
  Forall (fun x => Char.is_lower x = false) (list_ascii_of_string w).
Hypothesis w_head : word_at (head (list_ascii_of_string w)) = true.
Hypothesis w_last : word_at (last (list_ascii_of_string w)) = true.

Lemma word_edges mid :
  Char.upper <$> mid = list_ascii_of_string w →
  word_at (head mid) = true ∧ word_at (last mid) = true.
Proof.
  intros H. rewrite <-H in w_head, w_last.
  rewrite head_fmap, word_at_upper in w_head.
  rewrite fmap_last, word_at_upper in w_last. done.
Qed.

Lemma word_matches_nonempty bef aft g :
  matches ICASE (Seq Bnd (Seq (lits w) Bnd)) (MState (Cursor bef aft) g) ≠ [] ↔
  ∃ mid post, aft = mid ++ post ∧
    Char.upper <$> mid = list_ascii_of_string w ∧
    word_at (head bef) = false ∧ word_at (head post) = false.
Proof.
  rewrite matches_word. unfold at_boundary at 1. cbn [before after]. split.
  - destruct (xorb _ _) eqn:B1; [|done].
    destruct (eat _ _ _ _) as [c|] eqn:E; [|done].
    destruct (at_boundary c) eqn:B2; [|done]. intros _.
    apply eat_Some in E as (mid & -> & Hb & H2).
    apply literal_word in H2; [|done..].
    destruct (word_edges mid H2) as [Hh Hl].
    exists mid, (after c). split; [done|]. split; [done|].
    unfold at_boundary in B2. rewrite Hb in B2.
    destruct mid as [|y mid]; [done|].
    rewrite head_app_l in B1 by done. cbn [head] in B1, Hh. rewrite Hh in B1.
    assert (head (reverse (y :: mid) ++ bef) = last (y :: mid)) as Hhl.
    { rewrite <-head_reverse. apply head_app_l.
      intros Hr. apply (f_equal length) in Hr. rewrite length_reverse in Hr. done. }
    rewrite Hhl, Hl in B2.
    split; [by destruct (word_at (head bef))|by destruct (word_at (head (after c)))].
  - intros (mid & post & -> & Hm & Hb & Hp).
    destruct (word_edges mid Hm) as [Hh Hl].
    destruct mid as [|y mid]; [done|].
    rewrite head_app_l by done. rewrite Hb, Hh. cbn [xorb].
    destruct (eat ICASE (list_ascii_of_string w) bef ((y :: mid) ++ post))
      as [c|] eqn:E.
    + apply eat_Some in E as (mid' & Ha & Hb' & H2).
      apply literal_word in H2; [|done..].
      assert (mid' = y :: mid) as ->.
      { assert (length mid' = length (y :: mid)) as Hlen.
        { by rewrite <-(length_fmap Char.upper mid'), H2, <-Hm, length_fmap. }
        by apply app_inj_1 in Ha as [? ?]. }
      apply app_inv_head in Ha.
      unfold at_boundary. rewrite Hb', <-Ha.
      assert (head (reverse (y :: mid) ++ bef) = last (y :: mid)) as ->.
      { rewrite <-head_reverse. apply head_app_l.
        intros Hr. apply (f_equal length) in Hr. rewrite length_reverse in Hr. done. }
      by rewrite Hl, Hp.
    + exfalso. assert (is_Some (eat ICASE (list_ascii_of_string w) bef ((y :: mid) ++ post))) as [? ?]; [|congruence].
      exists (Cursor (reverse (y :: mid) ++ bef) post). apply eat_Some.
      exists (y :: mid). split; [done|]. split; [done|]. by apply literal_word.
Qed.

Lemma word_search s :
  is_Some (search {| p_flags := ICASE; p_re := Seq Bnd (Seq (lits w) Bnd) |} s)
  ↔ token_occurs w s.
Proof.
  unfold search. rewrite search_from_is_Some. cbn [p_flags p_re]. split.
  - intros (a1 & a2 & Ht & (mid & post & -> & Hm & Hb & Hp)%word_matches_nonempty).
    exists a1, mid, post. rewrite app_nil_r, head_reverse in Hb. done.
  - intros (pre & mid & post & Ht & Hm & Hb & Hp).
    exists pre, (mid ++ post). split; [done|]. apply word_matches_nonempty.
    exists mid, post. by rewrite app_nil_r, head_reverse.
Qed.

End word_pattern.

End ReFacts.

(** * Properties of the scanners *)

Import ReFacts.

(** ** The catalog *)

Lemma SQL_TABLES_lookup t r :
  SQL_TABLES !! t = Some r ↔
  (t = "VBUK" ∧ r = "VBAK") ∨ (t = "VBUP" ∧ r = "VBAP").
Proof.
  unfold SQL_TABLES. rewrite lookup_insert_Some, lookup_singleton_Some.
  split.
  - intros [[<- <-]|[? [<- <-]]]; auto.
  - intros [[-> ->]|[-> ->]]; [by left|by right].
Qed.

Lemma DECL_FIELDS_lookup f r :
  DECL_FIELDS !! f = Some r ↔ f = "VBTYP" ∧ r = "VBTYPL".
Proof.
  unfold DECL_FIELDS. rewrite lookup_singleton_Some.
  split; intros [? ?]; by split.
Qed.

Lemma DECL_FIELDS_OBS_elem f : f ∈ DECL_FIELDS_OBS ↔ f = "VBTYP_EXT".
Proof. unfold DECL_FIELDS_OBS. by rewrite elem_of_singleton. Qed.

(** ** Loops that only append *)

Lemma for_each_append {A B} (f : list B → A → result (list B))
    (g : A → list B) (l : list A) :
  (∀ a, a ∈ l → ∀ b, f b a = Ok (b ++ g a)) →
  ∀ b, for_each f l b = Ok (b ++ l ≫= g).
Proof.
  induction l as [|a l IH]; intros Hf b; simpl.
  - by rewrite app_nil_r.
  - rewrite (Hf a) by left. simpl.
    rewrite IH by (intros; apply Hf; by right).
    by rewrite (assoc_L (++)).
Qed.

(** ** What each loop body appends *)

Lemma table_step results g sp :
  (if in_dict (upper g) SQL_TABLES then
     repl ← getitem SQL_TABLES (upper g);
     cmt ← comment_table (upper g);
     Ok (results ++ [{| hit_target_type := TABLE;
                        hit_target_name := upper g;
                        hit_field := None;
                        hit_span := sp;
                        hit_used_fields := [upper g];
                        hit_suggested_fields := Some [repl];
                        hit_suggested_statement := cmt |}])
   else Ok results) = Ok (results ++ table_hits g sp).
Proof.
  unfold table_hits, in_dict.
  destruct (SQL_TABLES !! upper g) as [r|] eqn:E.
  - rewrite bool_decide_eq_true_2 by eauto.
    apply SQL_TABLES_lookup in E as [[-> ->]|[-> ->]]; reflexivity.
  - rewrite bool_decide_eq_false_2 by (by intros [? ?]).
    by rewrite app_nil_r.
Qed.

Lemma scan_join_eq results jm :
  is_Some (group jm "table") →
  scan_join results jm = Ok (results ++ join_hits jm).
Proof.
  intros [g Hg]. unfold scan_join, join_hits, group_str. rewrite Hg.
  apply table_step.
Qed.

Lemma join_loop_eq results rest_text :
  for_each scan_join (finditer JOIN_RE rest_text) results
  = Ok (results ++ finditer JOIN_RE rest_text ≫= join_hits).
Proof.
  apply for_each_append. intros jm Hjm b. apply scan_join_eq.
  eapply arises_group; [by apply finditer_arises|reflexivity].
Qed.

Lemma scan_block_eq results text stmt :
  arises SQL_SELECT_BLOCK_RE text stmt →
  scan_block results stmt = Ok (results ++ block_hits stmt).
Proof.
  intros Ha.
  destruct (arises_group _ _ _ "table" Ha eq_refl) as [g Hg].
  destruct (arises_group _ _ _ "rest" Ha eq_refl) as [rt Hrt].
  unfold scan_block, block_hits, group_str. rewrite Hg, Hrt.
  cbn [mbind result_bind].
  rewrite table_step. cbn [mbind result_bind].
  rewrite join_loop_eq. cbn [mbind result_bind].
  unfold field_hits. destruct (bool_decide _).
  - by rewrite <-!(assoc_L (++)).
  - by rewrite app_nil_r, <-!(assoc_L (++)).
Qed.

Lemma scan_sql_eq code :
  scan_sql code = Ok (finditer SQL_SELECT_BLOCK_RE code ≫= block_hits).
Proof.
  unfold scan_sql.
  rewrite (for_each_append scan_block block_hits); [done|].
  intros stmt Hs b. eapply scan_block_eq. by apply finditer_arises.
Qed.

Lemma scan_decl_eq results text m :
  arises DECLARATION_RE text m →
  scan_decl results m = Ok (results ++ decl_hits m).
Proof.
  intros Ha.
  destruct (arises_group _ _ _ "field" Ha eq_refl) as [g Hg].
  unfold scan_decl, decl_hits, group_str. rewrite Hg.
  cbn [mbind result_bind].
  destruct (decide (upper g = "VBTYP")) as [->|N1]; [reflexivity|].
  destruct (decide (upper g = "VBTYP_EXT")) as [->|N2]; [reflexivity|].
  unfold in_dict, in_set.
  rewrite bool_decide_eq_false_2.
  2:{ intros [r Hr]. apply DECL_FIELDS_lookup in Hr as [? _]. done. }
  rewrite bool_decide_eq_false_2 by (by rewrite DECL_FIELDS_OBS_elem).
  simpl. by rewrite app_nil_r.
Qed.

Lemma scan_declarations_eq code :
  scan_declarations code = Ok (finditer DECLARATION_RE code ≫= decl_hits).
Proof.
  unfold scan_declarations.
  rewrite (for_each_append scan_decl decl_hits); [done|].
  intros m Hm b. eapply scan_decl_eq. by apply finditer_arises.
Qed.

(** ** Deduplication *)

Lemma foldl_collect hits : ∀ findings seen,
  fst (foldl collect (findings, seen) hits)
  = findings ++ (to_finding <$> keep seen hits).
Proof.
  induction hits as [|h t IH]; intros findings seen; simpl.
  - by rewrite app_nil_r.
  - destruct (bool_decide (key_of h ∈ seen)); [apply IH|].
    rewrite IH. by rewrite <-(assoc_L (++)).
Qed.

Lemma keep_survives all : ∀ hits pre seen,
  all = pre ++ hits →
  (∀ k, k ∈ seen ↔ k ∈ key_of <$> pre) →
  keep seen hits = omap id (imap (fun i => survives all (length pre + i)) hits).
Proof.
  induction hits as [|h t IH]; intros pre seen Hall Hseen; [done|].
  rewrite imap_cons. cbn [keep omap]. unfold survives at 1.
  rewrite Nat.add_0_r, Hall, take_app_length.
  assert (imap ((fun i => survives all (length pre + i)) ∘ S) t
          = imap (fun i => survives all (length (pre ++ [h]) + i)) t) as Himap.
  { apply imap_ext. intros i x _. simpl. f_equal.
    rewrite length_app. simpl. lia. }
  rewrite <-Hall, Himap.
  destruct (decide (key_of h ∈ seen)) as [Hin|Hout].
  - rewrite (bool_decide_eq_true_2 (key_of h ∈ seen)) by done.
    rewrite (bool_decide_eq_true_2 (key_of h ∈ key_of <$> pre)) by (by apply Hseen).
    simpl.
    apply IH; [by rewrite <-(assoc_L (++))|].
    intros k. rewrite fmap_app, elem_of_app, <-Hseen. simpl.
    rewrite list_elem_of_singleton. split; [auto|intros [?| ->]; auto].
  - rewrite (bool_decide_eq_false_2 (key_of h ∈ seen)) by done.
    rewrite (bool_decide_eq_false_2 (key_of h ∈ key_of <$> pre)) by (by rewrite <-Hseen).
    simpl. f_equal.
    apply IH; [by rewrite <-(assoc_L (++))|].
    intros k. rewrite fmap_app, elem_of_app, <-Hseen. simpl.
    by rewrite list_elem_of_singleton, elem_of_union, elem_of_singleton.
Qed.

Lemma keep_first_occurrences hits : keep ∅ hits = first_occurrences hits.
Proof.
  unfold first_occurrences. rewrite (keep_survives hits hits [] ∅); [done..|].
  intros k. simpl. split; [by intros ?%not_elem_of_empty|by intros ?%elem_of_nil].
Qed.

Lemma keep_subseteq hits : ∀ seen, keep seen hits ⊆ hits.
Proof.
  induction hits as [|h t IH]; intros seen; simpl; [done|].
  destruct (bool_decide _).
  - intros x Hx. right. by apply (IH seen).
  - intros x [->|Hx]%elem_of_cons; [left|right]. by eapply IH.
Qed.

(** ** The endpoint in closed form *)

Lemma unit_findings_eq src : unit_findings src = Ok (findings_of src).
Proof.
  unfold unit_findings, findings_of.
  rewrite scan_sql_eq, scan_declarations_eq. cbn [mbind result_bind].
  by rewrite foldl_collect, keep_first_occurrences.
Qed.

Lemma assess_loop_eq units : ∀ results,
  for_each assess_unit units results = Ok (results ++ (record_of <$> units)).
Proof.
  induction units as [|u units IH]; intros results; cbn [for_each fmap list_fmap].
  - by rewrite app_nil_r.
  - unfold assess_unit. rewrite unit_findings_eq. cbn [mbind result_bind].
    rewrite IH. by rewrite <-(assoc_L (++)).
Qed.

Lemma assess_eq units : assess units = Ok (record_of <$> units).
Proof. apply assess_loop_eq. Qed.

(** ** The shape of the hits *)

Lemma table_hits_elem g sp h :
  h ∈ table_hits g sp →
  ∃ t r, SQL_TABLES !! t = Some r ∧ h = table_hit t r sp.
Proof.
  unfold table_hits. destruct (SQL_TABLES !! upper g) as [r|] eqn:E.
  - intros ->%list_elem_of_singleton. eauto.
  - by intros ?%elem_of_nil.
Qed.

Lemma join_hits_elem jm h :
  h ∈ join_hits jm →
  ∃ t r, SQL_TABLES !! t = Some r ∧ h = table_hit t r (span jm).
Proof.
  unfold join_hits. destruct (group jm "table"); [apply table_hits_elem|].
  by intros ?%elem_of_nil.
Qed.

Lemma block_hits_elem stmt h :
  h ∈ block_hits stmt →
  (∃ t r sp, SQL_TABLES !! t = Some r ∧ h = table_hit t r sp)
  ∨ h = sql_field_hit (span stmt).
Proof.
  unfold block_hits.
  destruct (group stmt "table") as [g|]; [|by intros ?%elem_of_nil].
  destruct (group stmt "rest") as [rt|]; [|by intros ?%elem_of_nil].
  intros [H|[H|H]%elem_of_app]%elem_of_app.
  - apply table_hits_elem in H as (t & r & ? & ?). left. eauto.
  - apply list_elem_of_bind in H as (jm & H & _).
    apply join_hits_elem in H as (t & r & ? & ?). left. eauto.
  - unfold field_hits in H. destruct (bool_decide _).
    + apply list_elem_of_singleton in H. by right.
    + by apply elem_of_nil in H.
Qed.

Lemma decl_hits_elem m h :
  h ∈ decl_hits m →
  h = decl_hit "VBTYP" (Some ["VBTYPL"])
        "* TODO: Data element VBTYP was lengthened (Note 2198647). Use VBTYPL."
        (span m)
  ∨ h = decl_hit "VBTYP_EXT" None
          "* TODO: Field VBTYP_EXT obsolete (Note 2198647). Remove usage."
          (span m).
Proof.
  unfold decl_hits. destruct (group m "field") as [g|]; [|by intros ?%elem_of_nil].
  destruct (decide _); [intros ->%list_elem_of_singleton; by left|].
  destruct (decide _); [intros ->%list_elem_of_singleton; by right|].
  by intros ?%elem_of_nil.
Qed.

Lemma table_hit_ok t r sp :
  SQL_TABLES !! t = Some r → finding_ok (to_finding (table_hit t r sp)).
Proof.
  intros [[-> ->]|[-> ->]]%SQL_TABLES_lookup; repeat split; eauto.
Qed.

Lemma sql_hit_ok src h : h ∈ sql_hits_of src → finding_ok (to_finding h).
Proof.
  intros (stmt & H & _)%list_elem_of_bind.
  apply block_hits_elem in H as [(t & r & sp & Hl & ->)| ->].
  - by apply table_hit_ok.
  - by repeat split.
Qed.

Lemma decl_hit_ok src h : h ∈ decl_hits_of src → finding_ok (to_finding h).
Proof.
  intros (m & H & _)%list_elem_of_bind.
  apply decl_hits_elem in H as [-> | ->]; by repeat split.
Qed.

Lemma findings_of_ok src : Forall finding_ok (findings_of src).
Proof.
  unfold findings_of. rewrite <-keep_first_occurrences.
  apply Forall_fmap, Forall_forall. intros h Hh. simpl.
  apply keep_subseteq in Hh. apply elem_of_app in Hh as [Hh|Hh].
  - by eapply sql_hit_ok.
  - by eapply decl_hit_ok.
Qed.

(** ** Whole-word tokens *)

Lemma search_VBTYP_EXT s :
  is_Some (search VBTYP_EXT_RE s) ↔ token_occurs "VBTYP_EXT" s.
Proof.
  apply word_search; [|done..].
  repeat constructor.
Qed.

(** ** SQL-field hits per block *)

Lemma filter_none {A} (f : A → bool) (l : list A) :
  Forall (fun x => f x = false) l → List.filter f l = [].
Proof. induction 1 as [|x l Hx _ IH]; simpl; [done|]. by rewrite Hx. Qed.

Lemma table_hits_not_field g sp :
  Forall (fun h => is_sql_field h = false) (table_hits g sp).
Proof.
  apply Forall_forall. by intros h (t & r & _ & ->)%table_hits_elem.
Qed.

Lemma block_hits_fields stmt text :
  arises SQL_SELECT_BLOCK_RE text stmt →
  List.filter is_sql_field (block_hits stmt) = field_hits stmt.
Proof.
  intros Ha.
  destruct (arises_group _ _ _ "table" Ha eq_refl) as [g Hg].
  destruct (arises_group _ _ _ "rest" Ha eq_refl) as [rt Hrt].
  unfold block_hits. rewrite Hg, Hrt, !List.filter_app.
  rewrite (filter_none _ (table_hits _ _)) by apply table_hits_not_field.
  rewrite (filter_none _ (_ ≫= _)).
  2:{ apply Forall_forall. intros h (jm & Hh & _)%list_elem_of_bind.
      by apply join_hits_elem in Hh as (t & r & _ & ->). }
  unfold field_hits. by destruct (bool_decide _).
Qed.

Lemma bind_concat {A B} (f : A → list B) (l : list A) :
  l ≫= f = concat (f <$> l).
Proof.
  induction l as [|x l IH]; [done|].
  rewrite bind_cons, fmap_cons. cbn [concat]. by rewrite IH.
Qed.

(** ** The text of a SELECT block *)


Lemma starts_with_ci_app w mid post :
  Char.upper <$> mid = w → starts_with_ci w (mid ++ post) = true.
Proof.
  intros <-. induction mid as [|y mid IH]; [done|].
  rewrite fmap_cons. cbn [app starts_with_ci].
  by rewrite Ascii.eqb_refl, IH.
Qed.

Lemma contains_ci_app w pre s :
  starts_with_ci w s = true → contains_ci w (pre ++ s) = true.
Proof.
  intros H. induction pre as [|x pre IH]; simpl.
  - destruct s; simpl; by rewrite H.
  - rewrite IH. apply orb_true_r.
Qed.


(** ** Spans in text order *)

Lemma ascending_weaken lo lo' sps : lo' ≤ lo → ascending lo sps → ascending lo' sps.
Proof.
  destruct sps as [|[a b] sps]; simpl; [done|].
  intros ? (? & ? & ?). repeat split; [lia|done..].
Qed.

Lemma ordered_Forall p text ms lo :
  ordered lo ms → Forall (arises p text) ms → 0 < min_len (p_re p) →
  ascending lo (span <$> ms).
Proof.
  intros Ho Ha Hmin. revert lo Ho.
  induction Ha as [|m ms Hm _ IH]; intros lo; simpl; [done|].
  intros (? & ? & ?). apply arises_bounds in Hm as (_ & _ & _ & ?).
  repeat split; [done|lia|by apply IH].
Qed.

Lemma finditer_ascending p s :
  0 < min_len (p_re p) → ascending 0 (span <$> finditer p s).
Proof.
  intros Hmin. eapply ordered_Forall; [apply finditer_ordered| |done].
  apply Forall_forall. intros m. apply finditer_arises.
Qed.

Lemma decl_hits_span m :
  decl_hits m = [] ∨ ∃ h, decl_hits m = [h] ∧ hit_span h = span m.
Proof.
  unfold decl_hits. destruct (group m "field"); [|by left].
  repeat (destruct (decide _); [right; eauto|]). by left.
Qed.

Lemma decl_hits_ascending ms : ∀ lo,
  ascending lo (span <$> ms) → ascending lo (hit_span <$> (ms ≫= decl_hits)).
Proof.
  induction ms as [|m ms IH]; intros lo; [done|].
  rewrite fmap_cons, bind_cons, fmap_app. cbn [ascending span].
  intros (? & ? & Hrest).
  destruct (decl_hits_span m) as [-> | (h & -> & Hh)].
  - simpl. apply IH. eapply ascending_weaken; [|done]. lia.
  - simpl. rewrite Hh. simpl. repeat split; [done..|]. by apply IH.
Qed.

(** ** Finding a declaration inside a longer text *)

Lemma range_not_space c :
  atom_ok ICASE (Range [("A", "Z"); ("0", "9"); ("_", "_")]%char) c = true →
  Char.is_space c = false.
Proof.
  pose proof (ascii_forall
    (fun c => negb (atom_ok ICASE (Range [("A", "Z"); ("0", "9"); ("_", "_")]%char) c)
              || negb (Char.is_space c))) as H.
  specialize (H ltac:(vm_compute; reflexivity) c). cbv beta in H.
  intros Hr. rewrite Hr in H. simpl in H. by apply negb_true_iff in H.
Qed.

(** The text of a declaration match: a keyword, spaces, an identifier. *)
Lemma decl_match_parts text m :
  arises DECLARATION_RE text m →
  ∃ kw sp id,
    slice text (m_start m) (m_end m) = kw ++ sp ++ id
    ∧ (Char.upper <$> kw = list_ascii_of_string "TYPE"
       ∨ Char.upper <$> kw = list_ascii_of_string "LIKE")
    ∧ Forall (fun c => Char.is_space c = true) sp
    ∧ Forall (fun c => Char.is_space c = false) id.
Proof.
  intros (bef & aft & st & Ht & Hin & ->).
  cbn [p_flags p_re DECLARATION_RE] in Hin.
  apply elem_of_seq in Hin as (s1 & [-> _]%elem_of_bnd & Hin).
  apply elem_of_seq in Hin as (s2 & Hkw & Hin).
  assert (∃ kw, moves_by kw (Cursor bef aft) (cur s2)
                ∧ (Char.upper <$> kw = list_ascii_of_string "TYPE"
                   ∨ Char.upper <$> kw = list_ascii_of_string "LIKE"))
    as (kw & Mkw & Hk).
  { cbn [matches] in Hkw. fold (matches ICASE (lits "TYPE")) in Hkw.
    apply elem_of_app in Hkw as [Hkw|Hkw];
      apply elem_of_lits in Hkw as (kw & ? & ?); try done;
      try (repeat constructor); exists kw; eauto. }
  apply elem_of_seq in Hin as (s3 & [-> _]%elem_of_bnd & Hin).
  apply elem_of_seq in Hin as (s4 & Hsp & Hin).
  apply elem_of_rep_by in Hsp as (sp & Msp & _ & Hsp).
  apply elem_of_grp in Hin as (s5 & Hid & ->).
  apply elem_of_rep_by in Hid as (id & Mid & _ & Hid).
  exists kw, sp, id. cbn [mk_match m_start m_end cur].
  split.
  { eapply slice_moves_by; [done|].
    eapply moves_by_trans; [done|]. eapply moves_by_trans; done. }
  split; [done|]. split; [done|].
  eapply Forall_impl; [done|]. apply range_not_space.
Qed.

Lemma keyword_chars kw k c :
  Char.upper <$> kw = list_ascii_of_string "TYPE"
  ∨ Char.upper <$> kw = list_ascii_of_string "LIKE" →
  kw !! k = Some c →
  length kw = 4 ∧ Char.is_word c = true ∧ (k = 3 → Char.upper c = "E"%char).
Proof.
  intros Hkw Hk.
  assert ((Char.upper <$> kw) !! k = Some (Char.upper c)) as Hu
    by (by rewrite list_lookup_fmap, Hk).
  rewrite <-is_word_upper.
  destruct Hkw as [Hkw|Hkw]; rewrite Hkw in Hu;
    (split; [by rewrite <-(length_fmap Char.upper), Hkw|]);
    do 4 (destruct k as [|k]; [injection Hu as <-; split; [done|]; by intros [=]|]);
    done.
Qed.

(** No declaration match covers a space that follows a character which is
    neither a space nor an E. *)
Lemma decl_not_across text i cx cs m :
  text !! i = Some cx → text !! S i = Some cs →
  Char.is_space cx = false → Char.upper cx ≠ "E"%char →
  Char.is_space cs = true →
  arises DECLARATION_RE text m →
  ¬ (m_start m ≤ S i ∧ S i < m_end m).
Proof.
  intros Hx Hs Nx Ex Ss Ha [Hlo Hhi].
  destruct (decl_match_parts _ _ Ha) as (kw & sp & id & Hsl & Hkw & Hsp & Hid).
  set (s := m_start m) in *. set (e := m_end m) in *.
  assert (∀ j, s ≤ j → j < e → (kw ++ sp ++ id) !! (j - s) = text !! j) as Hlook.
  { intros j ? ?. rewrite <-Hsl, slice_lookup by lia. f_equal. lia. }
  assert (length kw = 4) as Lkw.
  { destruct Hkw as [Hkw|Hkw]; by rewrite <-(length_fmap Char.upper), Hkw. }
  pose proof (Hlook (S i) Hlo Hhi) as H1. rewrite Hs in H1.
  destruct (decide (S i - s < 4)) as [Hin|Hout].
  { rewrite lookup_app_l in H1 by lia.
    destruct (keyword_chars _ _ _ Hkw H1) as (_ & Hw & _).
    apply is_space_not_word in Ss. congruence. }
  rewrite lookup_app_r in H1 by lia.
  destruct (decide (S i - s - length kw < length sp)) as [Hsp'|Hid'].
  - assert (s ≤ i) as Hi by lia.
    pose proof (Hlook i Hi ltac:(lia)) as H0. rewrite Hx in H0.
    destruct (decide (i - s < 4)) as [Hk|Hk].
    + rewrite lookup_app_l in H0 by lia.
      destruct (keyword_chars _ _ _ Hkw H0) as (_ & _ & HE).
      apply Ex, HE. lia.
    + rewrite lookup_app_r, lookup_app_l in H0 by lia.
      eapply Forall_lookup_1 in H0; [|exact Hsp]. simpl in H0. congruence.
  - rewrite lookup_app_r in H1 by lia.
    eapply Forall_lookup_1 in H1; [|exact Hid]. simpl in H1. congruence.
Qed.

(** A declaration that follows [cx] and a blank is found wherever it stands,
    provided [cx] is neither a space nor an E. *)
Lemma decl_in_context (pre suf : list ascii) (cx : ascii) st :
  Char.is_space cx = false → Char.upper cx ≠ "E"%char →
  match_at DECLARATION_RE (Cursor (" "%char :: cx :: reverse pre) suf) false
  = Some st →
  mk_match (pre ++ [cx; " "%char] ++ suf)
           (Cursor (" "%char :: cx :: reverse pre) suf) st
  ∈ finditer DECLARATION_RE (string_of_list_ascii (pre ++ [cx; " "%char] ++ suf)).
Proof.
  intros Nx Ex Hst.
  assert (reverse (pre ++ [cx; " "%char]) = " "%char :: cx :: reverse pre) as Hrev.
  { by rewrite reverse_app. }
  rewrite (assoc_L (++) pre). apply finditer_complete.
  - intros m' Ha Hlt. rewrite <-(assoc_L (++)) in Ha.
    pose proof (decl_not_across (pre ++ [cx; " "%char] ++ suf)
                  (length pre) cx " "%char m') as Hno.
    rewrite length_app in *. simpl in *.
    destruct (decide (m_end m' ≤ length pre + 2)) as [|Hgt]; [done|].
    exfalso. apply Hno; try done.
    + by rewrite list_lookup_middle.
    + rewrite (lookup_app_r pre) by lia.
      by replace (S (length pre) - length pre) with 1 by lia.
    + lia.
  - rewrite Hrev. by apply matches_here_head.
Qed.

(** ** A hit is never lost, only merged with an equal key *)

Lemma keep_covers hits : ∀ seen h,
  h ∈ hits →
  key_of h ∈ seen ∨ ∃ h', h' ∈ keep seen hits ∧ key_of h' = key_of h.
Proof.
  induction hits as [|x hits IH]; intros seen h; [by intros ?%elem_of_nil|].
  intros [->|Hh]%elem_of_cons; simpl.
  - destruct (decide (key_of x ∈ seen)); [by left|].
    rewrite bool_decide_eq_false_2 by done. right. exists x. split; [left|done].
  - destruct (decide (key_of x ∈ seen)) as [Hx|Hx].
    + rewrite bool_decide_eq_true_2 by done. by apply IH.
    + rewrite bool_decide_eq_false_2 by done.
      destruct (IH (seen ∪ {[key_of x]}) h Hh) as [Hin|(h' & Hh' & Hk)].
      * apply elem_of_union in Hin as [Hin|Heq%elem_of_singleton]; [by left|].
        right. exists x. split; [left|done].
      * right. exists h'. split; [by right|done].
Qed.

Lemma declaration_finding_kept src m h :
  m ∈ finditer DECLARATION_RE src → decl_hits m = [h] →
  to_finding h ∈ findings_of src.
Proof.
  intros Hm Hh.
  assert (h ∈ decl_hits_of src) as Hin.
  { apply list_elem_of_bind. exists m. split; [rewrite Hh; left|done]. }
  destruct (keep_covers (sql_hits_of src ++ decl_hits_of src) ∅ h)
    as [?%not_elem_of_empty|(h' & Hk & Hkey)]; [apply elem_of_app; by right|done|].
  unfold findings_of. rewrite <-keep_first_occurrences.
  apply list_elem_of_fmap. exists h'. split; [|done].
  assert (h' = h) as ->; [|done].
  assert (h ∈ decl_hits m) as Hhm by (rewrite Hh; left).
  apply keep_subseteq in Hk.
  apply elem_of_app in Hk as [Hk|Hk].
  - apply list_elem_of_bind in Hk as (stmt & Hk & _).
    apply decl_hits_elem in Hhm as [-> | ->];
      apply block_hits_elem in Hk as [(t & r & sp & _ & ->)| ->]; done.
  - apply list_elem_of_bind in Hk as (m' & Hk & _).
    apply decl_hits_elem in Hhm as [-> | ->];
      apply decl_hits_elem in Hk as [-> | ->];
      unfold key_of, span in *;
      cbn [decl_hit hit_target_type hit_target_name hit_span] in Hkey;
      congruence.
Qed.

(** ** The two declarations of the example, in any surrounding text *)

Lemma vbtyp_match bef post :
  ∃ st,
    match_at DECLARATION_RE
      (Cursor (" "%char :: bef) (list_ascii_of_string "TYPE VBTYP." ++ post)) false
    = Some st
    ∧ pos (cur st) = 10 + S (length bef)
    ∧ caps st !! "field" = Some (5 + S (length bef), 10 + S (length bef)).
Proof.
  eexists. split; [rewrite match_at_false; vm_compute; reflexivity|].
  split; vm_compute; reflexivity.
Qed.

Lemma vbtyp_ext_match bef post :
  ∃ st,
    match_at DECLARATION_RE
      (Cursor (" "%char :: bef) (list_ascii_of_string "TYPE VBTYP_EXT." ++ post)) false
    = Some st
    ∧ pos (cur st) = 14 + S (length bef)
    ∧ caps st !! "field" = Some (5 + S (length bef), 14 + S (length bef)).
Proof.
  eexists. split; [rewrite match_at_false; vm_compute; reflexivity|].
  split; vm_compute; reflexivity.
Qed.

Lemma vbtyp_in_context (pre post : list ascii) :
  vbtyp_finding (length pre + 7)
  ∈ findings_of (string_of_list_ascii
                   (pre ++ list_ascii_of_string "DATA x TYPE VBTYP." ++ post)).
Proof.
  set (pre' := pre ++ list_ascii_of_string "DATA ").
  set (suf := list_ascii_of_string "TYPE VBTYP." ++ post).
  assert (pre ++ list_ascii_of_string "DATA x TYPE VBTYP." ++ post
          = pre' ++ ["x"; " "]%char ++ suf) as ->.
  { unfold pre', suf. by rewrite <-(assoc_L (++)). }
  destruct (vbtyp_match ("x"%char :: reverse pre') post) as (st & Hst & Hpos & Hcap).
  pose proof (decl_in_context pre' suf "x" st eq_refl ltac:(done) Hst) as Hm.
  set (m := mk_match _ _ st) in Hm.
  assert (length pre' = length pre + 5) as Hlen
    by (unfold pre'; by rewrite length_app).
  assert (group m "field" = Some "VBTYP") as Hg.
  { unfold group, m. cbn [mk_match m_groups m_string]. rewrite Hcap.
    cbn [fmap option_fmap option_map]. f_equal.
    rewrite <-(string_of_list_ascii_of_string "VBTYP"). f_equal.
    change (pre' ++ ["x"; " "]%char ++ suf)
      with (pre' ++ (["x"; " "]%char ++ list_ascii_of_string "TYPE ")
            ++ list_ascii_of_string "VBTYP" ++ list_ascii_of_string "." ++ post).
    rewrite (assoc_L (++) pre'). apply slice_middle.
    - rewrite length_app. simpl. rewrite length_reverse. lia.
    - simpl. lia. }
  eapply declaration_finding_kept in Hm.
  2:{ unfold decl_hits. rewrite Hg.
      destruct (decide (upper "VBTYP" = "VBTYP")) as [_|N]; [done|].
      exfalso. by apply N. }
  assert (span m = (length pre + 7, length pre + 7 + 10)) as Hspan.
  { unfold span, m. cbn [mk_match m_start m_end]. rewrite Hpos.
    unfold pos. simpl. rewrite length_reverse, Hlen. f_equal; lia. }
  rewrite Hspan in Hm. exact Hm.
Qed.

Lemma vbtyp_ext_in_context (pre post : list ascii) :
  vbtyp_ext_finding (length pre + 7)
  ∈ findings_of (string_of_list_ascii
                   (pre ++ list_ascii_of_string "DATA y TYPE VBTYP_EXT." ++ post)).
Proof.
  set (pre' := pre ++ list_ascii_of_string "DATA ").
  set (suf := list_ascii_of_string "TYPE VBTYP_EXT." ++ post).
  assert (pre ++ list_ascii_of_string "DATA y TYPE VBTYP_EXT." ++ post
          = pre' ++ ["y"; " "]%char ++ suf) as ->.
  { unfold pre', suf. by rewrite <-(assoc_L (++)). }
  destruct (vbtyp_ext_match ("y"%char :: reverse pre') post)
    as (st & Hst & Hpos & Hcap).
  pose proof (decl_in_context pre' suf "y" st eq_refl ltac:(done) Hst) as Hm.
  set (m := mk_match _ _ st) in Hm.
  assert (length pre' = length pre + 5) as Hlen
    by (unfold pre'; by rewrite length_app).
  assert (group m "field" = Some "VBTYP_EXT") as Hg.
  { unfold group, m. cbn [mk_match m_groups m_string]. rewrite Hcap.
    cbn [fmap option_fmap option_map]. f_equal.
    rewrite <-(string_of_list_ascii_of_string "VBTYP_EXT"). f_equal.
    change (pre' ++ ["y"; " "]%char ++ suf)
      with (pre' ++ (["y"; " "]%char ++ list_ascii_of_string "TYPE ")
            ++ list_ascii_of_string "VBTYP_EXT" ++ list_ascii_of_string "." ++ post).
    rewrite (assoc_L (++) pre'). apply slice_middle.
    - rewrite length_app. simpl. rewrite length_reverse. lia.
    - simpl. lia. }
  eapply declaration_finding_kept in Hm.
  2:{ unfold decl_hits. rewrite Hg.
      destruct (decide (upper "VBTYP_EXT" = "VBTYP")) as [N|_];
        [vm_compute in N; discriminate|].
      destruct (decide (upper "VBTYP_EXT" = "VBTYP_EXT")) as [_|N]; [done|].
      exfalso. by apply N. }
  assert (span m = (length pre + 7, length pre + 7 + 14)) as Hspan.
  { unfold span, m. cbn [mk_match m_start m_end]. rewrite Hpos.
    unfold pos. simpl. rewrite length_reverse, Hlen. f_equal; lia. }
  rewrite Hspan in Hm. exact Hm.
Qed.

Lemma Forall2_fmap_diag {A B} (P : A → B → Prop) (f : A → B) (l : list A) :
  Forall (fun x => P x (f x)) l → Forall2 P l (f <$> l).
Proof. induction 1; constructor; auto. Qed.

(** * More properties of the matcher and the scanners *)

(** ** More about the matcher *)

Lemma matches_caps_other fl name r : ∀ st st',
  mentions name r = false →
  st' ∈ matches fl r st → caps st' !! name = caps st !! name.
Proof.
  induction r as [|a|a min greedy| | |r1 IH1 r2 IH2|r1 IH1 r2 IH2|n r IH|r IH];
    intros st st' Hm H; simpl in Hm.
  - by apply list_elem_of_singleton in H as ->.
  - simpl in H. destruct (after (cur st)) as [|x xs]; [by apply elem_of_nil in H|].
    destruct (atom_ok fl a x); [|by apply elem_of_nil in H].
    by apply list_elem_of_singleton in H as ->.
  - by apply elem_of_rep in H as (k & _ & -> & _).
  - by apply elem_of_bnd in H as [-> _].
  - simpl in H. destruct (at_end (cur st)); [|by apply elem_of_nil in H].
    by apply list_elem_of_singleton in H as ->.
  - apply orb_false_iff in Hm as [Hm1 Hm2].
    apply elem_of_seq in H as (s1 & H1 & H2).
    rewrite (IH2 _ _ Hm2 H2). by apply IH1.
  - apply orb_false_iff in Hm as [Hm1 Hm2].
    simpl in H. apply elem_of_app in H as [H|H]; eauto.
  - apply orb_false_iff in Hm as [Hn Hm].
    apply elem_of_grp in H as (s & Hs & ->). simpl.
    rewrite lookup_insert_ne; [by apply IH|].
    intros ->. by rewrite String.eqb_refl in Hn.
  - simpl in H. destruct (matches fl r st) as [|s1 l] eqn:E; [by apply elem_of_nil in H|].
    apply list_elem_of_singleton in H as ->. simpl.
    apply IH; [done|]. rewrite E. left.
Qed.

Lemma elem_of_ahead fl r st st' :
  st' ∈ matches fl (Ahead r) st ↔
  ∃ s1, head (matches fl r st) = Some s1 ∧ st' = MState (cur st) (caps s1).
Proof.
  cbn [matches]. destruct (matches fl r st) as [|s1 l]; simpl.
  - split; [by intros ?%elem_of_nil|by intros (? & ? & _)].
  - rewrite list_elem_of_singleton. split.
    + intros ->. eauto.
    + by intros (? & [= <-] & ->).
Qed.

(** The head of a bind is the head of the image of the first element whose
    image is not empty. *)
Lemma head_bind_first {A B} (f : A → list B) (l : list A) y :
  head (l ≫= f) = Some y →
  ∃ l1 x l2, l = l1 ++ x :: l2 ∧ Forall (fun z => f z = []) l1
             ∧ head (f x) = Some y.
Proof.
  induction l as [|x l IH]; [done|]. rewrite bind_cons.
  destruct (f x) as [|y' ys] eqn:E.
  - simpl. intros (l1 & x' & l2 & -> & Hl1 & Hy)%IH.
    exists (x :: l1), x', l2. split; [done|]. split; [by constructor|done].
  - simpl. intros [= ->]. exists [], x, l. split; [done|].
    split; [constructor|by rewrite E].
Qed.

Lemma head_seq fl r1 r2 st y :
  head (matches fl (Seq r1 r2) st) = Some y →
  ∃ x, x ∈ matches fl r1 st ∧ head (matches fl r2 x) = Some y.
Proof.
  cbn [matches]. intros (l1 & x & l2 & Hl & _ & Hy)%head_bind_first.
  exists x. split; [|done]. rewrite Hl. apply elem_of_app. right. left.
Qed.

Lemma bind_nonempty {A B} (f : A → list B) (l : list A) x :
  x ∈ l → f x ≠ [] → l ≫= f ≠ [].
Proof.
  intros Hx Hf Hnil. apply Hf.
  destruct (f x) as [|y ys] eqn:E; [done|].
  assert (y ∈ l ≫= f) as Hy.
  { apply list_elem_of_bind. exists x. split; [rewrite E; left|done]. }
  rewrite Hnil in Hy. by apply elem_of_nil in Hy.
Qed.

(** A pattern that always consumes something reports, through [finditer],
    only first matches. *)
Lemma matches_here_reported p text bef aft m :
  0 < min_len (p_re p) →
  reverse bef ++ aft = text →
  m ∈ matches_here p text (Cursor bef aft) → reported p text m.
Proof.
  intros Hmin Ht. unfold matches_here. rewrite match_at_false.
  destruct (head _) as [st|] eqn:E; [|by intros ?%elem_of_nil].
  assert (pos (Cursor bef aft) < pos (cur st)) as Hlt.
  { apply head_Some_elem_of, matches_min_len in E. simpl in E. lia. }
  cbn [mk_match m_start m_end].
  destruct (_ =? _) eqn:Eq; [apply Nat.eqb_eq in Eq; lia|].
  intros [->|?%elem_of_nil]%elem_of_cons; [|done].
  by exists bef, aft, st.
Qed.

Lemma finditer_from_reported p text aft : ∀ skip bef m,
  0 < min_len (p_re p) →
  reverse bef ++ aft = text →
  m ∈ finditer_from p text skip bef aft → reported p text m.
Proof.
  induction aft as [|x xs IH]; intros skip bef m Hmin Ht;
    destruct skip as [|k]; simpl.
  - rewrite app_nil_r. by apply matches_here_reported.
  - by intros ?%elem_of_nil.
  - intros [H|H]%elem_of_app.
    + by eapply matches_here_reported.
    + eapply IH; [done| |exact H]. by rewrite reverse_cons, <-(assoc_L (++)).
  - apply IH; [done|]. by rewrite reverse_cons, <-(assoc_L (++)).
Qed.

Lemma finditer_reported p s m :
  0 < min_len (p_re p) →
  m ∈ finditer p s → reported p (list_ascii_of_string s) m.
Proof. intros Hmin. by apply finditer_from_reported. Qed.

Lemma reported_arises p text m : reported p text m → arises p text m.
Proof.
  intros (bef & aft & st & Ht & Hh & ->). exists bef, aft, st.
  split; [done|]. split; [by apply head_Some_elem_of|done].
Qed.

(** ** Keys of the findings *)

Lemma finding_key_to_finding h : finding_key (to_finding h) = key_of h.
Proof. unfold finding_key, key_of. simpl. by destruct (hit_span h). Qed.

Lemma keep_fresh hits : ∀ seen,
  Forall (fun h => key_of h ∉ seen) (keep seen hits).
Proof.
  induction hits as [|h t IH]; intros seen; simpl; [constructor|].
  destruct (decide (key_of h ∈ seen)) as [Hin|Hout].
  - rewrite bool_decide_eq_true_2 by done. apply IH.
  - rewrite bool_decide_eq_false_2 by done. constructor; [done|].
    eapply Forall_impl; [apply IH|]. simpl. intros x Hx Hs. apply Hx.
    apply elem_of_union. by left.
Qed.

Lemma keep_NoDup hits : ∀ seen, NoDup (key_of <$> keep seen hits).
Proof.
  induction hits as [|h t IH]; intros seen; simpl; [constructor|].
  destruct (bool_decide (key_of h ∈ seen)); [apply IH|].
  rewrite fmap_cons. constructor; [|apply IH].
  intros (x & Hk & Hx)%list_elem_of_fmap.
  pose proof (keep_fresh t (seen ∪ {[key_of h]})) as Hf.
  rewrite Forall_forall in Hf. apply (Hf x Hx).
  apply elem_of_union. right. by apply elem_of_singleton.
Qed.

(** ** Stretches of a text *)

Lemma stretch_of_refl s : stretch_of s s.
Proof. exists [], []. by rewrite app_nil_r. Qed.

Lemma stretch_of_trans s t u : stretch_of s t → stretch_of t u → stretch_of s u.
Proof.
  intros (a & b & ->) (a' & b' & ->). exists (a' ++ a), (b ++ b').
  by rewrite <-!(assoc_L (++)).
Qed.

Lemma slice_stretch (text : list ascii) i j : stretch_of (slice text i j) text.
Proof. eexists _, _. apply slice_decompose. Qed.

Lemma stretch_of_length s t : stretch_of s t → length s ≤ length t.
Proof. intros (a & b & ->). rewrite !length_app. lia. Qed.

Lemma group_stretch m name g :
  group m name = Some g → stretch_of (list_ascii_of_string g) (m_string m).
Proof.
  unfold group. destruct (m_groups m !! name) as [[i j]|]; [|done].
  simpl. intros [= <-]. rewrite list_ascii_of_string_of_list_ascii.
  apply slice_stretch.
Qed.

Lemma group0_stretch m : stretch_of (list_ascii_of_string (group0 m)) (m_string m).
Proof.
  unfold group0. rewrite list_ascii_of_string_of_list_ascii. apply slice_stretch.
Qed.

Lemma contains_ci_stretch w mid t :
  Char.upper <$> mid = w → stretch_of mid t → contains_ci w t = true.
Proof.
  intros Hw (a & b & ->). by apply contains_ci_app, starts_with_ci_app.
Qed.

Lemma starts_with_ci_elim w : ∀ s,
  starts_with_ci w s = true →
  ∃ mid post, s = mid ++ post ∧ Char.upper <$> mid = w.
Proof.
  induction w as [|x w IH]; intros s; simpl.
  - intros _. by exists [], s.
  - destruct s as [|y s]; [done|].
    intros [Hy Hs]%andb_true_iff. apply Ascii.eqb_eq in Hy.
    apply IH in Hs as (mid & post & -> & Hm).
    exists (y :: mid), post. split; [done|]. rewrite fmap_cons. by rewrite Hy, Hm.
Qed.

Lemma contains_ci_elim w s :
  contains_ci w s = true → ∃ mid, Char.upper <$> mid = w ∧ stretch_of mid s.
Proof.
  induction s as [|y s IH]; simpl.
  - rewrite orb_false_r. intros (mid & post & Hs & Hm)%starts_with_ci_elim.
    exists mid. split; [done|]. by exists [], post.
  - intros [H|H]%orb_true_iff.
    + apply starts_with_ci_elim in H as (mid & post & Hs & Hm).
      exists mid. split; [done|]. by exists [], post.
    + apply IH in H as (mid & Hm & (a & b & ->)).
      exists mid. split; [done|]. by exists (y :: a), b.
Qed.

Lemma contains_ci_prefix w1 w2 s :
  contains_ci (w1 ++ w2) s = true → contains_ci w1 s = true.
Proof.
  intros (mid & Hm & Hs)%contains_ci_elim.
  apply (contains_ci_stretch w1 (take (length w1) mid)).
  - rewrite fmap_take, Hm. by rewrite take_app_length.
  - eapply stretch_of_trans; [|done].
    exists [], (drop (length w1) mid). simpl. by rewrite take_drop.
Qed.

(** [str.upper] and the character-wise upper case agree when the result
    holds no S. *)
Lemma upper_str_chars l : ∀ w,
  Forall (fun x => x ≠ "S"%char) w →
  l ≫= Char.upper_str = w → Char.upper <$> l = w.
Proof.
  induction l as [|c l IH]; intros w Hw; [done|].
  rewrite bind_cons, fmap_cons. unfold Char.upper_str at 1.
  destruct (_ =? _).
  - intros <-. simpl in Hw. by apply Forall_cons in Hw as [? _].
  - simpl. intros <-. f_equal. apply IH; [|done].
    by apply Forall_cons in Hw as [_ ?].
Qed.

Lemma upper_chars g w :
  Forall (fun x => x ≠ "S"%char) (list_ascii_of_string w) →
  upper g = w →
  Char.upper <$> list_ascii_of_string g = list_ascii_of_string w.
Proof.
  intros Hw <-. apply upper_str_chars.
  - done.
  - unfold upper. by rewrite list_ascii_of_string_of_list_ascii.
Qed.

(** ** Where the hits come from *)

Lemma table_hits_cases g sp h :
  h ∈ table_hits g sp →
  hit_span h = sp ∧ hit_target_name h = upper g
  ∧ (upper g = "VBUK" ∨ upper g = "VBUP").
Proof.
  unfold table_hits. destruct (SQL_TABLES !! upper g) as [r|] eqn:E;
    [|by intros ?%elem_of_nil].
  intros ->%list_elem_of_singleton. split; [done|]. split; [done|].
  apply SQL_TABLES_lookup in E as [[? _]|[? _]]; auto.
Qed.

Lemma block_hits_cases stmt h :
  h ∈ block_hits stmt →
  (∃ g, group stmt "table" = Some g ∧ h ∈ table_hits g (span stmt))
  ∨ (∃ rt jm g, group stmt "rest" = Some rt ∧ jm ∈ finditer JOIN_RE rt
                ∧ group jm "table" = Some g ∧ h ∈ table_hits g (span jm))
  ∨ (h = sql_field_hit (span stmt)
     ∧ is_Some (search VBTYP_EXT_RE (group0 stmt))).
Proof.
  unfold block_hits.
  destruct (group stmt "table") as [g|]; [|by intros ?%elem_of_nil].
  destruct (group stmt "rest") as [rt|]; [|by intros ?%elem_of_nil].
  intros [H|[H|H]%elem_of_app]%elem_of_app.
  - left. eauto.
  - right. left. apply list_elem_of_bind in H as (jm & H & Hjm).
    unfold join_hits in H. destruct (group jm "table") as [g'|] eqn:E;
      [|by apply elem_of_nil in H].
    exists rt, jm, g'. eauto.
  - right. right. unfold field_hits in H.
    destruct (decide (is_Some (search VBTYP_EXT_RE (group0 stmt)))) as [Hy|Hn].
    + rewrite bool_decide_eq_true_2 in H by done.
      by apply list_elem_of_singleton in H.
    + rewrite bool_decide_eq_false_2 in H by done. by apply elem_of_nil in H.
Qed.

Lemma decl_hits_cases m h :
  h ∈ decl_hits m →
  ∃ g, group m "field" = Some g ∧ hit_span h = span m
       ∧ hit_target_name h = upper g
       ∧ (upper g = "VBTYP" ∨ upper g = "VBTYP_EXT").
Proof.
  unfold decl_hits. destruct (group m "field") as [g|]; [|by intros ?%elem_of_nil].
  destruct (decide (upper g = "VBTYP")) as [E|_].
  { intros ->%list_elem_of_singleton. exists g. rewrite E. auto. }
  destruct (decide (upper g = "VBTYP_EXT")) as [E|_].
  { intros ->%list_elem_of_singleton. exists g. rewrite E. auto. }
  by intros ?%elem_of_nil.
Qed.

Lemma finditer_string p s m : m ∈ finditer p s → m_string m = list_ascii_of_string s.
Proof. intros Hm%finditer_arises. by apply arises_bounds in Hm as (? & _). Qed.

(** ** The name of a hit stands in the text *)

Lemma table_name_occurs g m name (text : list ascii) h :
  group m name = Some g → stretch_of (m_string m) text →
  h ∈ table_hits g (span m) →
  contains_ci (list_ascii_of_string (hit_target_name h)) text = true.
Proof.
  intros Hg Ht (_ & -> & Hk)%table_hits_cases.
  apply (contains_ci_stretch _ (list_ascii_of_string g)).
  - destruct Hk as [Hk|Hk]; rewrite Hk; apply upper_chars; try done;
      repeat constructor; done.
  - eapply stretch_of_trans; [by eapply group_stretch|done].
Qed.

Lemma sql_hit_name_occurs src h :
  h ∈ sql_hits_of src →
  contains_ci (list_ascii_of_string (hit_target_name h))
              (list_ascii_of_string src) = true.
Proof.
  intros (stmt & Hh & Hs)%list_elem_of_bind.
  pose proof (finditer_string _ _ _ Hs) as Hstr.
  apply block_hits_cases in Hh
    as [(g & Hg & Hh)|[(rt & jm & g & Hrt & Hjm & Hg & Hh)|[-> Hf]]].
  - eapply table_name_occurs; [done| |done]. rewrite Hstr. apply stretch_of_refl.
  - eapply table_name_occurs; [done| |done].
    rewrite (finditer_string _ _ _ Hjm), <-Hstr. by eapply group_stretch.
  - apply search_VBTYP_EXT in Hf as (pre & mid & post & Ht & Hm & _).
    apply (contains_ci_stretch _ mid); [done|].
    apply (stretch_of_trans _ (list_ascii_of_string (group0 stmt))).
    + rewrite Ht. by exists pre, post.
    + rewrite <-Hstr. apply group0_stretch.
Qed.

Lemma decl_hit_name_occurs src h :
  h ∈ decl_hits_of src →
  contains_ci (list_ascii_of_string (hit_target_name h))
              (list_ascii_of_string src) = true.
Proof.
  intros (m & Hh & Hm)%list_elem_of_bind.
  apply decl_hits_cases in Hh as (g & Hg & _ & -> & Hk).
  apply (contains_ci_stretch _ (list_ascii_of_string g)).
  - destruct Hk as [Hk|Hk]; rewrite Hk; apply upper_chars; try done;
      repeat constructor; done.
  - rewrite <-(finditer_string _ _ _ Hm). by eapply group_stretch.
Qed.

Lemma findings_of_elem src f :
  f ∈ findings_of src →
  ∃ h, h ∈ sql_hits_of src ++ decl_hits_of src ∧ f = to_finding h.
Proof.
  unfold findings_of. rewrite <-keep_first_occurrences.
  intros (h & -> & Hh%keep_subseteq)%list_elem_of_fmap. eauto.
Qed.

(** ** Cursors and positions *)

Lemma moves_by_text text mid c c' :
  reverse (before c) ++ after c = text → moves_by mid c c' →
  reverse (before c') ++ after c' = text.
Proof.
  intros <- [Ha Hb].
  by rewrite Hb, Ha, reverse_app, reverse_involutive, (assoc_L (++)).
Qed.

Lemma slice_between text mid c c' :
  reverse (before c) ++ after c = text → moves_by mid c c' →
  slice text (pos c) (pos c') = mid.
Proof. destruct c as [bef aft]. apply slice_moves_by. Qed.

Lemma cursor_at_pos text c :
  reverse (before c) ++ after c = text → cursor_at text (pos c) = c.
Proof.
  destruct c as [bef aft]. simpl. intros <-. unfold cursor_at, pos. simpl.
  rewrite take_app_length', drop_app_length' by (by rewrite length_reverse).
  by rewrite reverse_involutive.
Qed.

Lemma after_drop text c :
  reverse (before c) ++ after c = text → after c = drop (pos c) text.
Proof. intros H. by rewrite <-(cursor_at_pos text c H) at 1. Qed.

Lemma before_take text c :
  reverse (before c) ++ after c = text → head (before c) = last (take (pos c) text).
Proof.
  intros H. rewrite <-(cursor_at_pos text c H) at 1. simpl. apply head_reverse.
Qed.

(** ** The longest and the shortest run *)

Lemma run_last fl a aft : ∀ bef c,
  last (run fl a bef aft) = Some c →
  match after c with
  | [] => True
  | x :: _ => atom_ok fl a x = false
  end.
Proof.
  induction aft as [|x xs IH]; intros bef c; simpl.
  - by intros [= <-].
  - destruct (atom_ok fl a x) eqn:E.
    + destruct (run fl a (x :: bef) xs) as [|c1 l] eqn:Er.
      * by destruct xs.
      * rewrite last_cons_cons, <-Er. apply IH.
    + by intros [= <-].
Qed.

Lemma last_drop {A} (l : list A) n x : last (drop n l) = Some x → last l = Some x.
Proof.
  intros H. rewrite <-(take_drop n l), last_app. by rewrite H.
Qed.

Lemma rep_greedy_head fl a min st st' :
  head (matches fl (Rep a min true) st) = Some st' →
  match after (cur st') with
  | [] => True
  | x :: _ => atom_ok fl a x = false
  end.
Proof.
  cbn [matches]. rewrite head_fmap, head_reverse.
  destruct (last _) as [c|] eqn:E; [|done]. simpl. intros [= <-]. simpl.
  apply last_drop in E. by eapply run_last.
Qed.

Lemma head_grp fl n r st st' :
  head (matches fl (Grp n r) st) = Some st' →
  ∃ s, head (matches fl r st) = Some s
       ∧ st' = MState (cur s) (<[n := (pos (cur st), pos (cur s))]> (caps s)).
Proof.
  cbn [matches]. rewrite head_fmap.
  destruct (head (matches fl r st)) as [s|]; [|done]. simpl.
  intros [= <-]. eauto.
Qed.

Lemma lookup_head_drop {A} (l : list A) n : l !! n = head (drop n l).
Proof. by rewrite head_lookup, lookup_drop, Nat.add_0_r. Qed.

Lemma run_end fl a aft : ∀ bef,
  Forall (fun x => atom_ok fl a x = true) aft →
  Cursor (reverse aft ++ bef) [] ∈ run fl a bef aft.
Proof.
  induction aft as [|x xs IH]; intros bef Hall; simpl.
  - left.
  - apply Forall_cons in Hall as [Hx Hxs]. rewrite Hx. right.
    rewrite reverse_cons, <-(assoc_L (++)). by apply IH.
Qed.

(** ** Character classes of the patterns *)

Lemma ident_char_range c :
  atom_ok ICASE (Range [("A", "Z"); ("0", "9"); ("_", "_")]%char) c = ident_char c.
Proof.
  pose proof (ascii_forall
    (fun c => Bool.eqb
       (atom_ok ICASE (Range [("A", "Z"); ("0", "9"); ("_", "_")]%char) c)
       (ident_char c))) as H.
  apply Bool.eqb_prop, H. vm_compute. reflexivity.
Qed.

Lemma word_upper_head (w mid : list ascii) :
  Char.upper <$> mid = w → word_at (head w) = true → word_at (head mid) = true.
Proof. intros <-. by rewrite head_fmap, word_at_upper. Qed.

(** ** The text of a declaration match *)

Lemma keyword_alt fl st st' :
  IGNORECASE fl = true →
  st' ∈ matches fl (Alt (lits "TYPE") (lits "LIKE")) st →
  ∃ kw, moves_by kw (cur st) (cur st') ∧ caps st' = caps st
        ∧ (Char.upper <$> kw = list_ascii_of_string "TYPE"
           ∨ Char.upper <$> kw = list_ascii_of_string "LIKE").
Proof.
  intros Hfl H. cbn [matches] in H.
  fold (matches fl (lits "TYPE")) in H. fold (matches fl (lits "LIKE")) in H.
  pose proof (matches_caps_other fl "none" (lits "TYPE") st st' eq_refl) as _.
  assert (∀ w, st' ∈ matches fl (lits w) st → caps st' = caps st) as Hc.
  { intros w. destruct st as [[bef aft] g]. rewrite matches_lits.
    destruct (eat _ _ _ _); [|by intros ?%elem_of_nil].
    by intros ->%list_elem_of_singleton. }
  apply elem_of_app in H as [H|H]; pose proof (Hc _ H);
    apply elem_of_lits in H as (kw & ? & ?); try done;
    try (repeat constructor); exists kw; auto.
Qed.

Lemma decl_state_anatomy c0 st :
  st ∈ matches ICASE (p_re DECLARATION_RE) (MState c0 ∅) →
  ∃ kw sp id,
    moves_by (kw ++ sp ++ id) c0 (cur st)
    ∧ (Char.upper <$> kw = list_ascii_of_string "TYPE"
       ∨ Char.upper <$> kw = list_ascii_of_string "LIKE")
    ∧ sp ≠ [] ∧ Forall (fun c => Char.is_space c = true) sp
    ∧ id ≠ [] ∧ Forall (fun c => ident_char c = true) id
    ∧ caps st !! "field" = Some (pos c0 + length (kw ++ sp), pos (cur st))
    ∧ word_at (head (before c0)) = false.
Proof.
  intros Hin. cbn [p_re DECLARATION_RE] in Hin.
  apply elem_of_seq in Hin as (s1 & [-> B0]%elem_of_bnd & Hin).
  apply elem_of_seq in Hin as (s2 & Hkw & Hin).
  apply keyword_alt in Hkw as (kw & Mkw & _ & Hkw); [|done].
  apply elem_of_seq in Hin as (s3 & [-> _]%elem_of_bnd & Hin).
  apply elem_of_seq in Hin as (s4 & Hsp & Hin).
  apply elem_of_rep_by in Hsp as (sp & Msp & Lsp & Hsp).
  apply elem_of_grp in Hin as (s5 & Hid & ->).
  apply elem_of_rep_by in Hid as (id & Mid & Lid & Hid).
  exists kw, sp, id. cbn [cur caps] in *.
  pose proof (moves_by_trans _ _ _ _ _ Mkw Msp) as M2.
  split; [rewrite (assoc_L (++)); by eapply moves_by_trans|].
  split; [done|]. split; [intros ->; simpl in Lsp; lia|]. split; [exact Hsp|].
  split; [intros ->; simpl in Lid; lia|].
  split; [eapply Forall_impl; [exact Hid|]; intros c Hc; by rewrite <-ident_char_range|].
  split.
  - rewrite lookup_insert_eq. by rewrite (moves_by_length _ _ _ M2).
  - unfold at_boundary in B0. destruct Mkw as [Ha _]. simpl in Ha.
    assert (word_at (head kw) = true) as Hw.
    { destruct Hkw as [Hkw|Hkw]; by apply (word_upper_head _ _ Hkw). }
    rewrite Ha, head_app_l in B0 by (intros ->; by destruct Hkw).
    rewrite Hw in B0. by destruct (word_at (head (before c0))).
Qed.

Lemma decl_anatomy text m :
  arises DECLARATION_RE text m →
  ∃ kw sp id,
    slice text (m_start m) (m_end m) = kw ++ sp ++ id
    ∧ (Char.upper <$> kw = list_ascii_of_string "TYPE"
       ∨ Char.upper <$> kw = list_ascii_of_string "LIKE")
    ∧ sp ≠ [] ∧ Forall (fun c => Char.is_space c = true) sp
    ∧ id ≠ [] ∧ Forall (fun c => ident_char c = true) id
    ∧ group m "field" = Some (string_of_list_ascii id)
    ∧ word_at (last (take (m_start m) text)) = false.
Proof.
  intros (bef & aft & st & Ht & Hin & ->).
  apply decl_state_anatomy in Hin
    as (kw & sp & id & Mall & Hkw & Nsp & Hsp & Nid & Hid & Hcap & Hb).
  exists kw, sp, id. cbn [mk_match m_start m_end].
  split; [by eapply (slice_between text _ (Cursor bef aft))|].
  do 5 (split; [done|]). split.
  - unfold group. cbn [mk_match m_groups m_string]. rewrite Hcap. simpl.
    do 2 f_equal.
    rewrite (assoc_L (++)) in Mall.
    pose proof (moves_by_length _ _ _ Mall) as Hp.
    destruct Mall as [Ha _]. simpl in Ha. rewrite <-Ht.
    replace (reverse bef ++ aft)
      with ((reverse bef ++ kw ++ sp) ++ id ++ after (cur st))
      by (rewrite Ha; by rewrite <-!(assoc_L (++))).
    apply slice_middle.
    + unfold pos. simpl. by rewrite !length_app, length_reverse.
    + rewrite Hp. unfold pos. simpl. rewrite !length_app. lia.
  - by rewrite <-(before_take text (Cursor bef aft)).
Qed.

Lemma decl_whole text m :
  reported DECLARATION_RE text m →
  match text !! m_end m with
  | Some c => ident_char c = false
  | None => True
  end.
Proof.
  intros (bef & aft & st & Ht & Hh & ->).
  pose proof (head_Some_elem_of _ _ Hh) as Hin.
  apply matches_moves in Hin as (mid & Hm).
  pose proof (moves_by_text text _ (Cursor bef aft) _ Ht Hm) as Ht'.
  cbn [p_flags p_re DECLARATION_RE] in Hh.
  apply head_seq in Hh as (s1 & _ & Hh).
  apply head_seq in Hh as (s2 & _ & Hh).
  apply head_seq in Hh as (s3 & _ & Hh).
  apply head_seq in Hh as (s4 & _ & Hh).
  apply head_grp in Hh as (s5 & Hh & ->).
  apply rep_greedy_head in Hh. cbn [mk_match m_end cur] in *.
  rewrite (after_drop text _ Ht') in Hh.
  rewrite lookup_head_drop.
  destruct (drop (pos (cur s5)) text) as [|c l]; [done|]. simpl.
  by rewrite <-ident_char_range.
Qed.

(** ** The text of a JOIN match *)

Lemma matches_text fl r text st st' :
  st' ∈ matches fl r st →
  reverse (before (cur st)) ++ after (cur st) = text →
  reverse (before (cur st')) ++ after (cur st') = text.
Proof.
  intros (mid & Hm)%matches_moves Ht. by eapply moves_by_text.
Qed.

Lemma group_slice text bef aft c' st pre mid post name i j :
  reverse bef ++ aft = text →
  moves_by (pre ++ mid ++ post) (Cursor bef aft) c' →
  i = length bef + length pre → j = i + length mid →
  caps st !! name = Some (i, j) →
  group (mk_match text (Cursor bef aft) st) name = Some (string_of_list_ascii mid).
Proof.
  intros <- [Ha _] -> -> Hcap. simpl in Ha.
  unfold group. cbn [mk_match m_groups m_string]. rewrite Hcap. simpl.
  do 2 f_equal.
  replace (reverse bef ++ aft)
    with ((reverse bef ++ pre) ++ mid ++ post ++ after c')
    by (rewrite Ha; by rewrite <-!(assoc_L (++))).
  apply slice_middle; [|done]. by rewrite length_app, length_reverse.
Qed.

Lemma join_state_anatomy c0 st :
  st ∈ matches ICASE (p_re JOIN_RE) (MState c0 ∅) →
  ∃ kw sp tbl,
    moves_by (kw ++ sp ++ tbl) c0 (cur st)
    ∧ Char.upper <$> kw = list_ascii_of_string "JOIN"
    ∧ sp ≠ [] ∧ Forall (fun c => Char.is_space c = true) sp
    ∧ tbl ≠ [] ∧ Forall (fun c => Char.is_word c = true) tbl
    ∧ caps st !! "table"
      = Some (pos c0 + length (kw ++ sp), pos c0 + length (kw ++ sp) + length tbl)
    ∧ word_at (head (before c0)) = false.
Proof.
  intros Hin. cbn [p_re JOIN_RE] in Hin.
  apply elem_of_seq in Hin as (s1 & [-> B0]%elem_of_bnd & Hin).
  apply elem_of_seq in Hin as (s2 & Hkw & Hin).
  apply elem_of_lits in Hkw as (kw & Mkw & Hkw); [|done|repeat constructor].
  apply elem_of_seq in Hin as (s4 & Hsp & Hin).
  apply elem_of_rep_by in Hsp as (sp & Msp & Lsp & Hsp).
  apply elem_of_grp in Hin as (s5 & Hid & ->).
  apply elem_of_rep_by in Hid as (tbl & Mid & Lid & Hid).
  exists kw, sp, tbl. cbn [cur caps] in *.
  pose proof (moves_by_trans _ _ _ _ _ Mkw Msp) as M2.
  split; [rewrite (assoc_L (++)); by eapply moves_by_trans|].
  split; [done|]. split; [intros ->; simpl in Lsp; lia|]. split; [exact Hsp|].
  split; [intros ->; simpl in Lid; lia|]. split; [exact Hid|].
  split.
  - rewrite lookup_insert_eq.
    by rewrite (moves_by_length _ _ _ Mid), (moves_by_length _ _ _ M2).
  - unfold at_boundary in B0. destruct Mkw as [Ha _]. simpl in Ha.
    assert (word_at (head kw) = true) as Hw by (by apply (word_upper_head _ _ Hkw)).
    rewrite Ha, head_app_l in B0 by (by intros ->).
    rewrite Hw in B0. by destruct (word_at (head (before c0))).
Qed.

Lemma join_anatomy text m :
  arises JOIN_RE text m →
  ∃ kw sp tbl,
    slice text (m_start m) (m_end m) = kw ++ sp ++ tbl
    ∧ Char.upper <$> kw = list_ascii_of_string "JOIN"
    ∧ sp ≠ [] ∧ Forall (fun c => Char.is_space c = true) sp
    ∧ tbl ≠ [] ∧ Forall (fun c => Char.is_word c = true) tbl
    ∧ group m "table" = Some (string_of_list_ascii tbl)
    ∧ word_at (last (take (m_start m) text)) = false.
Proof.
  intros (bef & aft & st & Ht & Hin & ->).
  apply join_state_anatomy in Hin
    as (kw & sp & tbl & Mall & Hkw & Nsp & Hsp & Nid & Hid & Hcap & Hb).
  exists kw, sp, tbl. cbn [mk_match m_start m_end].
  split; [by eapply (slice_between text _ (Cursor bef aft))|].
  do 5 (split; [done|]). split.
  - rewrite (assoc_L (++)), <-(app_nil_r tbl) in Mall.
    eapply group_slice; [done|exact Mall|done..].
  - by rewrite <-(before_take text (Cursor bef aft)).
Qed.

Lemma join_whole text m :
  reported JOIN_RE text m →
  match text !! m_end m with
  | Some c => Char.is_word c = false
  | None => True
  end.
Proof.
  intros (bef & aft & st & Ht & Hh & ->).
  pose proof (matches_text _ _ text _ _ (head_Some_elem_of _ _ Hh) Ht) as Ht'.
  cbn [p_flags p_re JOIN_RE] in Hh.
  apply head_seq in Hh as (s1 & _ & Hh).
  apply head_seq in Hh as (s2 & _ & Hh).
  apply head_seq in Hh as (s3 & _ & Hh).
  apply head_grp in Hh as (s5 & Hh & ->).
  apply rep_greedy_head in Hh. cbn [mk_match m_end cur] in *.
  rewrite (after_drop text _ Ht') in Hh.
  rewrite lookup_head_drop.
  by destruct (drop (pos (cur s5)) text) as [|c l].
Qed.

(** ** The look-ahead of the block pattern *)

Lemma eat_flags fl w : ∀ bef aft,
  IGNORECASE fl = true → eat fl w bef aft = eat ICASE w bef aft.
Proof.
  induction w as [|x w IH]; intros bef aft Hfl; [done|]. simpl.
  destruct aft as [|y ys]; [done|].
  assert (atom_ok fl (Lit x) y = atom_ok ICASE (Lit x) y) as ->
    by (unfold atom_ok; by rewrite Hfl).
  destruct (atom_ok ICASE (Lit x) y); [by apply IH|done].
Qed.

Lemma select_ahead fl c g :
  IGNORECASE fl = true →
  matches fl (Seq Bnd (Seq (lits "SELECT") Bnd)) (MState c g) ≠ []
  ↔ keyword_ahead "SELECT" c.
Proof.
  intros Hfl. destruct c as [bef aft].
  assert (matches fl (Seq Bnd (Seq (lits "SELECT") Bnd)) (MState (Cursor bef aft) g)
          = matches ICASE (Seq Bnd (Seq (lits "SELECT") Bnd)) (MState (Cursor bef aft) g))
    as -> by (by rewrite !matches_word, eat_flags).
  apply word_matches_nonempty; [repeat constructor|done..].
Qed.

Lemma lookahead_holds fl st :
  IGNORECASE fl = true →
  matches fl (Ahead (Grp "4" (Alt (Seq Bnd (Seq (lits "SELECT") Bnd)) Eos))) st ≠ []
  ↔ block_may_end (cur st).
Proof.
  intros Hfl. destruct st as [c g]. unfold block_may_end.
  rewrite <-(select_ahead fl c g Hfl). cbn [matches cur].
  fold (matches fl (lits "SELECT")).
  change (at_boundary c) with (at_boundary (cur (MState c g))).
  set (A := (if at_boundary (cur (MState c g)) then [MState c g] else [])
            ≫= (fun st => matches fl (lits "SELECT") st
                          ≫= (fun st0 => if at_boundary (cur st0) then [st0] else []))).
  destruct A as [|a l]; destruct (at_end c); simpl; split;
    try done; try (intros [?|?]; done); auto.
Qed.

Lemma rest_total z :
  matches ICASE_DOTALL
    (Seq (Grp "rest" (Rep Dot 0 false))
         (Ahead (Grp "4" (Alt (Seq Bnd (Seq (lits "SELECT") Bnd)) Eos)))) z ≠ [].
Proof.
  cbn [matches]. fold (matches ICASE_DOTALL (lits "SELECT")).
  set (wrap := fun st' : mstate =>
         MState (cur st') (<["rest" := (pos (cur z), pos (cur st'))]> (caps st'))).
  set (cE := Cursor (reverse (after (cur z)) ++ before (cur z)) []).
  apply (bind_nonempty _ _ (wrap (MState cE (caps z)))).
  - apply (list_elem_of_fmap_2 wrap). apply list_elem_of_fmap.
    exists cE. split; [done|]. simpl.
    apply run_end, Forall_forall. by intros x _.
  - change (matches ICASE_DOTALL
              (Ahead (Grp "4" (Alt (Seq Bnd (Seq (lits "SELECT") Bnd)) Eos)))
              (wrap (MState cE (caps z))) ≠ []).
    apply lookahead_holds; [done|]. by right.
Qed.

(** ** The text of a SELECT block, part by part *)

Lemma block_state_anatomy c0 st :
  st ∈ matches ICASE_DOTALL (p_re SQL_SELECT_BLOCK_RE) (MState c0 ∅) →
  ∃ sel mid frm sp tbl rst,
    moves_by (sel ++ mid ++ frm ++ sp ++ tbl ++ rst) c0 (cur st)
    ∧ Char.upper <$> sel = list_ascii_of_string "SELECT"
    ∧ mid ≠ []
    ∧ Char.upper <$> frm = list_ascii_of_string "FROM"
    ∧ sp ≠ [] ∧ Forall (fun c => Char.is_space c = true) sp
    ∧ tbl ≠ [] ∧ Forall (fun c => Char.is_word c = true) tbl
    ∧ caps st !! "table"
      = Some (pos c0 + length (sel ++ mid ++ frm ++ sp),
              pos c0 + length (sel ++ mid ++ frm ++ sp) + length tbl)
    ∧ caps st !! "rest"
      = Some (pos c0 + length (sel ++ mid ++ frm ++ sp) + length tbl,
              pos c0 + length (sel ++ mid ++ frm ++ sp) + length tbl + length rst)
    ∧ block_may_end (cur st)
    ∧ word_at (head (before c0)) = false.
Proof.
  intros Hin. cbn [p_re SQL_SELECT_BLOCK_RE] in Hin.
  apply elem_of_seq in Hin as (s1 & [-> B0]%elem_of_bnd & Hin).
  apply elem_of_seq in Hin as (s2 & Hsel & Hin).
  apply elem_of_lits in Hsel as (sel & Msel & Hsel); [|done|repeat constructor].
  apply elem_of_seq in Hin as (s3 & [-> _]%elem_of_bnd & Hin).
  apply elem_of_seq in Hin as (s4 & Hmid & Hin).
  apply elem_of_grp in Hmid as (s4' & Hmid & ->).
  apply elem_of_rep_by in Hmid as (mid & Mmid & Lmid & _).
  apply elem_of_seq in Hin as (s5 & [-> _]%elem_of_bnd & Hin).
  apply elem_of_seq in Hin as (s6 & Hfrm & Hin).
  apply elem_of_lits in Hfrm as (frm & Mfrm & Hfrm); [|done|repeat constructor].
  apply elem_of_seq in Hin as (s7 & [-> _]%elem_of_bnd & Hin).
  apply elem_of_seq in Hin as (s8 & Hsp & Hin).
  apply elem_of_rep_by in Hsp as (sp & Msp & Lsp & Hsp).
  apply elem_of_seq in Hin as (s9 & Htbl & Hin).
  apply elem_of_grp in Htbl as (s9' & Htbl & ->).
  apply elem_of_rep_by in Htbl as (tbl & Mtbl & Ltbl & Htbl).
  apply elem_of_seq in Hin as (s10 & Hrst & Hin).
  apply elem_of_grp in Hrst as (s10' & Hrst & ->).
  pose proof (fun H => matches_caps_other ICASE_DOTALL "table" _ _ _ H Hrst) as Ct;
    specialize (Ct eq_refl).
  apply elem_of_rep_by in Hrst as (rst & Mrst & _ & _).
  pose proof Hin as Hah.
  apply elem_of_ahead in Hin as (s11 & Hh & ->).
  pose proof (fun H => matches_caps_other ICASE_DOTALL "table" _ _ _ H (head_Some_elem_of _ _ Hh)) as Ct';
    specialize (Ct' eq_refl).
  pose proof (fun H => matches_caps_other ICASE_DOTALL "rest" _ _ _ H (head_Some_elem_of _ _ Hh)) as Cr';
    specialize (Cr' eq_refl).
  cbn [cur caps] in *.
  pose proof (moves_by_trans _ _ _ _ _ Msel
               (moves_by_trans _ _ _ _ _ Mmid
                  (moves_by_trans _ _ _ _ _ Mfrm Msp))) as M4.
  pose proof (moves_by_trans _ _ _ _ _ M4 Mtbl) as M5.
  pose proof (moves_by_trans _ _ _ _ _ M5 Mrst) as M6.
  rewrite <-!(assoc_L (++)) in M6.
  exists sel, mid, frm, sp, tbl, rst.
  split; [exact M6|]. split; [done|].
  split; [intros ->; simpl in Lmid; lia|]. split; [done|].
  split; [intros ->; simpl in Lsp; lia|]. split; [exact Hsp|].
  split; [intros ->; simpl in Ltbl; lia|]. split; [exact Htbl|].
  split.
  { rewrite Ct', lookup_insert_ne, Ct, lookup_insert_eq by done.
    by rewrite (moves_by_length _ _ _ Mtbl), (moves_by_length _ _ _ M4). }
  split.
  { rewrite Cr', lookup_insert_eq.
    rewrite (moves_by_length _ _ _ Mrst), (moves_by_length _ _ _ Mtbl),
      (moves_by_length _ _ _ M4). done. }
  split.
  { apply (lookahead_holds ICASE_DOTALL
             (MState (cur s10')
                (<["rest" := (pos (cur s9'), pos (cur s10'))]> (caps s10')))); [done|].
    intros Hnil. rewrite Hnil in Hah. by apply elem_of_nil in Hah. }
  unfold at_boundary in B0. destruct Msel as [Ha _]. simpl in Ha.
  assert (word_at (head sel) = true) as Hw by (by apply (word_upper_head _ _ Hsel)).
  rewrite Ha, head_app_l in B0 by (by intros ->).
  rewrite Hw in B0. by destruct (word_at (head (before c0))).
Qed.

Lemma block_anatomy text stmt :
  arises SQL_SELECT_BLOCK_RE text stmt →
  ∃ sel mid frm sp tbl rst,
    slice text (m_start stmt) (m_end stmt)
    = sel ++ mid ++ frm ++ sp ++ tbl ++ rst
    ∧ Char.upper <$> sel = list_ascii_of_string "SELECT"
    ∧ mid ≠ []
    ∧ Char.upper <$> frm = list_ascii_of_string "FROM"
    ∧ sp ≠ [] ∧ Forall (fun c => Char.is_space c = true) sp
    ∧ tbl ≠ [] ∧ Forall (fun c => Char.is_word c = true) tbl
    ∧ group stmt "table" = Some (string_of_list_ascii tbl)
    ∧ group stmt "rest" = Some (string_of_list_ascii rst)
    ∧ m_groups stmt !! "rest" = Some (m_end stmt - length rst, m_end stmt)
    ∧ block_may_end (cursor_at text (m_end stmt))
    ∧ word_at (last (take (m_start stmt) text)) = false.
Proof.
  intros (bef & aft & st & Ht & Hin & ->).
  pose proof (matches_text _ _ text _ _ Hin Ht) as Ht'.
  apply block_state_anatomy in Hin
    as (sel & mid & frm & sp & tbl & rst & Mall & Hsel & Nmid & Hfrm & Nsp & Hsp
        & Ntbl & Htbl & Ctab & Crest & Hend & Hb).
  exists sel, mid, frm, sp, tbl, rst. cbn [mk_match m_start m_end].
  split; [by eapply (slice_between text _ (Cursor bef aft))|].
  do 7 (split; [done|]).
  split.
  { replace (sel ++ mid ++ frm ++ sp ++ tbl ++ rst)
      with ((sel ++ mid ++ frm ++ sp) ++ tbl ++ rst) in Mall
      by (by rewrite <-!(assoc_L (++))).
    eapply group_slice; [done|exact Mall|done..]. }
  split.
  { replace (sel ++ mid ++ frm ++ sp ++ tbl ++ rst)
      with (((sel ++ mid ++ frm ++ sp) ++ tbl) ++ rst ++ []) in Mall
      by (by rewrite app_nil_r, <-!(assoc_L (++))).
    eapply group_slice; [done|exact Mall|..]; cycle 2; [exact Crest| |done].
    unfold pos. cbn [before]. rewrite !length_app. lia. }
  split.
  { cbn [mk_match m_groups]. rewrite Crest, (moves_by_length _ _ _ Mall).
    unfold pos. cbn [before].
    rewrite !length_app. f_equal. f_equal; lia. }
  split; [by rewrite (cursor_at_pos text _ Ht')|].
  by rewrite <-(before_take text (Cursor bef aft)).
Qed.

(** ** What the matcher's order of preference gives a block *)

Lemma fmap_lookup_split {A B} (f : A → B) (l : list A) (l1 : list B) y l2 :
  f <$> l = l1 ++ y :: l2 →
  ∃ x, l !! length l1 = Some x ∧ y = f x
       ∧ ∀ k, k < length l1 → ∃ z, l !! k = Some z ∧ f z ∈ l1.
Proof.
  intros H.
  assert ((f <$> l) !! length l1 = Some y) as Hy
    by (rewrite H; apply list_lookup_middle; done).
  rewrite list_lookup_fmap in Hy.
  destruct (l !! length l1) as [x|] eqn:E; [|done]. injection Hy as <-.
  exists x. split; [done|]. split; [done|].
  intros k Hk.
  assert ((f <$> l) !! k = l1 !! k) as Hk' by (rewrite H; by apply lookup_app_l).
  rewrite list_lookup_fmap in Hk'.
  destruct (lookup_lt_is_Some_2 l1 k Hk) as [b Hb]. rewrite Hb in Hk'.
  destruct (l !! k) as [z|]; [|done]. injection Hk' as Hz.
  exists z. split; [done|]. rewrite Hz. by eapply list_elem_of_lookup_2.
Qed.

Lemma block_head text c0 st :
  reverse (before c0) ++ after c0 = text →
  head (matches ICASE_DOTALL (p_re SQL_SELECT_BLOCK_RE) (MState c0 ∅)) = Some st →
  ∃ i j,
    caps st !! "table" = Some (i, j)
    ∧ caps st !! "rest" = Some (j, pos (cur st))
    ∧ match text !! j with
      | Some c => Char.is_word c = false
      | None => True
      end
    ∧ ∀ k, j ≤ k → k < pos (cur st) → ¬ block_may_end (cursor_at text k).
Proof.
  intros Ht Hh. cbn [p_re SQL_SELECT_BLOCK_RE] in Hh.
  apply head_seq in Hh as (s1 & H1 & Hh).
  pose proof (matches_text _ _ text _ _ H1 Ht) as T1.
  apply head_seq in Hh as (s2 & H2 & Hh).
  pose proof (matches_text _ _ text _ _ H2 T1) as T2.
  apply head_seq in Hh as (s3 & H3 & Hh).
  pose proof (matches_text _ _ text _ _ H3 T2) as T3.
  apply head_seq in Hh as (s4 & H4 & Hh).
  pose proof (matches_text _ _ text _ _ H4 T3) as T4.
  apply head_seq in Hh as (s5 & H5 & Hh).
  pose proof (matches_text _ _ text _ _ H5 T4) as T5.
  apply head_seq in Hh as (s6 & H6 & Hh).
  pose proof (matches_text _ _ text _ _ H6 T5) as T6.
  apply head_seq in Hh as (s7 & H7 & Hh).
  pose proof (matches_text _ _ text _ _ H7 T6) as T7.
  apply head_seq in Hh as (s8 & H8 & Hh).
  pose proof (matches_text _ _ text _ _ H8 T7) as T8.
  clear H1 H2 H3 H4 H5 H6 H7 H8 T1 T2 T3 T4 T5 T6 T7.
  (* the table: the longest run of word characters *)
  cbn [matches] in Hh.
  fold (matches ICASE_DOTALL (lits "SELECT")) in Hh.
  change (head (matches ICASE_DOTALL (Grp "table" (Rep WordC 1 true)) s8
                ≫= matches ICASE_DOTALL
                     (Seq (Grp "rest" (Rep Dot 0 false))
                        (Ahead (Grp "4"
                           (Alt (Seq Bnd (Seq (lits "SELECT") Bnd)) Eos)))))
          = Some st) in Hh.
  apply head_bind_first in Hh as (l1 & x & l2 & Hl & Hl1 & Hh).
  destruct l1 as [|z l1].
  2:{ apply Forall_cons in Hl1 as [Hz _]. by apply rest_total in Hz. }
  assert (head (matches ICASE_DOTALL (Grp "table" (Rep WordC 1 true)) s8) = Some x)
    as Hx by (by rewrite Hl).
  pose proof (matches_text _ _ text _ _ (head_Some_elem_of _ _ Hx) T8) as Tx.
  apply head_grp in Hx as (s9 & Hs9 & ->).
  apply rep_greedy_head in Hs9. cbn [cur caps] in *.
  set (x := MState (cur s9) (<["table" := (pos (cur s8), pos (cur s9))]> (caps s9))) in *.
  pose proof (fun H => matches_caps_other ICASE_DOTALL "table" _ _ _ H (head_Some_elem_of _ _ Hh)) as Ct;
    specialize (Ct eq_refl).
  (* the trailing region: the shortest run after which the look-ahead holds *)
  cbn [matches] in Hh.
  fold (matches ICASE_DOTALL (lits "SELECT")) in Hh.
  set (wrap := fun st' : mstate =>
         MState (cur st') (<["rest" := (pos (cur x), pos (cur st'))]> (caps st'))) in *.
  apply head_bind_first in Hh as (r1 & y & r2 & Hr & Hr1 & Hh).
  rewrite <-list_fmap_compose in Hr.
  apply fmap_lookup_split in Hr as (cy & Hcy & -> & Hbefore).
  change (head (matches ICASE_DOTALL
                  (Ahead (Grp "4" (Alt (Seq Bnd (Seq (lits "SELECT") Bnd)) Eos)))
                  (wrap (MState cy (caps x)))) = Some st) in Hh.
  apply head_Some_elem_of in Hh.
  apply elem_of_ahead in Hh as (s11 & Hs11 & ->).
  pose proof (fun H => matches_caps_other ICASE_DOTALL "table" _ _ _ H (head_Some_elem_of _ _ Hs11)) as Ct';
    specialize (Ct' eq_refl).
  pose proof (fun H => matches_caps_other ICASE_DOTALL "rest" _ _ _ H (head_Some_elem_of _ _ Hs11)) as Cr';
    specialize (Cr' eq_refl).
  cbn [cur caps wrap] in *.
  rewrite drop_0 in Hcy, Hbefore.
  apply run_lookup_by in Hcy as (rst & Mrst & Lrst & _).
  exists (pos (cur s8)), (pos (cur s9)).
  split.
  { rewrite Ct'. simpl. rewrite lookup_insert_ne by done. unfold x. simpl.
    by rewrite lookup_insert_eq. }
  split.
  { rewrite Cr'. simpl. by rewrite lookup_insert_eq. }
  split.
  { rewrite lookup_head_drop, <-(after_drop text _ Tx).
    by destruct (after (cur s9)). }
  intros k Hk1 Hk2 Hend.
  rewrite (moves_by_length _ _ _ Mrst) in Hk2.
  unfold pos in Hk1, Hk2. cbn [before cur x] in Hk1, Hk2.
  destruct (Hbefore (k - length (before (cur s9))) ltac:(lia)) as (ck & Hck & Hin).
  apply run_lookup_by in Hck as (mid & Mk & Lk & _).
  assert (cursor_at text k = ck) as Hckk.
  { replace k with (pos ck)
      by (rewrite (moves_by_length _ _ _ Mk); unfold pos; cbn [before cur x]; lia).
    apply cursor_at_pos. eapply moves_by_text; [|exact Mk]. by destruct (cur s9). }
  rewrite Forall_forall in Hr1. specialize (Hr1 _ Hin).
  rewrite Hckk in Hend.
  eapply (lookahead_holds ICASE_DOTALL); [done| |exact Hr1]. exact Hend.
Qed.

(** ** Hits, keys and names *)

Lemma hit_forms src h :
  h ∈ sql_hits_of src ++ decl_hits_of src →
  (∃ t r sp, SQL_TABLES !! t = Some r ∧ h = table_hit t r sp)
  ∨ (∃ sp, h = sql_field_hit sp)
  ∨ (∃ sp, h = decl_hit "VBTYP" (Some ["VBTYPL"])
                 "* TODO: Data element VBTYP was lengthened (Note 2198647). Use VBTYPL."
                 sp)
  ∨ (∃ sp, h = decl_hit "VBTYP_EXT" None
                 "* TODO: Field VBTYP_EXT obsolete (Note 2198647). Remove usage."
                 sp).
Proof.
  intros [(stmt & Hh & _)%list_elem_of_bind|(m & Hh & _)%list_elem_of_bind]%elem_of_app.
  - apply block_hits_elem in Hh as [?| ->]; [by left|]. right. left. eauto.
  - apply decl_hits_elem in Hh as [-> | ->]; right; right; [left|right]; eauto.
Qed.


Lemma hit_name_catalog src h :
  h ∈ sql_hits_of src ++ decl_hits_of src →
  match hit_target_type h with
  | TABLE => is_Some (SQL_TABLES !! hit_target_name h)
  | SQL_FIELD => hit_target_name h ∈ SQL_FIELDS
  | DECLARATION =>
      is_Some (DECL_FIELDS !! hit_target_name h)
      ∨ hit_target_name h ∈ DECL_FIELDS_OBS
  end.
Proof.
  intros [(t & r & sp & L & ->)|[(sp & ->)|[(sp & ->)|(sp & ->)]]]%hit_forms; cbn.
  - by rewrite L.
  - by apply elem_of_singleton.
  - left. by exists "VBTYPL".
  - right. by apply elem_of_singleton.
Qed.

Lemma hit_name_occurs src h :
  h ∈ sql_hits_of src ++ decl_hits_of src →
  contains_ci (list_ascii_of_string (hit_target_name h))
              (list_ascii_of_string src) = true.
Proof.
  intros [?|?]%elem_of_app; [by apply sql_hit_name_occurs|by apply decl_hit_name_occurs].
Qed.

Lemma hit_name_among src h :
  h ∈ sql_hits_of src ++ decl_hits_of src →
  hit_target_name h = "VBUK" ∨ hit_target_name h = "VBUP"
  ∨ hit_target_name h = "VBTYP" ∨ hit_target_name h = "VBTYP_EXT".
Proof.
  intros [(t & r & sp & L & ->)|[(sp & ->)|[(sp & ->)|(sp & ->)]]]%hit_forms; cbn;
    [|tauto..].
  apply SQL_TABLES_lookup in L as [[-> _]|[-> _]]; tauto.
Qed.

Lemma hit_span_length src h :
  h ∈ sql_hits_of src ++ decl_hits_of src →
  fst (hit_span h) + 6 ≤ snd (hit_span h)
  ∧ snd (hit_span h) ≤ String.length src.
Proof.
  assert (∀ p s m, m ∈ finditer p s →
            m_start m + min_len (p_re p) ≤ m_end m ∧ m_end m ≤ String.length s) as Hb.
  { intros p s m Hm%finditer_arises.
    apply arises_bounds in Hm as (_ & _ & ? & ?).
    rewrite length_chars in *. lia. }
  intros [(stmt & Hh & Hs)%list_elem_of_bind|(m & Hh & Hm)%list_elem_of_bind]%elem_of_app.
  - pose proof (Hb _ _ _ Hs) as [L1 L2].
    change (min_len (p_re SQL_SELECT_BLOCK_RE)) with 13 in L1.
    apply block_hits_cases in Hh
      as [(g & Hg & Hh)|[(rt & jm & g & Hrt & Hjm & Hg & Hh)|[-> Hf]]].
    + apply table_hits_cases in Hh as (-> & _). simpl. lia.
    + apply table_hits_cases in Hh as (-> & _).
      pose proof (Hb _ _ _ Hjm) as [J1 J2].
      change (min_len (p_re JOIN_RE)) with 6 in J1.
      split; [done|]. simpl.
      apply group_stretch, stretch_of_length in Hrt.
      rewrite (finditer_string _ _ _ Hs), !length_chars in Hrt. lia.
    + simpl. lia.
  - pose proof (Hb _ _ _ Hm) as [L1 L2].
    change (min_len (p_re DECLARATION_RE)) with 6 in L1.
    apply decl_hits_cases in Hh as (g & _ & -> & _). done.
Qed.

Lemma keep_app a : ∀ seen b,
  keep seen (a ++ b) = keep seen a ++ keep (seen ∪ list_to_set (key_of <$> a)) b.
Proof.
  induction a as [|h a IH]; intros seen b; simpl.
  - by rewrite (right_id_L ∅ (∪)).
  - case_bool_decide as Hk.
    + rewrite IH. do 2 f_equal. apply set_eq. intros k.
      rewrite !elem_of_union, elem_of_singleton.
      split; [tauto|intros [?|[->|?]]; tauto].
    + simpl. rewrite IH. by rewrite (assoc_L (∪)).
Qed.

Lemma keep_all hits : ∀ seen,
  NoDup (key_of <$> hits) →
  Forall (fun h => key_of h ∉ seen) hits →
  keep seen hits = hits.
Proof.
  induction hits as [|h hits IH]; intros seen Hnd Hall; [done|]. simpl.
  apply NoDup_cons in Hnd as [Hh Hnd]. apply Forall_cons in Hall as [Hs Hall].
  rewrite bool_decide_eq_false_2 by done. f_equal. apply IH; [done|].
  apply Forall_forall. intros h' Hh'. rewrite Forall_forall in Hall.
  intros [?|Hk%elem_of_singleton]%elem_of_union; [by eapply Hall|].
  apply Hh. rewrite <-Hk. by apply list_elem_of_fmap_2.
Qed.

Lemma ascending_NoDup sps : ∀ lo,
  ascending lo sps → NoDup sps ∧ Forall (fun sp => lo ≤ fst sp) sps.
Proof.
  induction sps as [|[a b] sps IH]; intros lo; simpl.
  - intros _. split; constructor.
  - intros (Hlo & Hab & Hasc). destruct (IH _ Hasc) as [Hnd Hall]. split.
    + constructor; [|done]. intros Hin. rewrite Forall_forall in Hall.
      specialize (Hall _ Hin). simpl in Hall. lia.
    + constructor; [done|]. eapply Forall_impl; [exact Hall|]. simpl. lia.
Qed.

Lemma sql_hits_kind src h :
  h ∈ sql_hits_of src → hit_target_type h ≠ DECLARATION.
Proof.
  intros (stmt & Hh & _)%list_elem_of_bind.
  by apply block_hits_elem in Hh as [(t & r & sp & _ & ->)| ->].
Qed.

Lemma decl_hits_kind src h :
  h ∈ decl_hits_of src → hit_target_type h = DECLARATION.
Proof.
  intros (m & Hh & _)%list_elem_of_bind.
  by apply decl_hits_elem in Hh as [-> | ->].
Qed.

Lemma decl_hits_keys_NoDup src : NoDup (key_of <$> decl_hits_of src).
Proof.
  pose proof (decl_hits_ascending (finditer DECLARATION_RE src) 0
                (finditer_ascending DECLARATION_RE src ltac:(vm_compute; lia))) as Hasc.
  apply ascending_NoDup in Hasc as [Hnd _].
  eapply (NoDup_fmap_1 snd). by rewrite <-list_fmap_compose.
Qed.

Lemma findings_split src :
  findings_of src
  = (to_finding <$> first_occurrences (sql_hits_of src))
    ++ (to_finding <$> decl_hits_of src).
Proof.
  unfold findings_of. rewrite <-!keep_first_occurrences, keep_app, fmap_app.
  f_equal. f_equal. apply keep_all; [apply decl_hits_keys_NoDup|].
  apply Forall_forall. intros h Hh.
  intros [Hin|Hin]%elem_of_union; [by apply elem_of_empty in Hin|].
  apply elem_of_list_to_set, list_elem_of_fmap in Hin as (h' & Hk & Hh').
  apply sql_hits_kind in Hh'. apply decl_hits_kind in Hh.
  unfold key_of in Hk. congruence.
Qed.

(** ** Where a hit lies in the text *)

Lemma slice_within (pre mid post : list ascii) a b :
  b ≤ length mid →
  slice (pre ++ mid ++ post) (length pre + a) (length pre + b) = slice mid a b.
Proof.
  intros Hb. unfold slice.
  replace (length pre + b - (length pre + a)) with (b - a) by lia.
  rewrite drop_app_add. destruct (decide (a ≤ b)) as [Hab|Hab].
  - rewrite drop_app_le by lia. rewrite take_app_le; [done|].
    rewrite length_drop. lia.
  - replace (b - a) with 0 by lia. by rewrite !take_0.
Qed.

Lemma chars_of_list (l : list ascii) :
  list_ascii_of_string (string_of_list_ascii l) = l.
Proof. apply list_ascii_of_string_of_list_ascii. Qed.

Lemma reported_block_parts text stmt :
  reported SQL_SELECT_BLOCK_RE text stmt →
  ∃ sel mid frm sp tbl rst,
    slice text (m_start stmt) (m_end stmt)
    = sel ++ mid ++ frm ++ sp ++ tbl ++ rst
    ∧ Char.upper <$> sel = list_ascii_of_string "SELECT"
    ∧ mid ≠ []
    ∧ Char.upper <$> frm = list_ascii_of_string "FROM"
    ∧ sp ≠ [] ∧ Forall (fun c => Char.is_space c = true) sp
    ∧ tbl ≠ [] ∧ Forall (fun c => Char.is_word c = true) tbl
    ∧ group stmt "table" = Some (string_of_list_ascii tbl)
    ∧ group stmt "rest" = Some (string_of_list_ascii rst)
    ∧ word_at (last (take (m_start stmt) text)) = false
    ∧ word_at (text !! (m_end stmt - length rst)) = false
    ∧ first_end text (m_end stmt - length rst) (m_end stmt).
Proof.
  intros Hrep.
  destruct (block_anatomy _ _ (reported_arises _ _ _ Hrep))
    as (sel & mid & frm & sp & tbl & rst & Hs & Hsel & Nmid & Hfrm & Nsp & Hsp
        & Ntbl & Htbl & Gt & Gr & Cr & Hend & Hb).
  destruct Hrep as (bef & aft & st & Ht & Hh & ->).
  destruct (block_head text (Cursor bef aft) st Ht Hh) as (i & j & _ & Cj & Hj & Hmin).
  cbn [mk_match m_start m_end m_groups] in *.
  rewrite Cj in Cr. injection Cr as ->.
  exists sel, mid, frm, sp, tbl, rst.
  do 11 (split; [done|]).
  split; [|by split].
  destruct (text !! (pos (cur st) - length rst)) as [c|]; [|done]. exact Hj.
Qed.

Lemma finditer_bounds p s m :
  m ∈ finditer p s → m_start m ≤ m_end m ∧ m_end m ≤ String.length s.
Proof.
  intros Hm%finditer_arises.
  apply arises_bounds in Hm as (_ & ? & ? & _). by rewrite length_chars in *.
Qed.

(** The trailing region of a block is the text right before the block's end. *)
Lemma rest_in_text text stmt rst :
  arises SQL_SELECT_BLOCK_RE text stmt →
  group stmt "rest" = Some rst →
  ∃ pre post,
    text = pre ++ list_ascii_of_string rst ++ post
    ∧ length pre = m_end stmt - String.length rst
    ∧ String.length rst ≤ m_end stmt.
Proof.
  intros Har Hg.
  destruct (arises_bounds _ _ _ Har) as (_ & Hse & Hel & _).
  destruct (block_anatomy _ _ Har)
    as (sel & mid & frm & sp & tbl & rst' & Hs & _ & _ & _ & _ & _ & _ & _ & _
        & Gr & _).
  rewrite Hg in Gr. injection Gr as ->.
  rewrite chars_of_list, <-length_chars, chars_of_list.
  assert (length (slice text (m_start stmt) (m_end stmt)) = m_end stmt - m_start stmt)
    as Hlen by (unfold slice; rewrite length_take, length_drop; lia).
  pose proof (slice_decompose text (m_start stmt) (m_end stmt)) as Hd.
  rewrite Hs in Hd, Hlen. rewrite !length_app in Hlen.
  exists (take (m_start stmt) text ++ sel ++ mid ++ frm ++ sp ++ tbl),
         (drop (m_end stmt - m_start stmt) (drop (m_start stmt) text)).
  split; [rewrite Hd at 1; by rewrite <-!(assoc_L (++))|].
  rewrite !length_app, length_take. lia.
Qed.

(** ** Upper case, once more *)

Lemma upper_str_fixed c : Forall (fun d => Char.upper_str d = [d]) (Char.upper_str c).
Proof.
  pose proof (ascii_forall
    (fun c => forallb (fun d => match Char.upper_str d with
                                | [e] => Ascii.eqb e d
                                | _ => false
                                end) (Char.upper_str c))) as H.
  specialize (H ltac:(vm_compute; reflexivity) c). cbv beta in H.
  rewrite forallb_forall in H. apply Forall_forall. intros d Hd.
  apply list_elem_of_In, H in Hd.
  destruct (Char.upper_str d) as [|e [|? ?]]; [done| |done].
  by apply Ascii.eqb_eq in Hd as ->.
Qed.

Lemma bind_fixed {A} (f : A → list A) (w : list A) :
  Forall (fun d => f d = [d]) w → w ≫= f = w.
Proof.
  induction 1 as [|d w Hd _ IH]; [done|]. by rewrite bind_cons, Hd, IH.
Qed.

Lemma upper_idem s : upper (upper s) = upper s.
Proof.
  unfold upper. rewrite list_ascii_of_string_of_list_ascii. f_equal.
  induction (list_ascii_of_string s) as [|c l IH]; [done|].
  rewrite bind_cons, bind_app, IH. f_equal.
  apply bind_fixed, upper_str_fixed.
Qed.

(** ** Letter case *)

Lemma lower_keeps x :
  Char.upper (Char.lower x) = Char.upper x
  ∧ Char.is_word (Char.lower x) = Char.is_word x
  ∧ Char.is_space (Char.lower x) = Char.is_space x
  ∧ Char.eqb (Char.lower x) "010" = Char.eqb x "010"
  ∧ Char.upper_str (Char.lower x) = Char.upper_str x.
Proof.
  pose proof (ascii_forall
    (fun x =>
       Ascii.eqb (Char.upper (Char.lower x)) (Char.upper x)
       && Bool.eqb (Char.is_word (Char.lower x)) (Char.is_word x)
       && Bool.eqb (Char.is_space (Char.lower x)) (Char.is_space x)
       && Bool.eqb (Char.eqb (Char.lower x) "010") (Char.eqb x "010")
       && match Char.upper_str (Char.lower x), Char.upper_str x with
          | [a], [b] => Ascii.eqb a b
          | [a1; a2], [b1; b2] => Ascii.eqb a1 b1 && Ascii.eqb a2 b2
          | _, _ => false
          end)) as H.
  specialize (H ltac:(vm_compute; reflexivity) x). cbv beta in H.
  repeat (apply andb_true_iff in H as [H ?]).
  repeat split; try (by apply Bool.eqb_prop); [by apply Ascii.eqb_eq|].
  destruct (Char.upper_str (Char.lower x)) as [|a1 [|a2 [|? ?]]],
           (Char.upper_str x) as [|b1 [|b2 [|? ?]]]; try done.
  - f_equal. by apply Ascii.eqb_eq.
  - match goal with
    | H : _ && _ = true |- _ =>
        apply andb_true_iff in H as [?%Ascii.eqb_eq ?%Ascii.eqb_eq]
    end.
    by subst.
Qed.

Lemma same_letter_facts x y :
  same_letter x y →
  Char.upper x = Char.upper y
  ∧ Char.is_word x = Char.is_word y
  ∧ Char.is_space x = Char.is_space y
  ∧ Char.eqb x "010" = Char.eqb y "010"
  ∧ Char.upper_str x = Char.upper_str y.
Proof.
  unfold same_letter. intros Hxy.
  destruct (lower_keeps x) as (<- & <- & <- & <- & <-).
  destruct (lower_keeps y) as (<- & <- & <- & <- & <-).
  by rewrite Hxy.
Qed.

Lemma own_case x : x = Char.lower x ∨ x = Char.upper x.
Proof.
  pose proof (ascii_forall
    (fun x => Ascii.eqb x (Char.lower x) || Ascii.eqb x (Char.upper x))) as H.
  specialize (H ltac:(vm_compute; reflexivity) x). cbv beta in H.
  apply orb_true_iff in H as [H|H]; apply Ascii.eqb_eq in H; auto.
Qed.

Lemma atom_ok_same fl a x y :
  IGNORECASE fl = true → same_letter x y → atom_ok fl a x = atom_ok fl a y.
Proof.
  intros Hfl Hxy.
  destruct (same_letter_facts _ _ Hxy) as (Hu & Hw & Hs & Hn & _).
  unfold atom_ok. rewrite Hfl. destruct a as [c| | | |items]; cbn [andb].
  - by rewrite Hxy.
  - by rewrite Hn.
  - done.
  - done.
  - assert (∀ z, in_ranges items z
                 || (in_ranges items (Char.lower z) || in_ranges items (Char.upper z))
                 = in_ranges items (Char.lower z) || in_ranges items (Char.upper z))
      as Hz.
    { intros z. destruct (own_case z) as [E|E]; rewrite <-E;
        by destruct (in_ranges items z), (in_ranges items (Char.lower z)),
             (in_ranges items (Char.upper z)). }
    by rewrite (Hz x), (Hz y), Hxy, Hu.
Qed.

Lemma word_at_same l l' :
  same_text l l' → word_at (head l) = word_at (head l').
Proof.
  intros [|x y l1 l2 Hxy _]; [done|]. simpl.
  by destruct (same_letter_facts _ _ Hxy) as (_ & ? & _).
Qed.

Lemma at_boundary_same c c' : same_cursor c c' → at_boundary c = at_boundary c'.
Proof.
  intros [Hb Ha]. unfold at_boundary.
  by rewrite (word_at_same _ _ Hb), (word_at_same _ _ Ha).
Qed.

Lemma at_end_same c c' : same_cursor c c' → at_end c = at_end c'.
Proof.
  intros [_ Ha]. unfold at_end.
  destruct Ha as [|x y l1 l2 Hxy Hl]; [done|].
  destruct Hl; [|done].
  by destruct (same_letter_facts _ _ Hxy) as (_ & _ & _ & ? & _).
Qed.

Lemma same_cursor_pos c c' : same_cursor c c' → pos c = pos c'.
Proof. intros [Hb _]. unfold pos. by eapply Forall2_length. Qed.

Lemma run_same fl a aft : ∀ aft' bef bef',
  IGNORECASE fl = true →
  same_text bef bef' → same_text aft aft' →
  Forall2 same_cursor (run fl a bef aft) (run fl a bef' aft').
Proof.
  induction aft as [|x xs IH]; intros aft' bef bef' Hfl Hb Ha;
    inversion Ha as [|? y ? ys Hxy Hxs]; subst; simpl.
  - by repeat constructor.
  - constructor; [by split|].
    rewrite (atom_ok_same fl a x y Hfl Hxy).
    destruct (atom_ok fl a y); [|constructor].
    apply IH; [done| |done]. by constructor.
Qed.

Lemma matches_same fl r :
  IGNORECASE fl = true →
  ∀ st st', same_state st st' →
            Forall2 same_state (matches fl r st) (matches fl r st').
Proof.
  intros Hfl.
  induction r as [|a|a min greedy| | |r1 IH1 r2 IH2|r1 IH1 r2 IH2|n r IH|r IH];
    intros st st' [[Hb Ha] Hc]; cbn [matches].
  - by repeat constructor.
  - destruct Ha as [|x y xs ys Hxy Hxs]; [constructor|].
    rewrite (atom_ok_same fl a x y Hfl Hxy).
    destruct (atom_ok fl a y); [|constructor].
    repeat constructor; simpl; try done.
  - apply Forall2_fmap_2.
    assert (Forall2 same_cursor
              (drop min (run fl a (before (cur st)) (after (cur st))))
              (drop min (run fl a (before (cur st')) (after (cur st'))))) as Hr
      by (by apply Forall2_drop, run_same).
    destruct greedy; [apply Forall2_reverse in Hr|];
      (eapply Forall2_impl; [exact Hr|]); intros c c' Hcc; by split.
  - rewrite (at_boundary_same (cur st) (cur st')) by done.
    destruct (at_boundary (cur st')); by repeat constructor.
  - rewrite (at_end_same (cur st) (cur st')) by done.
    destruct (at_end (cur st')); by repeat constructor.
  - apply Forall2_bind.
    eapply Forall2_impl; [apply IH1; by repeat split|]. intros s s' Hs. by apply IH2.
  - apply Forall2_app; [apply IH1|apply IH2]; by repeat split.
  - apply Forall2_fmap_2.
    eapply Forall2_impl; [apply IH; by repeat split|].
    intros s s' [Hcc Hcaps]. split; [done|]. simpl.
    by rewrite Hcaps, (same_cursor_pos _ _ Hcc),
      (same_cursor_pos (cur st) (cur st') ltac:(by split)).
  - destruct (IH st st' ltac:(by repeat split)) as [|s s' l l' [_ Hcaps] _];
      [constructor|].
    repeat constructor; simpl; done.
Qed.

Lemma filter_same {A} (R : A → A → Prop) (f : A → bool) l l' :
  (∀ x y, R x y → f x = f y) →
  Forall2 R l l' → Forall2 R (List.filter f l) (List.filter f l').
Proof.
  intros Hf. induction 1 as [|x y l l' Hxy _ IH]; simpl; [constructor|].
  rewrite (Hf _ _ Hxy). destruct (f y); [by constructor|done].
Qed.

Lemma match_at_same p c c' adv :
  IGNORECASE (p_flags p) = true → same_cursor c c' →
  option_Forall2 same_state (match_at p c adv) (match_at p c' adv).
Proof.
  intros Hfl Hcc. unfold match_at.
  assert (Forall2 same_state
            (List.filter (fun st => negb adv || negb (pos (cur st) =? pos c))
               (matches (p_flags p) (p_re p) (MState c ∅)))
            (List.filter (fun st => negb adv || negb (pos (cur st) =? pos c'))
               (matches (p_flags p) (p_re p) (MState c' ∅)))) as H.
  { rewrite <-(same_cursor_pos _ _ Hcc). apply filter_same.
    - intros s s' [Hs _]. by rewrite (same_cursor_pos _ _ Hs).
    - by apply matches_same. }
  destruct H; by constructor.
Qed.

Lemma mk_match_same text text' c c' st st' :
  same_text text text' → same_cursor c c' → same_state st st' →
  same_match (mk_match text c st) (mk_match text' c' st').
Proof.
  intros Ht Hc [Hs Hcaps]. unfold same_match, mk_match. simpl.
  by rewrite (same_cursor_pos _ _ Hc), (same_cursor_pos _ _ Hs).
Qed.

Lemma matches_here_same p text text' c c' :
  IGNORECASE (p_flags p) = true →
  same_text text text' → same_cursor c c' →
  Forall2 same_match (matches_here p text c) (matches_here p text' c').
Proof.
  intros Hfl Ht Hc. unfold matches_here.
  destruct (match_at_same p c c' false Hfl Hc) as [st st' Hst|]; [|constructor].
  pose proof (mk_match_same _ _ _ _ _ _ Ht Hc Hst) as Hm.
  pose proof Hm as (_ & Hs & He & _). rewrite Hs, He.
  destruct (_ =? _).
  - constructor; [done|].
    destruct (match_at_same p c c' true Hfl Hc) as [q q' Hqq|]; [|constructor].
    constructor; [|constructor]. by apply mk_match_same.
  - constructor; [done|constructor].
Qed.

Lemma to_skip_same ms ms' : Forall2 same_match ms ms' → to_skip ms = to_skip ms'.
Proof.
  intros H. unfold to_skip.
  assert (option_Forall2 same_match (last ms) (last ms')) as Hl.
  { induction H as [|m m' l l' Hm Hl IH]; [constructor|].
    destruct Hl; [by constructor|]. exact IH. }
  destruct Hl as [m m' (_ & Hs & He & _)|]; [|done]. by rewrite Hs, He.
Qed.

Lemma finditer_from_same p text text' aft : ∀ aft' skip bef bef',
  IGNORECASE (p_flags p) = true →
  same_text text text' → same_text bef bef' → same_text aft aft' →
  Forall2 same_match (finditer_from p text skip bef aft)
                     (finditer_from p text' skip bef' aft').
Proof.
  induction aft as [|x xs IH]; intros aft' skip bef bef' Hfl Ht Hb Ha;
    inversion Ha as [|? y ? ys Hxy Hxs]; subst; destruct skip as [|k]; simpl.
  - rewrite !app_nil_r. apply matches_here_same; [done..|by split].
  - constructor.
  - pose proof (matches_here_same p text text' (Cursor bef (x :: xs))
                  (Cursor bef' (y :: ys)) Hfl Ht ltac:(by split)) as Hm.
    apply Forall2_app; [done|].
    rewrite (to_skip_same _ _ Hm). apply IH; [done..|by constructor|done].
  - apply IH; [done..|by constructor|done].
Qed.

Lemma finditer_same p s s' :
  IGNORECASE (p_flags p) = true → same_letters s s' →
  Forall2 same_match (finditer p s) (finditer p s').
Proof.
  intros Hfl Hs. apply finditer_from_same; [done|done|constructor|done].
Qed.

Lemma search_from_same p text text' aft : ∀ aft' bef bef',
  IGNORECASE (p_flags p) = true →
  same_text bef bef' → same_text aft aft' →
  is_Some (search_from p text bef aft) ↔ is_Some (search_from p text' bef' aft').
Proof.
  induction aft as [|x xs IH]; intros aft' bef bef' Hfl Hb Ha;
    inversion Ha as [|? y ? ys Hxy Hxs]; subst; simpl.
  - destruct (match_at_same p (Cursor bef []) (Cursor bef' []) false Hfl
                ltac:(by split)) as [? ? _|]; [|done].
    split; intros _; eauto.
  - destruct (match_at_same p (Cursor bef (x :: xs)) (Cursor bef' (y :: ys)) false
                Hfl ltac:(by split)) as [? ? _|].
    + split; intros _; eauto.
    + apply IH; [done|by constructor|done].
Qed.

Lemma slice_same s s' i j : same_text s s' → same_text (slice s i j) (slice s' i j).
Proof. intros H. by apply Forall2_take, Forall2_drop. Qed.

Lemma upper_same g g' : same_letters g g' → upper g = upper g'.
Proof.
  unfold same_letters, upper. intros H. f_equal.
  induction H as [|x y l l' Hxy _ IH]; [done|].
  rewrite !bind_cons, IH.
  by destruct (same_letter_facts _ _ Hxy) as (_ & _ & _ & _ & ->).
Qed.

Lemma group_same m m' name :
  same_match m m' → option_Forall2 same_letters (group m name) (group m' name).
Proof.
  intros (Hs & _ & _ & Hg). unfold group. rewrite Hg.
  destruct (m_groups m' !! name) as [[i j]|]; constructor.
  unfold same_letters. rewrite !chars_of_list. by apply slice_same.
Qed.

Lemma group0_same m m' : same_match m m' → same_letters (group0 m) (group0 m').
Proof.
  intros (Hs & Hb & He & _). unfold group0, same_letters.
  rewrite !chars_of_list, Hb, He. by apply slice_same.
Qed.

Lemma span_same m m' : same_match m m' → span m = span m'.
Proof. intros (_ & Hb & He & _). unfold span. by rewrite Hb, He. Qed.

Lemma table_hits_same g g' sp : same_letters g g' → table_hits g sp = table_hits g' sp.
Proof. intros H. unfold table_hits. by rewrite (upper_same _ _ H). Qed.

Lemma bind_same {A B} (R : A → A → Prop) (f : A → list B) l l' :
  (∀ x y, R x y → f x = f y) → Forall2 R l l' → l ≫= f = l' ≫= f.
Proof.
  intros Hf. induction 1 as [|x y l l' Hxy _ IH]; [done|].
  by rewrite !bind_cons, (Hf _ _ Hxy), IH.
Qed.

Lemma join_hits_same jm jm' : same_match jm jm' → join_hits jm = join_hits jm'.
Proof.
  intros H. unfold join_hits. rewrite (span_same _ _ H).
  destruct (group_same _ _ "table" H) as [g g' Hg|]; [|done].
  by apply table_hits_same.
Qed.

Lemma search_same p s s' :
  IGNORECASE (p_flags p) = true → same_letters s s' →
  is_Some (search p s) ↔ is_Some (search p s').
Proof. intros Hfl Hs. apply search_from_same; [done|constructor|done]. Qed.

Lemma field_hits_same stmt stmt' :
  same_match stmt stmt' → field_hits stmt = field_hits stmt'.
Proof.
  intros H. unfold field_hits. rewrite (span_same _ _ H).
  pose proof (search_same VBTYP_EXT_RE _ _ eq_refl (group0_same _ _ H)) as Hs.
  by rewrite (bool_decide_ext _ _ Hs).
Qed.

Lemma block_hits_same stmt stmt' :
  same_match stmt stmt' → block_hits stmt = block_hits stmt'.
Proof.
  intros H. unfold block_hits.
  rewrite (span_same _ _ H), (field_hits_same _ _ H).
  destruct (group_same _ _ "table" H) as [g g' Hg|]; [|done].
  destruct (group_same _ _ "rest" H) as [rt rt' Hrt|]; [|done].
  rewrite (table_hits_same _ _ _ Hg). do 2 f_equal.
  eapply bind_same; [apply join_hits_same|].
  by apply finditer_same.
Qed.

Lemma decl_hits_same m m' : same_match m m' → decl_hits m = decl_hits m'.
Proof.
  intros H. unfold decl_hits. rewrite (span_same _ _ H).
  destruct (group_same _ _ "field" H) as [g g' Hg|]; [|done].
  by rewrite (upper_same _ _ Hg).
Qed.

Lemma findings_of_same src src' :
  same_letters src src' → findings_of src = findings_of src'.
Proof.
  intros H. unfold findings_of, sql_hits_of, decl_hits_of.
  rewrite (bind_same same_match block_hits _ _ block_hits_same
             (finditer_same SQL_SELECT_BLOCK_RE src src' eq_refl H)).
  by rewrite (bind_same same_match decl_hits _ _ decl_hits_same
                (finditer_same DECLARATION_RE src src' eq_refl H)).
Qed.

(** ** Keywords and FROM clauses by position *)





(** ** Building a match *)





(** ** The block pattern from its FROM on *)



(** ** Cursors by position *)







(** ** The block pattern matches wherever a SELECT has a FROM clause later *)




(** ** The FROM clause that a block takes *)




(** ** No place where the pattern matches is passed over *)




(** ** Lists of growing positions *)







(** ** Characters of a keyword and of a FROM clause *)




(** ** Blocks of a text in which every SELECT has its own FROM clause *)






(** ** First occurrence wins *)





(** ** The order of the hits of a block *)




(** * The properties C1 to C10 *)

(** ** C1 *)

(** C1 (catalog completeness). For every key [t] of the obsolete-tables
    catalog, with replacement [r], a unit whose source text is exactly
    [SELECT * FROM t] gets exactly one finding: its kind is TABLE, its target
    name is [t], its field is absent and its suggested replacements are the
    one-element list [[r]]. *)
Theorem catalog_completeness (t r : string) (u : Unit) :
  SQL_TABLES !! t = Some r →
  code u = Some ("SELECT * FROM " +:+ t) →
  assess [u]
  = Ok [{| unit := u;
           selects :=
             [{| table := Some t;
                 field := None;
                 target_type := TABLE;
                 target_name := t;
                 start_char_in_unit := 0;
                 end_char_in_unit := 18;
                 used_fields := [t];
                 ambiguous := false;
                 suggested_fields := Some [r];
                 suggested_statement :=
                   "* TODO: Table " +:+ t
                   +:+ " obsolete in S/4HANA (Note 2198647). Replace with "
                   +:+ r +:+ "." |}] |}].
Proof.
  intros Ht Hc. rewrite assess_eq. cbn [fmap list_fmap]. unfold record_of, src_of.
  rewrite Hc.
  apply SQL_TABLES_lookup in Ht as [[-> ->]|[-> ->]];
    do 3 f_equal; vm_compute; reflexivity.
Qed.

Lemma catalog_completeness_witness :
  SQL_TABLES !! "VBUK" = Some "VBAK"
  ∧ code (unit_with "SELECT * FROM VBUK") = Some ("SELECT * FROM " +:+ "VBUK")
  ∧ ∃ f, assess [unit_with "SELECT * FROM VBUK"]
         = Ok [{| unit := unit_with "SELECT * FROM VBUK"; selects := [f] |}]
         ∧ target_type f = TABLE ∧ target_name f = "VBUK"
         ∧ field f = None ∧ suggested_fields f = Some ["VBAK"].
Proof.
  split; [reflexivity|]. split; [reflexivity|].
  eexists. split.
  - apply (catalog_completeness "VBUK" "VBAK" (unit_with "SELECT * FROM VBUK"));
      reflexivity.
  - repeat split.
Defined.

(** ** C2 *)

(** C2 (span of a JOIN hit, as the code computes it). On
    [SELECT a FROM X JOIN VBUK ON b] the one hit is the TABLE hit of the JOIN
    clause, and its span is [(1, 10)]: the place of [JOIN VBUK] inside the
    block's trailing region [ JOIN VBUK ON b]. The finding carries these
    numbers as its offsets in the unit, where the text at [(1, 10)] is
    [ELECT a F] and the clause lies at [(16, 25)]. *)
Theorem join_span_counted_from_rest :
  let src := "SELECT a FROM X JOIN VBUK ON b" in
  let text := list_ascii_of_string src in
  (∃ h, scan_sql src = Ok [h]
        ∧ hit_target_type h = TABLE ∧ hit_target_name h = "VBUK"
        ∧ hit_span h = (1, 10))
  ∧ (∃ f, unit_findings src = Ok [f]
          ∧ target_type f = TABLE ∧ target_name f = "VBUK"
          ∧ start_char_in_unit f = 1 ∧ end_char_in_unit f = 10)
  ∧ string_of_list_ascii (slice text 1 10) = "ELECT a F"
  ∧ string_of_list_ascii (slice text 16 25) = "JOIN VBUK"
  ∧ (fun m => (span m, group m "rest")) <$> finditer SQL_SELECT_BLOCK_RE src
    = [((0, 30), Some " JOIN VBUK ON b")].
Proof.
  cbv zeta.
  split; [eexists; split; [vm_compute; reflexivity|repeat split]|].
  split; [eexists; split; [vm_compute; reflexivity|repeat split]|].
  repeat split; vm_compute; reflexivity.
Qed.

(** ** C3 *)




(** ** C4 *)

(** C4 (one SQL-field hit per block). The hits of a scan are the hits of its
    blocks, block after block. For every block: if the token VBTYP_EXT occurs
    in the block's text as a whole word, in any letter case, then exactly one
    of the block's hits is an SQL_FIELD hit; it spans the whole block, its
    field and target name are VBTYP_EXT and it suggests no replacement. If
    the token does not occur, the block has no SQL_FIELD hit. A block with
    three occurrences yields one such hit. *)
Theorem sql_field_once (src : string) :
  (∃ per_block,
     scan_sql src = Ok (concat per_block)
     ∧ Forall2
         (fun stmt hits =>
            (∀ results, scan_block results stmt = Ok (results ++ hits))
            ∧ ((token_occurs "VBTYP_EXT" (group0 stmt)
                ∧ List.filter is_sql_field hits
                  = [{| hit_target_type := SQL_FIELD;
                        hit_target_name := "VBTYP_EXT";
                        hit_field := Some "VBTYP_EXT";
                        hit_span := span stmt;
                        hit_used_fields := ["VBTYP_EXT"];
                        hit_suggested_fields := None;
                        hit_suggested_statement :=
                          "* TODO: Field VBTYP_EXT obsolete (Note 2198647). Remove usage." |}])
               ∨ (¬ token_occurs "VBTYP_EXT" (group0 stmt)
                  ∧ List.filter is_sql_field hits = [])))
         (finditer SQL_SELECT_BLOCK_RE src) per_block)
  ∧ scan_sql "SELECT vbtyp_ext FROM t WHERE VBTYP_EXT = 1 OR Vbtyp_Ext = 2."
    = Ok [{| hit_target_type := SQL_FIELD;
             hit_target_name := "VBTYP_EXT";
             hit_field := Some "VBTYP_EXT";
             hit_span := (0, 61);
             hit_used_fields := ["VBTYP_EXT"];
             hit_suggested_fields := None;
             hit_suggested_statement :=
               "* TODO: Field VBTYP_EXT obsolete (Note 2198647). Remove usage." |}].
Proof.
  split; [|vm_compute; reflexivity].
  exists (block_hits <$> finditer SQL_SELECT_BLOCK_RE src).
  split; [by rewrite scan_sql_eq, bind_concat|].
  apply Forall2_fmap_diag, Forall_forall. intros stmt Hs%finditer_arises.
  split; [intros results; by eapply scan_block_eq|].
  rewrite (block_hits_fields _ _ Hs). unfold field_hits.
  destruct (decide (is_Some (search VBTYP_EXT_RE (group0 stmt)))) as [Hy|Hn].
  - left. rewrite bool_decide_eq_true_2 by done.
    split; [by apply search_VBTYP_EXT|done].
  - right. rewrite bool_decide_eq_false_2 by done.
    split; [by rewrite <-search_VBTYP_EXT|done].
Qed.

(** ** C5 *)

(** C5 (declaration renamed or removed). A unit whose source contains
    [DATA x TYPE VBTYP.], whatever stands before and after it, gets a
    DECLARATION finding for VBTYP at that place; it suggests [[VBTYPL]] and
    its comment names VBTYPL as the lengthened data element. A unit whose
    source contains [DATA y TYPE VBTYP_EXT.] gets a DECLARATION finding for
    VBTYP_EXT with no suggested replacement and a remove-usage comment. When
    the source is just the statement, that finding is the only one. *)
Theorem declaration_renamed_vs_removed (pre post : string) :
  (∃ fs,
     unit_findings (pre +:+ "DATA x TYPE VBTYP." +:+ post) = Ok fs
     ∧ {| table := None;
          field := Some "VBTYP";
          target_type := DECLARATION;
          target_name := "VBTYP";
          start_char_in_unit := String.length pre + 7;
          end_char_in_unit := String.length pre + 7 + 10;
          used_fields := ["VBTYP"];
          ambiguous := false;
          suggested_fields := Some ["VBTYPL"];
          suggested_statement :=
            "* TODO: Data element VBTYP was lengthened (Note 2198647). Use VBTYPL." |}
       ∈ fs)
  ∧ (∃ fs,
       unit_findings (pre +:+ "DATA y TYPE VBTYP_EXT." +:+ post) = Ok fs
       ∧ {| table := None;
            field := Some "VBTYP_EXT";
            target_type := DECLARATION;
            target_name := "VBTYP_EXT";
            start_char_in_unit := String.length pre + 7;
            end_char_in_unit := String.length pre + 7 + 14;
            used_fields := ["VBTYP_EXT"];
            ambiguous := false;
            suggested_fields := None;
            suggested_statement :=
              "* TODO: Field VBTYP_EXT obsolete (Note 2198647). Remove usage." |}
         ∈ fs)
  ∧ unit_findings "DATA x TYPE VBTYP." = Ok [vbtyp_finding 7]
  ∧ unit_findings "DATA y TYPE VBTYP_EXT." = Ok [vbtyp_ext_finding 7].
Proof.
  split; [|split; [|split; vm_compute; reflexivity]].
  - exists (findings_of (pre +:+ "DATA x TYPE VBTYP." +:+ post)).
    split; [apply unit_findings_eq|].
    rewrite <-(string_of_list_ascii_of_string (pre +:+ _)), !chars_app.
    rewrite <-length_chars. apply vbtyp_in_context.
  - exists (findings_of (pre +:+ "DATA y TYPE VBTYP_EXT." +:+ post)).
    split; [apply unit_findings_eq|].
    rewrite <-(string_of_list_ascii_of_string (pre +:+ _)), !chars_app.
    rewrite <-length_chars. apply vbtyp_ext_in_context.
Qed.

(** ** C6 *)



(** Two hits with one key: the FROM table of the first block and the JOIN
    table of the second, whose span is counted from the block's trailing
    region. The second is dropped. *)
Example duplicate_key_dropped :
  let src := " SELECT a FROM VBUK SELECT b FROM X JOIN           VBUK" in
  key_of <$> sql_hits_of src = [(TABLE, "VBUK", (1, 20)); (TABLE, "VBUK", (1, 20))]
  ∧ (fun f => (target_type f, target_name f, start_char_in_unit f, end_char_in_unit f))
    <$> findings_of src = [(TABLE, "VBUK", 1, 20)].
Proof. split; vm_compute; reflexivity. Qed.

(** ** C7 *)

(** C7 (positional output). For every sequence of units the response has as
    many records as there are units, and the record at each position carries
    the unit at that position together with the findings of that unit. *)
Theorem assess_positional (units : list Unit) :
  ∃ out,
    assess units = Ok out
    ∧ length out = length units
    ∧ (∀ i, unit <$> out !! i = units !! i)
    ∧ Forall2
        (fun u r => unit r = u ∧ unit_findings (src_of u) = Ok (selects r))
        units out.
Proof.
  exists (record_of <$> units). split; [apply assess_eq|].
  split; [apply length_fmap|]. split.
  - intros i. rewrite list_lookup_fmap. by destruct (units !! i).
  - apply Forall2_fmap_diag, Forall_forall. intros u _.
    split; [done|apply unit_findings_eq].
Qed.

(** ** C8 *)

(** C8 (the catalog look-up of the table comment cannot fail). The table
    comment raises a key error exactly on a name outside the catalog. For
    every source text the SQL scanner returns normally, and each TABLE hit
    carries a catalog key together with the comment made for that key; so for
    every sequence of units the endpoint returns normally. *)
Theorem comment_table_lookup_unreachable :
  (∀ tbl,
     comment_table tbl
     = match SQL_TABLES !! tbl with
       | Some repl =>
           Ok ("* TODO: Table " +:+ upper tbl
               +:+ " obsolete in S/4HANA (Note 2198647). Replace with "
               +:+ repl +:+ ".")
       | None => Raise (KeyError tbl)
       end)
  ∧ (∀ src, ∃ hits,
       scan_sql src = Ok hits
       ∧ Forall (fun h =>
                   match hit_target_type h with
                   | TABLE =>
                       is_Some (SQL_TABLES !! hit_target_name h)
                       ∧ comment_table (hit_target_name h)
                         = Ok (hit_suggested_statement h)
                   | SQL_FIELD | DECLARATION => True
                   end) hits)
  ∧ (∀ units, ∃ out, assess units = Ok out).
Proof.
  split.
  { intros tbl. unfold comment_table, getitem. by destruct (SQL_TABLES !! tbl). }
  split.
  { intros src. exists (sql_hits_of src). split; [apply scan_sql_eq|].
    apply Forall_forall. intros h (stmt & Hh & _)%list_elem_of_bind.
    apply block_hits_elem in Hh as [(t & r & sp & Hl & ->)| ->]; [|done].
    simpl. split; [eauto|].
    apply SQL_TABLES_lookup in Hl as [[-> ->]|[-> ->]]; reflexivity. }
  intros units. eexists. apply assess_eq.
Qed.

(** ** C9 *)

(** C9 (determinism). Every unit has one finding list: scanning the unit
    alone yields it, scanning the unit twice in one request yields it twice,
    and scanning the unit anywhere in a request, whatever was scanned before
    it, yields it at the unit's position. *)
Theorem scan_deterministic (u : Unit) :
  ∃ fs,
    unit_findings (src_of u) = Ok fs
    ∧ assess [u] = Ok [{| unit := u; selects := fs |}]
    ∧ assess [u; u]
      = Ok [{| unit := u; selects := fs |}; {| unit := u; selects := fs |}]
    ∧ ∀ earlier later, ∃ o1 o2,
        assess (earlier ++ u :: later)
        = Ok (o1 ++ {| unit := u; selects := fs |} :: o2)
        ∧ length o1 = length earlier.
Proof.
  exists (findings_of (src_of u)).
  split; [apply unit_findings_eq|]. split; [apply assess_eq|].
  split; [apply assess_eq|].
  intros earlier later.
  exists (record_of <$> earlier), (record_of <$> later).
  rewrite assess_eq, fmap_app, length_fmap. done.
Qed.

(** ** C10 *)

(** C10 (shape of a finding). Every finding of every response satisfies: an
    SQL_FIELD or DECLARATION finding has its target name as field; a TABLE
    finding has no field, has its target name as table and suggests exactly
    one replacement; the ambiguous flag is false; the target name is in upper
    case, as with the lower-case text of the example. *)
Theorem findings_well_formed (units : list Unit) :
  (∃ out,
     assess units = Ok out
     ∧ Forall (fun r => Forall finding_ok (selects r)) out)
  ∧ ∃ fs,
      unit_findings
        "select a from vbuk join vbup on x where vbtyp_ext = 1. data y like vbtyp."
      = Ok fs
      ∧ target_name <$> fs = ["VBUK"; "VBUP"; "VBTYP_EXT"; "VBTYP"].
Proof.
  split.
  - exists (record_of <$> units). split; [apply assess_eq|].
    apply Forall_fmap, Forall_forall. intros u _. apply findings_of_ok.
  - eexists. split; [apply unit_findings_eq|]. vm_compute. reflexivity.
Qed.

(** * The properties X1 to X11 *)

(** ** X1 *)

(** X1 (names of findings). Every finding of a unit names an entry of the
    catalog of its kind: a TABLE finding a key of the obsolete-tables catalog,
    an SQL_FIELD finding a member of the SQL-field set, a DECLARATION finding a
    key of the changed data elements or a member of the obsolete ones. The
    name stands in the unit's text, in some letter case. *)
Theorem finding_names_occur (src : string) :
  ∃ fs,
    unit_findings src = Ok fs
    ∧ Forall
        (fun f =>
           contains_ci (list_ascii_of_string (target_name f))
                       (list_ascii_of_string src) = true
           ∧ match target_type f with
             | TABLE => is_Some (SQL_TABLES !! target_name f)
             | SQL_FIELD => target_name f ∈ SQL_FIELDS
             | DECLARATION =>
                 is_Some (DECL_FIELDS !! target_name f)
                 ∨ target_name f ∈ DECL_FIELDS_OBS
             end)
        fs.
Proof.
  exists (findings_of src). split; [apply unit_findings_eq|].
  apply Forall_forall. intros f (h & Hh & ->)%findings_of_elem.
  split; [by apply hit_name_occurs|by apply (hit_name_catalog src)].
Qed.

(** ** X2 *)

(** X2 (a unit without the names). When the text of a unit holds none of
    VBUK, VBUP and VBTYP in any letter case, the unit is recorded with an
    empty finding list, whatever SELECT statements and declarations it has. *)
Theorem unit_without_names (results : list UnitRecord) (u : Unit) :
  contains_ci (list_ascii_of_string "VBUK") (list_ascii_of_string (src_of u)) = false →
  contains_ci (list_ascii_of_string "VBUP") (list_ascii_of_string (src_of u)) = false →
  contains_ci (list_ascii_of_string "VBTYP") (list_ascii_of_string (src_of u)) = false →
  assess_unit results u = Ok (results ++ [{| unit := u; selects := [] |}]).
Proof.
  intros H1 H2 H3. unfold assess_unit. rewrite unit_findings_eq.
  cbn [mbind result_bind].
  destruct (findings_of (src_of u)) as [|f fs] eqn:E; [done|].
  assert (f ∈ findings_of (src_of u)) as Hf by (rewrite E; left).
  apply findings_of_elem in Hf as (h & Hh & _).
  pose proof (hit_name_occurs _ _ Hh) as Ho.
  destruct (hit_name_among _ _ Hh) as [Hn|[Hn|[Hn|Hn]]]; rewrite Hn in Ho.
  - congruence.
  - congruence.
  - congruence.
  - apply (contains_ci_prefix (list_ascii_of_string "VBTYP")
             (list_ascii_of_string "_EXT")) in Ho. congruence.
Qed.

Lemma unit_without_names_witness :
  let u := unit_with "SELECT a FROM vbak JOIN vbap ON x. DATA t TYPE vbeln." in
  contains_ci (list_ascii_of_string "VBUK") (list_ascii_of_string (src_of u)) = false
  ∧ contains_ci (list_ascii_of_string "VBUP") (list_ascii_of_string (src_of u)) = false
  ∧ contains_ci (list_ascii_of_string "VBTYP") (list_ascii_of_string (src_of u)) = false
  ∧ assess_unit [] u = Ok [{| unit := u; selects := [] |}].
Proof.
  intros u. do 3 (split; [reflexivity|]).
  apply (unit_without_names [] u); reflexivity.
Defined.

(** ** X3 *)

(** X3 (offsets of a finding). In every finding the start offset lies at
    least six characters before the end offset, and the end offset does not
    exceed the length of the unit's text. *)
Theorem finding_offsets (src : string) :
  ∃ fs,
    unit_findings src = Ok fs
    ∧ Forall
        (fun f =>
           start_char_in_unit f + 6 ≤ end_char_in_unit f
           ∧ end_char_in_unit f ≤ String.length src)
        fs.
Proof.
  exists (findings_of src). split; [apply unit_findings_eq|].
  apply Forall_forall. intros f (h & Hh & ->)%findings_of_elem.
  by apply hit_span_length.
Qed.

(** ** X4 *)

(** X4 (keys of the findings). No two findings of a unit agree in kind, name
    and offsets, and the keys of the findings are the keys of the hits of the
    two scanners: the deduplication loses no key. *)
Theorem finding_keys_distinct (src : string) :
  ∃ sql decl fs,
    scan_sql src = Ok sql
    ∧ scan_declarations src = Ok decl
    ∧ unit_findings src = Ok fs
    ∧ NoDup (finding_key <$> fs)
    ∧ list_to_set (finding_key <$> fs)
      = (list_to_set (key_of <$> (sql ++ decl)) : gset hit_key).
Proof.
  exists (sql_hits_of src), (decl_hits_of src), (findings_of src).
  split; [apply scan_sql_eq|]. split; [apply scan_declarations_eq|].
  split; [apply unit_findings_eq|].
  unfold findings_of. rewrite <-keep_first_occurrences, <-list_fmap_compose.
  set (hits := sql_hits_of src ++ decl_hits_of src).
  assert (finding_key ∘ to_finding <$> keep ∅ hits = key_of <$> keep ∅ hits) as ->.
  { apply list_fmap_ext. intros _ h _. apply finding_key_to_finding. }
  split; [apply keep_NoDup|].
  apply set_eq. intros k. rewrite !elem_of_list_to_set, !list_elem_of_fmap. split.
  - intros (h & -> & Hh). exists h. split; [done|]. by apply keep_subseteq in Hh.
  - intros (h & -> & Hh).
    destruct (keep_covers hits ∅ h Hh) as [Hin|(h' & Hh' & Hk)].
    + by apply elem_of_empty in Hin.
    + by exists h'.
Qed.

(** ** X5 *)



(** ** X6 *)

(** X6 (place of a declaration hit). For texts of code points below 256:
    the span of every hit of the declaration scanner marks, in the unit's
    text itself, a keyword TYPE or LIKE in upper, lower or mixed case, then
    white space, then an identifier that reads as the hit's name once
    upper-cased. The keyword does not follow a word character. The identifier
    is taken up to the first character that is none of A to Z, a to z, 0 to 9
    and the underscore: the character after the span, if any, is none of
    these. It may be another letter: in [DATA x TYPE VBTYP], e with acute
    accent (code point 233), [x.] the hit for VBTYP spans 7 to 17 and is
    followed by that letter. *)
Theorem declaration_hit_place (src : string) :
  (let text := list_ascii_of_string src in
   ∃ hits,
     scan_declarations src = Ok hits
     ∧ Forall
         (fun h =>
            ∃ kw sp id,
              slice text (fst (hit_span h)) (snd (hit_span h)) = kw ++ sp ++ id
              ∧ (Char.upper <$> kw = list_ascii_of_string "TYPE"
                 ∨ Char.upper <$> kw = list_ascii_of_string "LIKE")
              ∧ sp ≠ [] ∧ Forall (fun c => Char.is_space c = true) sp
              ∧ Char.upper <$> id = list_ascii_of_string (hit_target_name h)
              ∧ word_at (last (take (fst (hit_span h)) text)) = false
              ∧ match text !! snd (hit_span h) with
                | Some c => ident_char c = false
                | None => True
                end)
         hits)
  ∧ (∃ h,
       scan_declarations ("DATA x TYPE VBTYP" +:+ String "233" "x.") = Ok [h]
       ∧ hit_target_name h = "VBTYP" ∧ hit_span h = (7, 17)
       ∧ list_ascii_of_string ("DATA x TYPE VBTYP" +:+ String "233" "x.") !! 17
         = Some "233"%char
       ∧ Char.is_word "233" = true ∧ ident_char "233" = false).
Proof.
  split; [|eexists; repeat split; vm_compute; reflexivity].
  intros text. exists (decl_hits_of src). split; [apply scan_declarations_eq|].
  apply Forall_forall. intros h (m & Hh & Hm)%list_elem_of_bind.
  apply decl_hits_cases in Hh as (g & Hg & -> & -> & Hname).
  apply finditer_reported in Hm; [|vm_compute; lia].
  pose proof (decl_whole _ _ Hm) as Hwhole.
  apply reported_arises, decl_anatomy in Hm
    as (kw & sp & id & Hs & Hkw & Nsp & Hsp & _ & _ & Hg' & Hb).
  rewrite Hg in Hg'. injection Hg' as ->.
  exists kw, sp, id. cbn [span fst snd].
  do 4 (split; [done|]). split; [|by split].
  rewrite <-(chars_of_list id) at 1.
  apply upper_chars; [|done].
  destruct Hname as [-> | ->]; by repeat constructor.
Qed.

(** ** X7 *)

(** X7 (place of a JOIN hit). For texts of code points below 256: for every
    block of a unit and every JOIN clause found in the block's trailing
    region, the span of the match marks, inside the trailing region, the
    keyword JOIN in upper, lower or mixed case, then white space, then the
    table name taken whole, up to the first character that is no word
    character. The same clause stands in the
    unit's text further right by the offset at which the trailing region
    begins, the block's end less the region's length. A hit made from the
    clause carries the span inside the region and the upper-cased table
    name. *)
Theorem join_hit_place (src : string) :
  let text := list_ascii_of_string src in
  Forall
    (fun stmt =>
       ∃ rest,
         group stmt "rest" = Some rest
         ∧ String.length rest ≤ m_end stmt
         ∧ Forall
             (fun jm =>
                ∃ kw sp tbl,
                  slice (list_ascii_of_string rest) (m_start jm) (m_end jm)
                  = kw ++ sp ++ tbl
                  ∧ slice text
                      (m_end stmt - String.length rest + m_start jm)
                      (m_end stmt - String.length rest + m_end jm)
                    = kw ++ sp ++ tbl
                  ∧ Char.upper <$> kw = list_ascii_of_string "JOIN"
                  ∧ sp ≠ [] ∧ Forall (fun c => Char.is_space c = true) sp
                  ∧ tbl ≠ [] ∧ Forall (fun c => Char.is_word c = true) tbl
                  ∧ word_at (list_ascii_of_string rest !! m_end jm) = false
                  ∧ ∃ hits,
                      scan_join [] jm = Ok hits
                      ∧ Forall
                          (fun h =>
                             hit_span h = span jm
                             ∧ Char.upper <$> tbl
                               = list_ascii_of_string (hit_target_name h))
                          hits)
             (finditer JOIN_RE rest))
    (finditer SQL_SELECT_BLOCK_RE src).
Proof.
  intros text. apply Forall_forall. intros stmt Hstmt%finditer_arises.
  destruct (arises_group _ _ _ "rest" Hstmt eq_refl) as [rest Hrest].
  destruct (rest_in_text _ _ _ Hstmt Hrest) as (pre & post & Htext & Lpre & Hle).
  exists rest. do 2 (split; [done|]).
  apply Forall_forall. intros jm Hjm.
  destruct (finditer_bounds _ _ _ Hjm) as [_ Hend].
  pose proof (finditer_reported JOIN_RE rest jm ltac:(vm_compute; lia) Hjm) as Hrep.
  pose proof (join_whole _ _ Hrep) as Hwhole.
  destruct (join_anatomy _ _ (reported_arises _ _ _ Hrep))
    as (kw & sp & tbl & Hs & Hkw & Nsp & Hsp & Ntbl & Htbl & Hg & _).
  exists kw, sp, tbl. split; [done|]. split.
  { fold text in Htext. rewrite Htext, <-Lpre, slice_within; [done|].
    by rewrite length_chars. }
  do 5 (split; [done|]). split.
  { destruct (list_ascii_of_string rest !! m_end jm); [exact Hwhole|done]. }
  exists (join_hits jm). split.
  { rewrite (scan_join_eq [] jm); [done|by rewrite Hg]. }
  unfold join_hits. rewrite Hg. apply Forall_forall. intros h Hh.
  apply table_hits_cases in Hh as (-> & -> & Hname). split; [done|].
  rewrite <-(chars_of_list tbl) at 1. apply upper_chars; [|done].
  destruct Hname as [-> | ->]; by repeat constructor.
Qed.

(** ** X8 *)

(** X8 (extent of a SELECT block). Every block of a unit reads: SELECT, at
    least one character, FROM, white space, a table name, a trailing region;
    the keywords in any letter case. The SELECT does not follow a word
    character. The table name is taken whole: the character after it is no
    word character. The block ends at the first place, from the end of the
    table name onwards, where a whole keyword SELECT begins or the text ends
    (its very end, or the place before a final line feed); no earlier place
    in the trailing region is such a place. The two named groups hold the
    table name and the trailing region. *)
Theorem select_block_extent (src : string) :
  let text := list_ascii_of_string src in
  Forall
    (fun stmt =>
       ∃ sel mid frm sp tbl rst,
         slice text (m_start stmt) (m_end stmt)
         = sel ++ mid ++ frm ++ sp ++ tbl ++ rst
         ∧ Char.upper <$> sel = list_ascii_of_string "SELECT"
         ∧ mid ≠ []
         ∧ Char.upper <$> frm = list_ascii_of_string "FROM"
         ∧ sp ≠ [] ∧ Forall (fun c => Char.is_space c = true) sp
         ∧ tbl ≠ [] ∧ Forall (fun c => Char.is_word c = true) tbl
         ∧ group stmt "table" = Some (string_of_list_ascii tbl)
         ∧ group stmt "rest" = Some (string_of_list_ascii rst)
         ∧ word_at (last (take (m_start stmt) text)) = false
         ∧ word_at (text !! (m_end stmt - length rst)) = false
         ∧ first_end text (m_end stmt - length rst) (m_end stmt))
    (finditer SQL_SELECT_BLOCK_RE src).
Proof.
  intros text. apply Forall_forall. intros stmt Hstmt.
  apply reported_block_parts, finditer_reported; [vm_compute; lia|done].
Qed.

(** ** X9 *)

(** X9 (the comment of a declared field). The comment helper never raises and
    looks at the upper-cased name only: it answers with the remove-usage
    comment for VBTYP_EXT, with the lengthened-element comment for VBTYP, and
    with the empty text for every other name. The declaration scanner never
    meets the empty text: each of its hits carries the comment of its name,
    and that comment is not empty. *)
Theorem comment_decl_field_cases (field src : string) :
  comment_decl_field field
  = Ok (if decide (upper field = "VBTYP_EXT")
        then "* TODO: Field VBTYP_EXT obsolete (Note 2198647). Remove usage."
        else if decide (upper field = "VBTYP")
        then "* TODO: Data element VBTYP was lengthened (Note 2198647). Use VBTYPL."
        else "")
  ∧ comment_decl_field (upper field) = comment_decl_field field
  ∧ ∃ hits,
      scan_declarations src = Ok hits
      ∧ Forall
          (fun h =>
             comment_decl_field (hit_target_name h) = Ok (hit_suggested_statement h)
             ∧ hit_suggested_statement h ≠ "")
          hits.
Proof.
  split; [|split].
  - unfold comment_decl_field, in_set, in_dict.
    destruct (decide (upper field = "VBTYP_EXT")) as [->|N1]; [reflexivity|].
    rewrite bool_decide_eq_false_2 by (by rewrite DECL_FIELDS_OBS_elem).
    destruct (decide (upper field = "VBTYP")) as [->|N2]; [reflexivity|].
    rewrite bool_decide_eq_false_2; [done|].
    intros [r Hr]. by apply DECL_FIELDS_lookup in Hr as [? _].
  - unfold comment_decl_field. by rewrite upper_idem.
  - exists (decl_hits_of src). split; [apply scan_declarations_eq|].
    apply Forall_forall. intros h (m & Hh & _)%list_elem_of_bind.
    by apply decl_hits_elem in Hh as [-> | ->].
Qed.

(** ** X10 *)

(** X10 (the deduplication and the two scanners). The SQL scanner makes TABLE
    and SQL_FIELD hits only, the declaration scanner DECLARATION hits only.
    The deduplication never drops a declaration hit: the findings of a unit
    are the first occurrences among the SQL hits, followed by every hit of the
    declaration scanner. *)
Theorem declarations_never_dropped (src : string) :
  ∃ sql decl,
    scan_sql src = Ok sql
    ∧ scan_declarations src = Ok decl
    ∧ unit_findings src
      = Ok ((to_finding <$> first_occurrences sql) ++ (to_finding <$> decl))
    ∧ Forall (fun h => hit_target_type h ≠ DECLARATION) sql
    ∧ Forall (fun h => hit_target_type h = DECLARATION) decl.
Proof.
  exists (sql_hits_of src), (decl_hits_of src).
  split; [apply scan_sql_eq|]. split; [apply scan_declarations_eq|].
  split; [by rewrite unit_findings_eq, findings_split|].
  split; apply Forall_forall; intros h Hh.
  - by apply (sql_hits_kind src).
  - by apply (decl_hits_kind src).
Qed.

(** ** X11 *)

(** X11 (letter case). Two texts that differ in the case of their letters
    only, character by character, get the same findings: the same kinds and
    names at the same offsets, with the same suggestions and comments. *)
Theorem scan_ignores_letter_case (src src' : string) :
  same_letters src src' → unit_findings src' = unit_findings src.
Proof.
  intros H. by rewrite !unit_findings_eq, (findings_of_same _ _ H).
Qed.

Lemma scan_ignores_letter_case_witness :
  same_letters "select a from Vbuk join vbUP on x. data y like vbtyp."
               "SELECT A FROM VBUK JOIN VBUP ON X. DATA Y LIKE VBTYP."
  ∧ unit_findings "SELECT A FROM VBUK JOIN VBUP ON X. DATA Y LIKE VBTYP."
    = unit_findings "select a from Vbuk join vbUP on x. data y like vbtyp.".
Proof.
  assert (same_letters "select a from Vbuk join vbUP on x. data y like vbtyp."
                       "SELECT A FROM VBUK JOIN VBUP ON X. DATA Y LIKE VBTYP.") as H
    by (repeat constructor).
  split; [exact H|]. exact (scan_ignores_letter_case _ _ H).
Defined.
